(** * SudokuSolver: the board model and the backtracking search of [main.py]

    A shallow embedding of the [Point] and [Sudoku] dataclasses and of the
    recursive [solve] function, with the properties of the design document
    stated and proved over it.

    Conventions of the embedding.
    - Python [int] is [Z]; a Python [set] of ints is a [gset Z] (two sets
      with the same members are equal, as for the [==] of Python sets); a
      Python [str] is a [string], one [ascii] for each character.
    - A [Point] object living in [s.points] is referred to by its index in
      that list: a method that receives a point receives its index, reads
      the current fields with [s !!! i] and writes them back with
      [<[i:=_]>].  Every point handed to a method by [main.py] is an
      element of [s.points].
    - A method that mutates the board returns the new board.
    - The class variables [thinks], [guesses], ... are the record [Stats],
      threaded through [Sudoku_failed] and [solve].
    - [next(iter(x))] on a set depends on the iteration order of the set,
      which the language leaves open: it is the section variable [pick],
      of which only [pick x ∈ x] for non-empty [x] is assumed. *)

From Stdlib Require Import ZArith List String Ascii Lia.
From stdpp Require Import base decidable option list sets gmap strings numbers pretty sorting.

Local Open Scope Z_scope.

(** ** Data model *)

(** [class Point]; the dataclass decorator generates an [__eq__] comparing all
    six fields, which is the Leibniz equality of this record. *)
Record Point := mkPoint {
  row : Z;
  col : Z;
  value : Z;
  failed : gset Z;
  _available : gset Z;
  source : string
}.

#[global] Instance Point_eq_dec : EqDecision Point.
Proof. solve_decision. Defined.

(** The blank point, result of reading past the end of [points]
    (which no call of the program does). *)
#[global] Instance Point_inhabited : Inhabited Point :=
  populate (mkPoint 0 0 0 ∅ ∅ " ").

(** [Point.bigrow] is [int(self.row/3)]: the quotient truncated toward zero. *)
Definition bigrow (p : Point) : Z := Z.quot (row p) 3.

(** [Point.bigcol] is [int(self.col/3)]. *)
Definition bigcol (p : Point) : Z := Z.quot (col p) 3.

Definition set_value (v : Z) (p : Point) : Point :=
  mkPoint (row p) (col p) v (failed p) (_available p) (source p).

Definition set_source (c : string) (p : Point) : Point :=
  mkPoint (row p) (col p) (value p) (failed p) (_available p) c.

Definition set_failed (f : gset Z) (p : Point) : Point :=
  mkPoint (row p) (col p) (value p) f (_available p) (source p).

Definition set_available (a : gset Z) (p : Point) : Point :=
  mkPoint (row p) (col p) (value p) (failed p) a (source p).

(** [class Sudoku], instance fields. *)
Record Sudoku := mkSudoku {
  startpos : string;
  name : string;
  points : list Point
}.

#[global] Instance Sudoku_eq_dec : EqDecision Sudoku.
Proof. solve_decision. Defined.

Definition set_points (l : list Point) (s : Sudoku) : Sudoku :=
  mkSudoku (startpos s) (name s) l.

(** The point object at index [i] of [s.points]. *)
Definition point_at (s : Sudoku) (i : nat) : Point := points s !!! i.

(** [class Sudoku], class variables. *)
Record Stats := mkStats {
  thinks : Z;
  guesses : Z;
  deductions : Z;
  fails : Z;
  maxlevel : Z
}.

Definition Stats0 : Stats := mkStats 0 0 0 0 0.

(** ** Construction: [Sudoku.__post_init__] *)

(** [f"{startpos:81}"]: left-aligned in a field of minimal width 81,
    filled with spaces; a longer string is left as it is. *)
Definition pad81 (sp : string) : string :=
  (sp ++ string_of_list_ascii (repeat " "%char (81 - String.length sp)%nat))%string.

(** [str[k]] of Python: a negative index counts from the end, an index out
    of range raises [IndexError] (here [None]). *)
Definition str_index (sp : string) (k : Z) : option ascii :=
  let n := Z.of_nat (String.length sp) in
  if decide (0 <= k < n) then String.get (Z.to_nat k) sp
  else if decide (- n <= k < 0) then String.get (Z.to_nat (n + k)) sp
  else None.

(** [int(c) if c in "123456789" else 0], for the one-character string [c]:
    [in] searches [c] in the literal, and [int] of a digit is its code
    minus the code of the digit zero. *)
Definition char_value (c : ascii) : Z :=
  match String.index 0 (String c EmptyString) "123456789" with
  | Some _ => Z.of_N (N_of_ascii c) - 48
  | None => 0
  end.

(** [list(Point(int(_/9), _ % 9) for _ in range(9*9))]. *)
Definition blank_points : list Point :=
  (λ k : nat, mkPoint (Z.quot (Z.of_nat k) 9) (Z.of_nat k mod 9) 0 ∅ ∅ " ") <$> seq 0 81.

(** The loop applying the starting position, one point after the other. *)
Definition apply_startpos (sp : string) (l : list Point) : option (list Point) :=
  mapM (λ point, c ← str_index (pad81 sp) (col point + 9 * row point);
                 Some (set_value (char_value c) point)) l.

(** [self.points[4+(9*4)].value = 1]. *)
Definition default_position (l : list Point) : option (list Point) :=
  p ← l !! 40%nat; Some (<[40%nat := set_value 1 p]> l).

(** [Sudoku.__post_init__]; [None] is an [IndexError]. *)
Definition __post_init__ (self : Sudoku) : option Sudoku :=
  l ← (if decide (startpos self ≠ ""%string)
       then apply_startpos (startpos self) blank_points
       else default_position blank_points);
  Some (set_points l self).

(** [Sudoku(startpos, name)]: the generated [__init__] stores the two
    arguments and the default [points], then calls [__post_init__]. *)
Definition Sudoku_init (sp nm : string) : option Sudoku :=
  __post_init__ (mkSudoku sp nm []).

(** ** Used and available values *)

(** [{1, 2, 3, 4, 5, 6, 7, 8, 9}] *)
Definition one_to_nine : gset Z := list_to_set [1; 2; 3; 4; 5; 6; 7; 8; 9].

Definition onrow (s : Sudoku) (point : Point) : gset Z :=
  list_to_set (value <$> filter (λ q, value q ≠ 0 ∧ row q = row point) (points s)).

Definition oncol (s : Sudoku) (point : Point) : gset Z :=
  list_to_set (value <$> filter (λ q, value q ≠ 0 ∧ col q = col point) (points s)).

Definition in3x3 (s : Sudoku) (point : Point) : gset Z :=
  list_to_set (value <$> filter (λ q, value q ≠ 0 ∧ bigrow q = bigrow point
                                      ∧ bigcol q = bigcol point) (points s)).

Definition used (s : Sudoku) (point : Point) : gset Z :=
  oncol s point ∪ onrow s point ∪ in3x3 s point ∪ failed point.

(** [Sudoku.available]: the cache [_available] is filled when the point is
    unset and the cache is empty (an empty set is falsy); the cache is
    returned in every case. *)
Definition available (s : Sudoku) (i : nat) : Sudoku * gset Z :=
  let point := point_at s i in
  if decide (value point = 0 ∧ _available point = ∅) then
    let a := one_to_nine ∖ used s point in
    (set_points (<[i := set_available a point]> (points s)) s, a)
  else (s, _available point).

(** [Sudoku.clearcache] *)
Definition clearcache (s : Sudoku) : Sudoku :=
  set_points (set_available ∅ <$> points s) s.

(** [Sudoku.setpoint] *)
Definition setpoint (s : Sudoku) (i : nat) (v : Z) (src : string) : Sudoku :=
  let point := point_at s i in
  clearcache (set_points (<[i := set_source src (set_value v point)]> (points s)) s).

(** [Sudoku.failed] (the method; the field of the same name is [failed]). *)
Definition Sudoku_failed (st : Stats) (s : Sudoku) (i : nat) (v : Z) : Stats * Sudoku :=
  let point := point_at s i in
  (mkStats (thinks st) (guesses st) (deductions st) (fails st + 1) (maxlevel st),
   clearcache (set_points (<[i := set_failed ({[v]} ∪ failed point) point]> (points s)) s)).

(** [copy.deepcopy]: a board is a value here, its copy is the same value. *)
Definition deepcopy (s : Sudoku) : Sudoku := s.

(** ** Deduction along a row or a column *)

(** The loop of [Sudoku.deduce] over [self.points], here over the indices
    that remain to be visited; [point != p] is the generated [__ne__]. *)
Fixpoint deduce_loop (i : nat) (s : Sudoku) (l : list nat)
    (deducerow deducecol : gset Z) : Sudoku * gset Z * gset Z :=
  match l with
  | [] => (s, deducerow, deducecol)
  | j :: l' =>
    let point := point_at s i in
    let p := point_at s j in
    if decide (point ≠ p ∧ value p = 0) then
      if decide (row point = row p) then
        let '(s1, a) := available s j in
        deduce_loop i s1 l' (deducerow ∪ a) deducecol
      else if decide (col point = col p) then
        let '(s1, a) := available s j in
        deduce_loop i s1 l' deducerow (deducecol ∪ a)
      else deduce_loop i s l' deducerow deducecol
    else deduce_loop i s l' deducerow deducecol
  end.

(** [Sudoku.deduce]; the second [ans :=] is evaluated only when the first
    difference does not have exactly one element. *)
Definition deduce (s : Sudoku) (i : nat) : Sudoku * gset Z :=
  let '(s1, deducerow, deducecol) :=
    deduce_loop i s (seq 0 (length (points s))) ∅ ∅ in
  let '(s2, a) := available s1 i in
  let ans := a ∖ deducerow in
  if decide (size ans = 1%nat) then (s2, ans)
  else
    let '(s3, a') := available s2 i in
    let ans := a' ∖ deducecol in
    if decide (size ans = 1%nat) then (s3, ans) else (s3, ∅).

(** The comprehension of [Sudoku.deduced]; [and] evaluates its right operand
    only when the left one is truthy. *)
Fixpoint deduced_loop (s : Sudoku) (l : list nat) : Sudoku * list nat :=
  match l with
  | [] => (s, [])
  | j :: l' =>
    if decide (value (point_at s j) = 0) then
      let '(s1, a) := available s j in
      if decide (1 < size a)%nat then
        let '(s2, d) := deduce s1 j in
        let '(s3, ans) := deduced_loop s2 l' in
        if decide (d ≠ ∅) then (s3, j :: ans) else (s3, ans)
      else deduced_loop s1 l'
    else deduced_loop s l'
  end.

(** [Sudoku.deduced] *)
Definition deduced (s : Sudoku) : Sudoku * list nat :=
  deduced_loop s (seq 0 (length (points s))).

(** ** The work list *)

(** [sorted(_, key=_)] is a stable sort on the keys; it is modelled by the
    insertion sort that puts an element in front of the first element whose
    key is not smaller, which is stable. *)
Fixpoint insert_by {A} (key : A → nat) (x : A) (l : list A) : list A :=
  match l with
  | [] => [x]
  | y :: l' => if decide (key x ≤ key y)%nat then x :: l else y :: insert_by key x l'
  end.

Definition sorted {A} (key : A → nat) (l : list A) : list A :=
  foldr (insert_by key) [] l.

(** The keys [len(self.available(p))], computed for every element in order
    before the sort starts. *)
Fixpoint todo_keys (s : Sudoku) (l : list nat) : Sudoku * list (nat * nat) :=
  match l with
  | [] => (s, [])
  | j :: l' =>
    let '(s1, a) := available s j in
    let '(s2, ks) := todo_keys s1 l' in
    (s2, (size a, j) :: ks)
  end.

(** The generator [(p for p in self.points if p.value == 0)], as consumed
    by [sorted] before any key is computed. *)
Definition unset_points (s : Sudoku) : list nat :=
  filter (λ j, value (point_at s j) = 0) (seq 0 (length (points s))).

(** [Sudoku.todo] *)
Definition todo (s : Sudoku) : Sudoku * list nat :=
  let '(s1, ks) := todo_keys s (unset_points s) in
  (s1, snd <$> sorted fst ks).

(** [Sudoku.tokenize] *)
Definition tokenize (s : Sudoku) (src : bool) : string :=
  if src then String.concat "" (source <$> points s)
  else String.concat ""
         ((λ p, if decide (value p = 0) then "."%string else pretty (value p)) <$> points s).

(** ** The solver *)

Inductive exception := IndexError | StopIteration.

(** What a call does: it returns, it raises, or the model ran out of fuel. *)
Inductive result (A : Type) :=
  | Ok (a : A)
  | Raise (e : exception)
  | OutOfFuel.
Arguments Ok {A} a.
Arguments Raise {A} e.
Arguments OutOfFuel {A}.

#[global] Instance result_bind : MBind result := λ A B f m,
  match m with
  | Ok a => f a
  | Raise e => Raise e
  | OutOfFuel => OutOfFuel
  end.

(** The value [solve] returns: [True], together with the board printed by the
    call that found the grid full, or [False]. *)
Inductive answer :=
  | ReturnTrue (shown : Sudoku)
  | ReturnFalse.

(** [l[0]] *)
Definition first {A} (l : list A) : result A :=
  match l with
  | [] => Raise IndexError
  | a :: _ => Ok a
  end.

(** ['abcedfghijk'[n]] *)
Definition guess_tag (n : nat) : result string :=
  match str_index "abcedfghijk" (Z.of_nat n) with
  | Some c => Ok (String c EmptyString)
  | None => Raise IndexError
  end.

Definition add_think (st : Stats) : Stats :=
  mkStats (thinks st + 1) (guesses st) (deductions st) (fails st) (maxlevel st).

Definition add_deduction (st : Stats) : Stats :=
  mkStats (thinks st) (guesses st) (deductions st + 1) (fails st) (maxlevel st).

Definition add_guess (st : Stats) : Stats :=
  mkStats (thinks st) (guesses st + 1) (deductions st) (fails st) (maxlevel st).

Definition enter_level (level : Z) (st : Stats) : Stats :=
  mkStats (thinks st) (guesses st) (deductions st) (fails st) (Z.max (maxlevel st) level).

Section Search.

(** The element that [next(iter(x))] yields for a non-empty set [x]. *)
Variable pick : gset Z → Z.

(** [next(iter(x))] *)
Definition next_iter (x : gset Z) : result Z :=
  if decide (x = ∅) then Raise StopIteration else Ok (pick x).

(** The condition of the first [while] of [solve]. *)
Definition known_cond (s : Sudoku) (dd : bool) : result (Sudoku * bool) :=
  let '(s, t) := todo s in
  if decide (t = []) then Ok (s, false)
  else
    let '(s, t) := todo s in
    i ← first t;
    let '(s, a) := available s i in
    if decide (size a = 1%nat) then Ok (s, true)
    else if dd then
      let '(s, d) := deduced s in Ok (s, bool_decide (d ≠ []))
    else Ok (s, false).

(** The body of the first [while] of [solve]. *)
Definition known_body (st : Stats) (s : Sudoku) : result (Stats * Sudoku) :=
  let '(s, t) := todo s in
  i ← first t;
  let '(s, a) := available s i in
  if decide (size a = 1%nat) then
    let '(s, t) := todo s in
    i ← first t;
    let '(s, a) := available s i in
    v ← next_iter a;
    Ok (add_think st, setpoint s i v "=")
  else
    let '(s, d) := deduced s in
    i ← first d;
    let '(s, a) := deduce s i in
    v ← next_iter a;
    Ok (add_deduction st, setpoint s i v "*").

(** The first [while] of [solve]: known values. *)
Fixpoint known_values (n : nat) (st : Stats) (s : Sudoku) (dd : bool)
    : result (Stats * Sudoku) :=
  match n with
  | O => OutOfFuel
  | S n =>
    '(s, c) ← known_cond s dd;
    if c : bool then
      '(st, s) ← known_body st s;
      known_values n st s dd
    else Ok (st, s)
  end.

(** The guess of the second [while]: the copy of the board with the value
    [use] set at its best point. *)
Definition guess (s : Sudoku) (use : Z) : result Sudoku :=
  let nextlevel := deepcopy s in
  let '(nextlevel, t) := todo nextlevel in
  nexttodo ← first t;
  tag ← guess_tag (size (failed (point_at nextlevel nexttodo)));
  Ok (setpoint nextlevel nexttodo use tag).

(** The body of the second [while] of [solve], with [rec] the recursive
    call.  The board of the recursive call is a copy that is dropped on
    return.  The last component is [Some r] when the body executes
    [return r], and [None] when the loop goes on. *)
Definition guessing_body (rec : Stats → Sudoku → Z → bool → result (Stats * Sudoku * answer))
    (st : Stats) (s : Sudoku) (level : Z) (dd : bool)
    : result (Stats * Sudoku * option answer) :=
  let '(s, t) := todo s in
  i ← first t;
  let '(s, a) := available s i in
  if decide (a ≠ ∅) then
    use ← next_iter a;
    nextlevel ← guess s use;
    let st := add_guess st in
    '(st, _, r) ← rec st nextlevel (level + 1) dd;
    match r with
    | ReturnTrue shown => Ok (st, s, Some (ReturnTrue shown))
    | ReturnFalse =>
      let '(st, s) := Sudoku_failed st s i use in
      Ok (st, s, None)
    end
  else Ok (st, s, Some ReturnFalse).

(** The second [while] of [solve]: guessing.  When the work list is empty
    the board is printed and [True] is returned. *)
Fixpoint guessing (rec : Stats → Sudoku → Z → bool → result (Stats * Sudoku * answer))
    (n : nat) (st : Stats) (s : Sudoku) (level : Z) (dd : bool)
    : result (Stats * Sudoku * answer) :=
  match n with
  | O => OutOfFuel
  | S n =>
    let '(s, t) := todo s in
    if decide (t = []) then Ok (st, s, ReturnTrue s)
    else
      '(st, s, r) ← guessing_body rec st s level dd;
      match r with
      | Some ans => Ok (st, s, ans)
      | None => guessing rec n st s level dd
      end
  end.

(** [solve(s, level, deduce)]: the statistics and the board [s] after the
    call, and the returned value. *)
Fixpoint solve (fuel : nat) (st : Stats) (s : Sudoku) (level : Z) (dd : bool)
    : result (Stats * Sudoku * answer) :=
  match fuel with
  | O => OutOfFuel
  | S fuel =>
    let st := enter_level level st in
    '(st, s) ← known_values fuel st s dd;
    guessing (solve fuel) fuel st s level dd
  end.

End Search.

(** A fixed iteration order: the least element first. *)
Definition pick_least (x : gset Z) : Z :=
  match elements x with
  | [] => 0
  | a :: l => foldr Z.min a l
  end.

(** ** The printed board *)

(** The line feed that ends a [print]. *)
Definition newline : string := String "010" EmptyString.

(** The first [print] of [Sudoku.display]: the name and the number of steps,
    when the board has a name. *)
Definition display_header (st : Stats) (s : Sudoku) : string :=
  if decide (name s = EmptyString) then EmptyString
  else name s +:+ " - " +:+ pretty (thinks st + deductions st + guesses st) +:+ newline.

(** One turn of the loop of [Sudoku.display]: the text printed for a
    point. *)
Definition display_point (src : bool) (p : Point) : string :=
  (" " +:+ (if decide (value p = 0) then "." else pretty (value p))
       +:+ (if src then source p else " ")
       +:+ (if decide (col p = 2 ∨ col p = 5) then "|" else EmptyString))
  +:+ (if decide (col p = 8)
       then newline +:+ (if decide (row p = 2 ∨ row p = 5)
                         then "---------+---------+---------" +:+ newline
                         else EmptyString)
       else EmptyString).

(** [Sudoku.display]: the text it prints. *)
Definition display (st : Stats) (s : Sudoku) (src : bool) : string :=
  display_header st s
  +:+ String.concat "" (display_point src <$> points s)
  +:+ newline.

(** ** Vocabulary of the properties *)

(** The set that [available] returns for the point [i] in the state [s]. *)
Definition avail_val (s : Sudoku) (i : nat) : gset Z := (available s i).2.

(** Two boards that differ in the caches only. *)
Definition same_cells (s s' : Sudoku) : Prop := clearcache s = clearcache s'.

(** Two boards that differ in the caches only, and whose caches answer
    the same. *)
Definition same_view (s s' : Sudoku) : Prop :=
  same_cells s s' ∧ ∀ i, avail_val s i = avail_val s' i.

(** The available values of a point computed from scratch. *)
Definition fresh_available (s : Sudoku) (i : nat) : gset Z :=
  let p := point_at s i in
  one_to_nine ∖ (onrow s p ∪ oncol s p ∪ in3x3 s p ∪ failed p).

(** Every cache is empty or holds the available values of an unset point. *)
Definition coherent (s : Sudoku) : Prop :=
  ∀ i, _available (point_at s i) = ∅
       ∨ (value (point_at s i) = 0 ∧ _available (point_at s i) = fresh_available s i).

(** The boards that the program can build: a constructed board, changed by
    the methods of the class in any order and with any arguments. *)
Inductive reachable : Sudoku → Prop :=
  | reach_init sp nm s : Sudoku_init sp nm = Some s → reachable s
  | reach_setpoint s i v src : reachable s → reachable (setpoint s i v src)
  | reach_failed st s i v : reachable s → reachable (Sudoku_failed st s i v).2
  | reach_available s i : reachable s → reachable (available s i).1
  | reach_todo s : reachable s → reachable (todo s).1
  | reach_deduce s i :
      reachable s → (i < length (points s))%nat → reachable (deduce s i).1
  | reach_deduced s : reachable s → reachable (deduced s).1
  | reach_deepcopy s : reachable s → reachable (deepcopy s).

(** 81 points in row-major order. *)
Definition shape (s : Sudoku) : Prop :=
  length (points s) = 81%nat ∧
  ∀ i, (i < 81)%nat →
    row (point_at s i) = Z.of_nat i / 9 ∧ col (point_at s i) = Z.of_nat i mod 9.

(** No two points of the board stand at the same place. *)
Definition distinct_places (s : Sudoku) : Prop :=
  ∀ i j, (i < length (points s))%nat → (j < length (points s))%nat →
    row (point_at s i) = row (point_at s j) →
    col (point_at s i) = col (point_at s j) → i = j.

(** What [todo] returns, stated on the sets that [available] returns. *)
Definition todo_val (s : Sudoku) : list nat :=
  snd <$> sorted fst ((λ j, (size (avail_val s j), j)) <$> unset_points s).

(** The other unset points of the row of the point [i]. *)
Definition row_mates (s : Sudoku) (i : nat) : list nat :=
  filter (λ j, j ≠ i ∧ value (point_at s j) = 0
               ∧ row (point_at s i) = row (point_at s j))
         (seq 0 (length (points s))).

(** The other unset points of the column of the point [i] that are not in
    its row. *)
Definition col_mates (s : Sudoku) (i : nat) : list nat :=
  filter (λ j, j ≠ i ∧ value (point_at s j) = 0
               ∧ row (point_at s i) ≠ row (point_at s j)
               ∧ col (point_at s i) = col (point_at s j))
         (seq 0 (length (points s))).

(** The result of [deduce] from the two accumulated sets. *)
Definition deduce_answer (a deducerow deducecol : gset Z) : gset Z :=
  if decide (size (a ∖ deducerow) = 1%nat) then a ∖ deducerow
  else if decide (size (a ∖ deducecol) = 1%nat) then a ∖ deducecol
  else ∅.

(** What [deduce] returns, stated on the sets that [available] returns. *)
Definition deduce_val (s : Sudoku) (i : nat) : gset Z :=
  deduce_answer (avail_val s i)
    (⋃ (avail_val s <$> row_mates s i))
    (⋃ (avail_val s <$> col_mates s i)).

(** What [deduced] returns. *)
Definition deduced_val (s : Sudoku) : list nat :=
  filter (λ j, value (point_at s j) = 0 ∧ (1 < size (avail_val s j))%nat
               ∧ deduce_val s j ≠ ∅)
         (seq 0 (length (points s))).

(** The value that a digit from 1 to 9 stands for: one more than its
    place in the list of these digits. *)
Definition digit_of (c : ascii) : option Z :=
  (λ x : nat * ascii, Z.of_nat x.1 + 1)
    <$> list_find (λ d, d = c) (list_ascii_of_string "123456789").

(** The value that the design document gives to the position [k] of the
    board built from the string [sp]. *)
Definition given_value (sp : string) (k : nat) : Z :=
  if decide (sp = ""%string) then (if decide (k = 40%nat) then 1 else 0)
  else match String.get k sp with
       | Some c => default 0 (digit_of c)
       | None => 0
       end.

(** A board as the constructor and the solver make them: 81 points in
    row-major order, coherent caches, values from 0 to 9, and failed values
    from 1 to 9. *)
Definition board_ok (s : Sudoku) : Prop :=
  shape s ∧ coherent s
  ∧ (∀ i, 0 <= value (point_at s i) <= 9)
  ∧ (∀ i, failed (point_at s i) ⊆ one_to_nine).

(** Two points that share a row, a column or a 3x3 block. *)
Definition peers (p q : Point) : Prop :=
  row p = row q ∨ col p = col q ∨ (bigrow p = bigrow q ∧ bigcol p = bigcol q).

(** The Sudoku constraint on the set points: no value twice in a row, a
    column or a block. *)
Definition no_clash (s : Sudoku) : Prop :=
  ∀ i j, (i < length (points s))%nat → (j < length (points s))%nat → i ≠ j →
    value (point_at s i) ≠ 0 → value (point_at s i) = value (point_at s j) →
    ¬ peers (point_at s i) (point_at s j).

(** The number of unset points. *)
Definition unset_count (s : Sudoku) : nat := length (unset_points s).

(** The operations of the class, as a program may call them one after the
    other on a board. *)
Inductive operation :=
  | OpSetpoint (i : nat) (v : Z) (src : string)
  | OpFailed (i : nat) (v : Z)
  | OpAvailable (i : nat)
  | OpTodo
  | OpDeduce (i : nat)
  | OpDeduced
  | OpDeepcopy.

Definition apply_op (w : Stats * Sudoku) (o : operation) : Stats * Sudoku :=
  let '(st, s) := w in
  match o with
  | OpSetpoint i v src => (st, setpoint s i v src)
  | OpFailed i v => Sudoku_failed st s i v
  | OpAvailable i => (st, (available s i).1)
  | OpTodo => (st, (todo s).1)
  | OpDeduce i => (st, (deduce s i).1)
  | OpDeduced => (st, (deduced s).1)
  | OpDeepcopy => (st, deepcopy s)
  end.

Definition run_ops (w : Stats * Sudoku) (l : list operation) : Stats * Sudoku :=
  foldl apply_op w l.

(** The default board of the main program, [Sudoku('', 'Simple')]. *)
Definition simple_board : Sudoku :=
  mkSudoku "" "Simple"
    ((λ k : nat, mkPoint (Z.of_nat k / 9) (Z.of_nat k mod 9) (given_value "" k) ∅ ∅ " ")
       <$> seq 0 81).

(** A position where the value 1 can only go to the first point of the
    first row. *)
Definition hidden_single_startpos : string :=
  "......789...1...............1...........................1........................".

Definition hidden_single_board : Sudoku :=
  mkSudoku hidden_single_startpos "Hidden single"
    ((λ k : nat, mkPoint (Z.of_nat k / 9) (Z.of_nat k mod 9)
                   (given_value hidden_single_startpos k) ∅ ∅ " ") <$> seq 0 81).

(** The condition of the first [while] of [solve], stated on what the
    methods return. *)
Definition known_cond_val (s : Sudoku) (dd : bool) : bool :=
  match todo_val s with
  | [] => false
  | i :: _ =>
    if decide (size (avail_val s i) = 1%nat) then true
    else if dd then bool_decide (deduced_val s ≠ []) else false
  end.

(** The number of values that can still be recorded as failed. *)
Definition budget (s : Sudoku) : nat :=
  sum_list_with (λ p, size (one_to_nine ∖ failed p)) (points s).

(** What a call of [solve] that returns guarantees: the deepest level
    entered is at most the level of the call plus the number of unset
    points, and the board printed on success is full. *)
Definition solve_post (st : Stats) (s : Sudoku) (level : Z)
    (r : Stats * Sudoku * answer) : Prop :=
  maxlevel st <= maxlevel r.1.1
  ∧ maxlevel r.1.1 <= Z.max (maxlevel st) (level + Z.of_nat (unset_count s))
  ∧ match r.2 with
    | ReturnTrue shown =>
      board_ok shown ∧ unset_count shown = 0%nat ∧ (no_clash s → no_clash shown)
    | ReturnFalse => True
    end.

(** A call that returns with [post], does not raise, and runs out of fuel
    only when [low] holds. *)
Definition returns {A} (r : result A) (low : Prop) (post : A → Prop) : Prop :=
  match r with
  | Ok a => post a
  | Raise _ => False
  | OutOfFuel => low
  end.

(** The number of points with the value [v] among the points of a row, of a
    column or of a block, given by [P]. *)
Definition count_value (s : Sudoku) (P : Point → Prop) `{!∀ p, Decision (P p)}
    (v : Z) : nat :=
  length (filter (λ p, P p ∧ value p = v) (points s)).

(** A full and valid grid: every point has a value from 1 to 9, and every
    row, every column and every block holds each of these values once.
    The block [k] is the one of the big row [k / 3] and the big column
    [k mod 3]. *)
Definition solved_grid (s : Sudoku) : Prop :=
  (∀ p, p ∈ points s → 1 <= value p <= 9)
  ∧ ∀ k v, 0 <= k <= 8 → 1 <= v <= 9 →
      count_value s (λ p, row p = k) v = 1%nat
      ∧ count_value s (λ p, col p = k) v = 1%nat
      ∧ count_value s (λ p, bigrow p = k / 3 ∧ bigcol p = k mod 3) v = 1%nat.

(** A starting position that breaks the rules: 81 times the digit 1. *)
Definition all_ones_startpos : string :=
  "111111111111111111111111111111111111111111111111111111111111111111111111111111111".

Definition all_ones_board : Sudoku :=
  mkSudoku all_ones_startpos "All ones"
    ((λ k : nat, mkPoint (Z.of_nat k / 9) (Z.of_nat k mod 9)
                   (given_value all_ones_startpos k) ∅ ∅ " ") <$> seq 0 81).

(** The default board after three values have failed at its best point,
    the fifth of the first row. *)
Definition three_fails_board : Sudoku :=
  (run_ops (Stats0, simple_board) [OpFailed 4 2; OpFailed 4 3; OpFailed 4 4]).2.

#[global] Instance peers_dec p q : Decision (peers p q).
Proof. unfold peers. apply _. Defined.

(** The Sudoku constraint can be checked by running over all pairs. *)
#[global] Instance no_clash_dec s : Decision (no_clash s).
Proof.
  refine (cast_if (decide (Forall (λ i, Forall (λ j,
            i ≠ j → value (point_at s i) ≠ 0 →
            value (point_at s i) = value (point_at s j) →
            ¬ peers (point_at s i) (point_at s j))
          (seq 0 (length (points s)))) (seq 0 (length (points s))))));
    unfold no_clash; rewrite Forall_forall in *.
  - intros i j Hi Hj. pose proof (f i) as Hf. rewrite elem_of_seq in Hf.
    specialize (Hf ltac:(lia)). rewrite Forall_forall in Hf. apply Hf.
    rewrite elem_of_seq. lia.
  - intros H. apply n. intros i Hi%elem_of_seq. apply Forall_forall.
    intros j Hj%elem_of_seq. apply H; lia.
Defined.

(** A solved grid with its first three values taken away. *)
Definition three_blanks_startpos : string :=
  "...465379374219856956837142765198423249673581813542967592386714487921635631754298".

Definition three_blanks_board : Sudoku :=
  mkSudoku three_blanks_startpos "Three blanks"
    ((λ k : nat, mkPoint (Z.of_nat k / 9) (Z.of_nat k mod 9)
                   (given_value three_blanks_startpos k) ∅ ∅ " ") <$> seq 0 81).

(** A position with a dead end: the last point of the first row has no
    value left. *)
Definition dead_end_startpos : string :=
  "12345678.........9...............................................................".

Definition dead_end_board : Sudoku :=
  mkSudoku dead_end_startpos "Dead end"
    ((λ k : nat, mkPoint (Z.of_nat k / 9) (Z.of_nat k mod 9)
                   (given_value dead_end_startpos k) ∅ ∅ " ") <$> seq 0 81).

(** The places of a board in row-major order that share the row, the
    column or the 3x3 block of the place [i], by arithmetic on the places
    alone. *)
Definition shares_unit (i j : nat) : Prop :=
  (j `div` 9 = i `div` 9 ∨ j `mod` 9 = i `mod` 9
   ∨ ((j `div` 9) `div` 3 = (i `div` 9) `div` 3 ∧ (j `mod` 9) `div` 3 = (i `mod` 9) `div` 3))%nat.

#[global] Instance shares_unit_dec i j : Decision (shares_unit i j).
Proof. unfold shares_unit. apply _. Defined.

(** The values present in the row, in the column and in the block of the
    place [i]. *)
Definition values_seen (s : Sudoku) (i : nat) : gset Z :=
  list_to_set
    ((λ j, value (point_at s j))
       <$> filter (λ j, shares_unit i j ∧ value (point_at s j) ≠ 0) (seq 0 81)).

(** The set of the design document for the place [i]: the values from 1
    to 9 minus the values present in its row, its column and its block and
    minus the values that failed at it. *)
Definition recomputed (s : Sudoku) (i : nat) : gset Z :=
  list_to_set (Z.of_nat <$> seq 1 9) ∖ (values_seen s i ∪ failed (point_at s i)).

(** A board with a history: the available values of the first point are
    asked for, a point of its block and a point of its column are set, a
    value fails at it, and its available values are asked for again. *)
Definition moved_board : Sudoku :=
  (available
     (Sudoku_failed Stats0
        (setpoint (setpoint (available hidden_single_board 0).1 10 5 "=") 27 4 "=")
        0 2).2
     0).1.

(** ** Vocabulary of the further properties *)

(** The set points of [s] have the same value in [g]. *)
Definition extends (s g : Sudoku) : Prop :=
  ∀ i, value (point_at s i) ≠ 0 → value (point_at g i) = value (point_at s i).

(** The board [g] comes after [s]: it keeps the set points of [s], it has
    at least the failed values of [s], and a point that is unset in [s] and
    set in [g] has a value that had not failed at it in [s]. *)
Definition follows (s g : Sudoku) : Prop :=
  extends s g
  ∧ (∀ i, failed (point_at s i) ⊆ failed (point_at g i))
  ∧ ∀ i, value (point_at s i) = 0 → value (point_at g i) ≠ 0 →
         value (point_at g i) ∉ failed (point_at s i).

(** A solution of the board [s]: a full and valid grid of 81 points in
    row-major order that keeps the set points of [s] and gives no unset
    point of [s] a value recorded as failed at it. *)
Definition solution (s g : Sudoku) : Prop :=
  shape g ∧ solved_grid g ∧ extends s g
  ∧ ∀ i, value (point_at s i) = 0 → value (point_at g i) ∉ failed (point_at s i).

(** Every provenance tag is one character. *)
Definition one_char_sources (s : Sudoku) : Prop :=
  ∀ i, String.length (source (point_at s i)) = 1%nat.

(** The provenance tags that [solve] writes: the tag of a value that was
    the only one available, the tag of a deduced value, and the letters of
    the tags of the guesses. *)
Definition solver_tags : list string :=
  ["="; "*"; "a"; "b"; "c"; "e"; "d"; "f"; "g"; "h"; "i"; "j"; "k"]%string.

(** The tags of [g] seen from [s]: a set point of [s] keeps its tag, a
    point that is unset in [s] and set in [g] carries a tag of [solve], a
    point that is unset in [g] keeps its tag, and a set point of [s] keeps
    its failed values. *)
Definition tagged (s g : Sudoku) : Prop :=
  (∀ i, value (point_at s i) ≠ 0 → source (point_at g i) = source (point_at s i))
  ∧ (∀ i, value (point_at s i) = 0 → value (point_at g i) ≠ 0 →
          source (point_at g i) ∈ solver_tags)
  ∧ (∀ i, value (point_at g i) = 0 → source (point_at g i) = source (point_at s i))
  ∧ (∀ i, value (point_at s i) ≠ 0 → failed (point_at g i) = failed (point_at s i))
  ∧ (one_char_sources s → one_char_sources g).

(** What may become of a point across a call of [solve]: its place stays
    and it loses no failed value; a set point stays as it is; an unset
    point stays unset with its tag, or is set to a value from 1 to 9 that
    had not failed at it and carries a tag of [solve]. *)
Definition cell_after (p q : Point) : Prop :=
  row q = row p ∧ col q = col p ∧ failed p ⊆ failed q
  ∧ (value p ≠ 0 → q = p)
  ∧ (value p = 0 →
       (value q = 0 ∧ source q = source p)
       ∨ (1 <= value q <= 9 ∧ (value q ∉ failed p) ∧ source q ∈ solver_tags)).

(** The counters only grow, and the failures counted are at most the
    guesses counted. *)
Definition stats_grow (st st' : Stats) : Prop :=
  thinks st <= thinks st' ∧ guesses st <= guesses st'
  ∧ deductions st <= deductions st' ∧ fails st <= fails st'
  ∧ fails st' - fails st <= guesses st' - guesses st.

(** What a call of [solve] that returns guarantees beyond [solve_post]:
    the board of the caller and the printed board come after the board of
    the call and carry the tags of [solve] at the points set since; [False] is returned only when the board has no solution, and
    then every guess counted has failed. *)
Definition solve_more (dd : bool) (st : Stats) (s : Sudoku)
    (r : Stats * Sudoku * answer) : Prop :=
  follows s r.1.2 ∧ stats_grow st r.1.1
  ∧ (dd = false → deductions r.1.1 = deductions st)
  ∧ tagged s r.1.2
  ∧ board_ok r.1.2
  ∧ match r.2 with
    | ReturnTrue shown =>
      follows r.1.2 shown ∧ tagged r.1.2 shown ∧ tagged s shown
    | ReturnFalse =>
      (∀ g, ¬ solution s g) ∧ guesses r.1.1 - guesses st = fails r.1.1 - fails st
    end.

(** The character that [tokenize] writes for a value from 0 to 9. *)
Definition value_char (v : Z) : ascii :=
  if decide (v = 0) then "."%char else ascii_of_N (48 + Z.to_N v).

(** The characters of a text that [tokenize] may write for a value: the
    digits from 1 to 9 and the dot. *)
Definition is_token_char (c : ascii) : Prop := c = "."%char ∨ is_Some (digit_of c).

Fixpoint token_chars (t : string) : string :=
  match t with
  | EmptyString => EmptyString
  | String c t' =>
    if decide (is_token_char c) then String c (token_chars t') else token_chars t'
  end.

(** The lines of a printed text: the pieces between its line feeds. *)
Fixpoint lines (t : string) : list string :=
  match t with
  | EmptyString => [EmptyString]
  | String c t' =>
    if decide (c = "010"%char) then EmptyString :: lines t'
    else match lines t' with
         | l :: r => String c l :: r
         | [] => [String c EmptyString]
         end
  end.

(** What [display] prints after the heading line. *)
Definition printed_grid (s : Sudoku) : string :=
  String.concat "" (display_point false <$> points s) +:+ newline.

(** The line that [display] prints between two bands of the grid. *)
Definition band_line : string := "---------+---------+---------".

(** The text of a point at place [k] whose value is written [c], and the
    line of the row [r], on a board in row-major order. *)
Definition cell_text (f : nat → ascii) (k : nat) : string :=
  String " " (String (f k) (String " "
    ((if decide (k `mod` 9 = 2 ∨ k `mod` 9 = 5)%nat then "|" else EmptyString)
     +:+ (if decide (k `mod` 9 = 8)%nat
          then newline +:+ (if decide (k `div` 9 = 2 ∨ k `div` 9 = 5)%nat
                            then band_line +:+ newline else EmptyString)
          else EmptyString)))).

Definition row_line (f : nat → ascii) (r : nat) : string :=
  String.concat ""
    ((λ c, String " " (String (f (9 * r + c)%nat) (String " "
             (if decide (c = 2 ∨ c = 5)%nat then "|" else EmptyString))))
       <$> seq 0 9).

(** A text without a line feed. *)
Definition no_newline (t : string) : Prop :=
  Forall (λ c, c ≠ "010"%char) (list_ascii_of_string t).

(** A position that [solve] without deductions fills after one guess that
    fails. *)
Definition one_fail_startpos : string :=
  "12.4.537937421..5...6.371427....8423.4.673.........967.92386.14...9..6..6...54298".

Definition one_fail_board : Sudoku :=
  mkSudoku one_fail_startpos "One fail"
    ((λ k : nat, mkPoint (Z.of_nat k / 9) (Z.of_nat k mod 9)
                   (given_value one_fail_startpos k) ∅ ∅ " ") <$> seq 0 81).

(** The default board with eleven values out of range recorded as failed
    at its best point. *)
Definition eleven_fails_board : Sudoku :=
  (run_ops (Stats0, simple_board)
     ((λ v : nat, OpFailed 4 (Z.of_nat v)) <$> seq 10 11)).2.



(** * Properties *)

(** ** Points and caches *)

Lemma point_at_out_of_range s i :
  (length (points s) ≤ i)%nat → point_at s i = inhabitant.
Proof.
  intros H. unfold point_at. rewrite list_lookup_total_alt.
  by rewrite lookup_ge_None_2.
Qed.

Lemma point_at_clearcache s i :
  point_at (clearcache s) i = set_available ∅ (point_at s i).
Proof.
  destruct (decide (i < length (points s))%nat) as [Hi|Hi].
  - unfold point_at, clearcache; simpl. by apply list_lookup_total_fmap.
  - rewrite !point_at_out_of_range; [done|lia|].
    unfold clearcache; simpl. rewrite length_fmap. lia.
Qed.

Lemma point_at_insert_eq s i p :
  (i < length (points s))%nat → point_at (set_points (<[i:=p]> (points s)) s) i = p.
Proof. intros H. unfold point_at; simpl. by rewrite list_lookup_total_insert_eq. Qed.

Lemma point_at_insert_ne s i j p :
  i ≠ j → point_at (set_points (<[i:=p]> (points s)) s) j = point_at s j.
Proof. intros H. unfold point_at; simpl. by rewrite list_lookup_total_insert_ne. Qed.

Lemma same_cells_refl s : same_cells s s.
Proof. done. Qed.

Lemma same_cells_sym s s' : same_cells s s' → same_cells s' s.
Proof. unfold same_cells. congruence. Qed.

Lemma same_cells_trans s1 s2 s3 :
  same_cells s1 s2 → same_cells s2 s3 → same_cells s1 s3.
Proof. unfold same_cells. congruence. Qed.

Lemma same_cells_point s s' i :
  same_cells s s' → set_available ∅ (point_at s i) = set_available ∅ (point_at s' i).
Proof. intros H. rewrite <- !point_at_clearcache. by rewrite H. Qed.

Lemma same_cells_value s s' i :
  same_cells s s' → value (point_at s i) = value (point_at s' i).
Proof. intros H. apply (f_equal value (same_cells_point _ _ i H)). Qed.

Lemma same_cells_row s s' i :
  same_cells s s' → row (point_at s i) = row (point_at s' i).
Proof. intros H. apply (f_equal row (same_cells_point _ _ i H)). Qed.

Lemma same_cells_col s s' i :
  same_cells s s' → col (point_at s i) = col (point_at s' i).
Proof. intros H. apply (f_equal col (same_cells_point _ _ i H)). Qed.

Lemma same_cells_failed s s' i :
  same_cells s s' → failed (point_at s i) = failed (point_at s' i).
Proof. intros H. apply (f_equal failed (same_cells_point _ _ i H)). Qed.

Lemma same_cells_source s s' i :
  same_cells s s' → source (point_at s i) = source (point_at s' i).
Proof. intros H. apply (f_equal source (same_cells_point _ _ i H)). Qed.

Lemma same_cells_length s s' :
  same_cells s s' → length (points s) = length (points s').
Proof.
  intros H. apply (f_equal (λ x, length (points x))) in H.
  unfold clearcache in H; simpl in H. by rewrite !length_fmap in H.
Qed.

Lemma fmap_filter_clear (P : Point → Prop) `{!∀ q, Decision (P q)} (l : list Point) :
  (∀ q, P (set_available ∅ q) ↔ P q) →
  value <$> filter P (set_available ∅ <$> l) = value <$> filter P l.
Proof.
  intros HP. induction l as [|q l IH]; [done|].
  rewrite fmap_cons, !filter_cons.
  destruct (decide (P (set_available ∅ q))) as [H1|H1];
    destruct (decide (P q)) as [H2|H2]; rewrite ?fmap_cons, ?IH; try done.
  - exfalso. by apply H2, HP.
  - exfalso. by apply H1, HP.
Qed.

Lemma onrow_clearcache s p : onrow (clearcache s) p = onrow s p.
Proof. unfold onrow, clearcache; simpl. by rewrite fmap_filter_clear. Qed.

Lemma oncol_clearcache s p : oncol (clearcache s) p = oncol s p.
Proof. unfold oncol, clearcache; simpl. by rewrite fmap_filter_clear. Qed.

Lemma in3x3_clearcache s p : in3x3 (clearcache s) p = in3x3 s p.
Proof. unfold in3x3, clearcache; simpl. by rewrite fmap_filter_clear. Qed.

Lemma onrow_same_cells s s' p : same_cells s s' → onrow s p = onrow s' p.
Proof. intros H. by rewrite <- (onrow_clearcache s), H, onrow_clearcache. Qed.

Lemma oncol_same_cells s s' p : same_cells s s' → oncol s p = oncol s' p.
Proof. intros H. by rewrite <- (oncol_clearcache s), H, oncol_clearcache. Qed.

Lemma in3x3_same_cells s s' p : same_cells s s' → in3x3 s p = in3x3 s' p.
Proof. intros H. by rewrite <- (in3x3_clearcache s), H, in3x3_clearcache. Qed.

Lemma used_same_cells s s' p : same_cells s s' → used s p = used s' p.
Proof.
  intros H. unfold used.
  by rewrite (onrow_same_cells _ _ _ H), (oncol_same_cells _ _ _ H),
    (in3x3_same_cells _ _ _ H).
Qed.

Lemma used_same_place s p p' :
  row p = row p' → col p = col p' → failed p = failed p' → used s p = used s p'.
Proof.
  intros Hr Hc Hf. unfold used, onrow, oncol, in3x3, bigrow, bigcol.
  by rewrite Hr, Hc, Hf.
Qed.

Lemma fresh_available_used s i :
  fresh_available s i = one_to_nine ∖ used s (point_at s i).
Proof.
  unfold fresh_available, used.
  by rewrite (comm_L (∪) (onrow s (point_at s i)) (oncol s (point_at s i))).
Qed.

Lemma fresh_available_same_cells s s' i :
  same_cells s s' → fresh_available s i = fresh_available s' i.
Proof.
  intros H. rewrite !fresh_available_used. f_equal.
  rewrite (used_same_cells _ _ _ H).
  apply used_same_place; [by apply same_cells_row|by apply same_cells_col|
    by apply same_cells_failed].
Qed.

Lemma clear_insert_available (l : list Point) i a :
  set_available ∅ <$> <[i := set_available a (l !!! i)]> l = set_available ∅ <$> l.
Proof.
  apply list_eq. intros j. rewrite !list_lookup_fmap.
  destruct (decide (i = j)) as [->|Hij].
  - destruct (decide (j < length l)%nat) as [Hj|Hj].
    + rewrite list_lookup_insert_eq by done.
      rewrite (list_lookup_lookup_total_lt l j) by done. done.
    + by rewrite list_insert_ge by lia.
  - by rewrite list_lookup_insert_ne.
Qed.

Lemma available_miss s i :
  value (point_at s i) = 0 → _available (point_at s i) = ∅ →
  available s i =
    (set_points (<[i := set_available (one_to_nine ∖ used s (point_at s i)) (point_at s i)]>
                   (points s)) s,
     one_to_nine ∖ used s (point_at s i)).
Proof. intros Hv Hc. unfold available. by rewrite decide_True. Qed.

Lemma available_hit s i :
  ¬ (value (point_at s i) = 0 ∧ _available (point_at s i) = ∅) →
  available s i = (s, _available (point_at s i)).
Proof. intros H. unfold available. by rewrite decide_False. Qed.

Lemma available_same_cells s i : same_cells s (available s i).1.
Proof.
  unfold available. case_decide; simpl; [|done].
  unfold same_cells, clearcache, set_points; simpl. f_equal.
  symmetry. apply clear_insert_available.
Qed.

Lemma available_length s i : length (points (available s i).1) = length (points s).
Proof. symmetry. apply same_cells_length, available_same_cells. Qed.

(** What [available] returns does not depend on the calls of [available]
    made before it. *)
Lemma avail_val_available s j i : avail_val (available s j).1 i = avail_val s i.
Proof.
  pose proof (available_same_cells s j) as Hsc.
  destruct (decide (value (point_at s j) = 0 ∧ _available (point_at s j) = ∅))
    as [[Hv Hc]|Hn]; [|by rewrite available_hit].
  rewrite available_miss in * by done. simpl in *.
  set (a := one_to_nine ∖ used s (point_at s j)) in *.
  set (s1 := set_points _ s) in *.
  destruct (decide (j < length (points s))%nat) as [Hlt|Hge].
  - destruct (decide (j = i)) as [<-|Hne].
    + assert (Hp : point_at s1 j = set_available a (point_at s j))
        by (apply point_at_insert_eq; done).
      unfold avail_val. rewrite (available_miss s j) by done. simpl.
      destruct (decide (a = ∅)) as [Ha|Ha].
      * rewrite available_miss by (rewrite Hp; done). simpl.
        by rewrite <- (used_same_cells _ _ _ Hsc), Hp.
      * rewrite available_hit by (rewrite Hp; simpl; tauto).
        by rewrite Hp.
    + assert (Hp : point_at s1 i = point_at s i)
        by (apply point_at_insert_ne; done).
      unfold avail_val, available. rewrite Hp.
      case_decide; simpl; [|done].
      by rewrite <- (used_same_cells _ _ _ Hsc).
  - assert (s1 = s) as ->; [|done].
    unfold s1, set_points. rewrite list_insert_ge by lia. by destruct s.
Qed.

Lemma same_view_refl s : same_view s s.
Proof. by split. Qed.

Lemma same_view_sym s s' : same_view s s' → same_view s' s.
Proof. intros [H1 H2]. split; [by apply same_cells_sym|]. intros i. by rewrite H2. Qed.

Lemma same_view_trans s1 s2 s3 : same_view s1 s2 → same_view s2 s3 → same_view s1 s3.
Proof.
  intros [H1 H2] [H3 H4]. split; [by eapply same_cells_trans|].
  intros i. by rewrite H2.
Qed.

Lemma available_same_view s i : same_view s (available s i).1.
Proof.
  split; [apply available_same_cells|].
  intros j. by rewrite avail_val_available.
Qed.

(** ** The methods that only read the board *)

Lemma filter_iff_in {A} (P1 P2 : A → Prop)
    `{!∀ x, Decision (P1 x), !∀ x, Decision (P2 x)} (l : list A) :
  (∀ x, x ∈ l → P1 x ↔ P2 x) → filter P1 l = filter P2 l.
Proof.
  induction l as [|a l IH]; intros Hiff; [done|].
  rewrite !filter_cons.
  rewrite IH by (intros x Hx; apply Hiff; by right).
  assert (P1 a ↔ P2 a) as Ha by (apply Hiff; by left).
  destruct (decide (P1 a)), (decide (P2 a)); tauto.
Qed.

Lemma unset_points_same_cells s s' :
  same_cells s s' → unset_points s = unset_points s'.
Proof.
  intros H. unfold unset_points. rewrite (same_cells_length _ _ H).
  apply list_filter_iff. intros j. by rewrite (same_cells_value _ _ j H).
Qed.

Lemma avail_val_fmap_same_view s s' (l : list nat) :
  same_view s s' → avail_val s <$> l = avail_val s' <$> l.
Proof. intros [_ H]. apply list_fmap_ext. intros _ j _. apply H. Qed.

Lemma todo_val_same_view s s' : same_view s s' → todo_val s = todo_val s'.
Proof.
  intros [H1 H2]. unfold todo_val. rewrite (unset_points_same_cells _ _ H1).
  do 2 f_equal. apply list_fmap_ext. intros _ j _. by rewrite H2.
Qed.

Lemma row_mates_same_cells s s' i : same_cells s s' → row_mates s i = row_mates s' i.
Proof.
  intros H. unfold row_mates. rewrite (same_cells_length _ _ H).
  apply list_filter_iff. intros j.
  by rewrite (same_cells_value _ _ j H), (same_cells_row _ _ j H),
    (same_cells_row _ _ i H).
Qed.

Lemma col_mates_same_cells s s' i : same_cells s s' → col_mates s i = col_mates s' i.
Proof.
  intros H. unfold col_mates. rewrite (same_cells_length _ _ H).
  apply list_filter_iff. intros j.
  by rewrite (same_cells_value _ _ j H), (same_cells_row _ _ j H),
    (same_cells_row _ _ i H), (same_cells_col _ _ j H), (same_cells_col _ _ i H).
Qed.

Lemma deduce_val_same_view s s' i : same_view s s' → deduce_val s i = deduce_val s' i.
Proof.
  intros H. unfold deduce_val.
  rewrite (row_mates_same_cells _ _ i (proj1 H)), (col_mates_same_cells _ _ i (proj1 H)).
  by rewrite !(avail_val_fmap_same_view _ _ _ H), (proj2 H i).
Qed.

Lemma deduced_val_same_view s s' : same_view s s' → deduced_val s = deduced_val s'.
Proof.
  intros H. unfold deduced_val. rewrite (same_cells_length _ _ (proj1 H)).
  apply list_filter_iff. intros j.
  by rewrite (same_cells_value _ _ j (proj1 H)), (proj2 H j), (deduce_val_same_view _ _ j H).
Qed.

Lemma distinct_places_same_cells s s' :
  same_cells s s' → distinct_places s → distinct_places s'.
Proof.
  intros H Hd i j. rewrite <- (same_cells_length _ _ H).
  rewrite <- !(same_cells_row _ _ _ H), <- !(same_cells_col _ _ _ H). apply Hd.
Qed.

Lemma todo_keys_spec l s :
  same_view s (todo_keys s l).1
  ∧ (todo_keys s l).2 = (λ j, (size (avail_val s j), j)) <$> l.
Proof.
  revert s. induction l as [|j l IH]; intros s; simpl.
  - split; [apply same_view_refl|done].
  - pose proof (available_same_view s j) as Hv.
    assert ((available s j).2 = avail_val s j) as Ha by done.
    destruct (available s j) as [s1 a]; simpl in *. subst a.
    specialize (IH s1). destruct (todo_keys s1 l) as [s2 ks]; simpl in *.
    destruct IH as [IH1 IH2]. split; [by eapply same_view_trans|].
    rewrite IH2. f_equal. apply list_fmap_ext. intros _ k _.
    by rewrite (proj2 Hv k).
Qed.

(** [todo] changes caches only, and returns the list [todo_val]. *)
Lemma todo_spec s : same_view s (todo s).1 ∧ (todo s).2 = todo_val s.
Proof.
  unfold todo, todo_val. pose proof (todo_keys_spec (unset_points s) s) as [H1 H2].
  destruct (todo_keys s (unset_points s)) as [s1 ks]; simpl in *.
  split; [done|]. by rewrite H2.
Qed.

Lemma point_at_ne_iff s i j :
  distinct_places s → (i < length (points s))%nat → (j < length (points s))%nat →
  point_at s i ≠ point_at s j ↔ j ≠ i.
Proof.
  intros Hd Hi Hj. split.
  - intros H ->. done.
  - intros H Heq. apply H. symmetry. apply Hd; try done; by rewrite Heq.
Qed.

Lemma deduce_loop_spec i l s deducerow deducecol :
  distinct_places s → (i < length (points s))%nat →
  (∀ j, j ∈ l → (j < length (points s))%nat) →
  let P1 := λ j, j ≠ i ∧ value (point_at s j) = 0
                 ∧ row (point_at s i) = row (point_at s j) in
  let P2 := λ j, j ≠ i ∧ value (point_at s j) = 0
                 ∧ row (point_at s i) ≠ row (point_at s j)
                 ∧ col (point_at s i) = col (point_at s j) in
  same_view s (deduce_loop i s l deducerow deducecol).1.1
  ∧ (deduce_loop i s l deducerow deducecol).1.2
    = deducerow ∪ ⋃ (avail_val s <$> filter P1 l)
  ∧ (deduce_loop i s l deducerow deducecol).2
    = deducecol ∪ ⋃ (avail_val s <$> filter P2 l).
Proof.
  revert s deducerow deducecol.
  induction l as [|j l IH]; intros s dr dc Hd Hi Hl P1 P2.
  - simpl. rewrite !(right_id_L ∅ (∪)).
    split; [apply same_view_refl|done].
  - assert (Hj : (j < length (points s))%nat) by (apply Hl; by left).
    assert (Hl' : ∀ k, k ∈ l → (k < length (points s))%nat)
      by (intros k Hk; apply Hl; by right).
    assert (Hstep : ∀ s1 dr1 dc1, same_view s s1 →
      dr1 = dr ∪ ⋃ (avail_val s <$> filter P1 [j]) →
      dc1 = dc ∪ ⋃ (avail_val s <$> filter P2 [j]) →
      same_view s (deduce_loop i s1 l dr1 dc1).1.1
      ∧ (deduce_loop i s1 l dr1 dc1).1.2 = dr ∪ ⋃ (avail_val s <$> filter P1 (j :: l))
      ∧ (deduce_loop i s1 l dr1 dc1).2 = dc ∪ ⋃ (avail_val s <$> filter P2 (j :: l))).
    { intros s1 dr1 dc1 Hv -> ->.
      pose proof (same_cells_length _ _ (proj1 Hv)) as Hlen.
      destruct (IH s1 (dr ∪ ⋃ (avail_val s <$> filter P1 [j]))
                  (dc ∪ ⋃ (avail_val s <$> filter P2 [j]))) as (IH1 & IH2 & IH3).
      { by eapply distinct_places_same_cells; [apply Hv|]. }
      { by rewrite <- Hlen. }
      { intros k Hk. rewrite <- Hlen. by apply Hl'. }
      split; [by eapply same_view_trans|].
      rewrite IH2, IH3.
      change (j :: l) with ([j] ++ l). rewrite !filter_app, !fmap_app, !union_list_app_L.
      rewrite <- !(assoc_L (∪)).
      rewrite <- !(avail_val_fmap_same_view _ _ _ Hv).
      assert (HP1 : ∀ k, (k ≠ i ∧ value (point_at s1 k) = 0
                ∧ row (point_at s1 i) = row (point_at s1 k)) ↔ P1 k).
      { intros k. unfold P1.
        by rewrite !(same_cells_value _ _ _ (proj1 Hv)), !(same_cells_row _ _ _ (proj1 Hv)). }
      assert (HP2 : ∀ k, (k ≠ i ∧ value (point_at s1 k) = 0
                ∧ row (point_at s1 i) ≠ row (point_at s1 k)
                ∧ col (point_at s1 i) = col (point_at s1 k)) ↔ P2 k).
      { intros k. unfold P2.
        by rewrite !(same_cells_value _ _ _ (proj1 Hv)), !(same_cells_row _ _ _ (proj1 Hv)),
          !(same_cells_col _ _ _ (proj1 Hv)). }
      by rewrite (list_filter_iff _ _ l HP1), (list_filter_iff _ _ l HP2). }
    simpl deduce_loop.
    destruct (decide (point_at s i ≠ point_at s j ∧ value (point_at s j) = 0)) as [[Hne Hv]|Hn].
    + apply point_at_ne_iff in Hne; try done.
      destruct (decide (row (point_at s i) = row (point_at s j))) as [Hr|Hr].
      * pose proof (available_same_view s j) as Hsv. unfold avail_val.
        fold (avail_val s j).
        assert ((available s j).2 = avail_val s j) as Ha by done.
        destruct (available s j) as [s1 a]; simpl in *. subst a.
        apply Hstep; [done| |].
        -- rewrite filter_cons_True by done. simpl. by rewrite (right_id_L ∅ (∪)).
        -- rewrite filter_cons_False by (unfold P2; tauto). simpl.
           by rewrite (right_id_L ∅ (∪)).
      * destruct (decide (col (point_at s i) = col (point_at s j))) as [Hc|Hc].
        -- pose proof (available_same_view s j) as Hsv.
           assert ((available s j).2 = avail_val s j) as Ha by done.
           destruct (available s j) as [s1 a]; simpl in *. subst a.
           apply Hstep; [done| |].
           ++ rewrite filter_cons_False by (unfold P1; tauto). simpl.
              by rewrite (right_id_L ∅ (∪)).
           ++ rewrite filter_cons_True by done. simpl. by rewrite (right_id_L ∅ (∪)).
        -- apply Hstep; [apply same_view_refl| |].
           ++ rewrite filter_cons_False by (unfold P1; tauto). simpl.
              by rewrite (right_id_L ∅ (∪)).
           ++ rewrite filter_cons_False by (unfold P2; tauto). simpl.
              by rewrite (right_id_L ∅ (∪)).
    + assert (¬ (j ≠ i ∧ value (point_at s j) = 0)) as Hn'.
      { intros [H1 H2]. apply Hn. split; [|done]. by apply point_at_ne_iff. }
      apply Hstep; [apply same_view_refl| |].
      * rewrite filter_cons_False by (unfold P1; tauto). simpl.
        by rewrite (right_id_L ∅ (∪)).
      * rewrite filter_cons_False by (unfold P2; tauto). simpl.
        by rewrite (right_id_L ∅ (∪)).
Qed.

Lemma available_fst_snd s i :
  ∃ s1, available s i = (s1, avail_val s i) ∧ same_view s s1.
Proof.
  exists (available s i).1. split; [|apply available_same_view].
  unfold avail_val. by destruct (available s i).
Qed.

(** [deduce] changes caches only, and returns the set [deduce_val]. *)
Lemma deduce_spec s i :
  distinct_places s → (i < length (points s))%nat →
  same_view s (deduce s i).1 ∧ (deduce s i).2 = deduce_val s i.
Proof.
  intros Hd Hi. unfold deduce, deduce_val, deduce_answer.
  destruct (deduce_loop_spec i (seq 0 (length (points s))) s ∅ ∅ Hd Hi)
    as (H1 & H2 & H3).
  { intros j Hj. apply elem_of_seq in Hj. lia. }
  fold (row_mates s i) in H2. fold (col_mates s i) in H3.
  destruct (deduce_loop i s (seq 0 (length (points s))) ∅ ∅) as [[s1 dr] dc].
  simpl in H1, H2, H3. rewrite (left_id_L ∅ (∪)) in H2, H3. subst dr dc.
  destruct (available_fst_snd s1 i) as (s2 & -> & Hv2).
  rewrite <- (proj2 H1 i).
  case_decide; simpl.
  - split; [by eapply same_view_trans|done].
  - destruct (available_fst_snd s2 i) as (s3 & -> & Hv3).
    rewrite <- (proj2 Hv2 i), <- (proj2 H1 i).
    assert (same_view s s3) by (eapply same_view_trans; [|done]; by eapply same_view_trans).
    case_decide; simpl; by split.
Qed.

Lemma deduced_loop_spec l s :
  distinct_places s → (∀ j, j ∈ l → (j < length (points s))%nat) →
  same_view s (deduced_loop s l).1
  ∧ (deduced_loop s l).2
    = filter (λ j, value (point_at s j) = 0 ∧ (1 < size (avail_val s j))%nat
                   ∧ deduce_val s j ≠ ∅) l.
Proof.
  revert s. induction l as [|j l IH]; intros s Hd Hl.
  - split; [apply same_view_refl|done].
  - assert (Hj : (j < length (points s))%nat) by (apply Hl; by left).
    assert (Hstep : ∀ s1, same_view s s1 →
      same_view s (deduced_loop s1 l).1
      ∧ (deduced_loop s1 l).2
        = filter (λ j, value (point_at s j) = 0 ∧ (1 < size (avail_val s j))%nat
                       ∧ deduce_val s j ≠ ∅) l).
    { intros s1 Hv.
      destruct (IH s1) as [IH1 IH2].
      { by eapply distinct_places_same_cells; [apply Hv|]. }
      { intros k Hk. rewrite <- (same_cells_length _ _ (proj1 Hv)). apply Hl. by right. }
      split; [by eapply same_view_trans|].
      rewrite IH2. apply list_filter_iff. intros k.
      by rewrite <- (same_cells_value _ _ k (proj1 Hv)), <- (proj2 Hv k),
        <- (deduce_val_same_view _ _ k Hv). }
    simpl deduced_loop. rewrite filter_cons.
    destruct (decide (value (point_at s j) = 0)) as [Hv|Hv].
    + destruct (available_fst_snd s j) as (s1 & -> & Hv1).
      destruct (decide (1 < size (avail_val s j))%nat) as [Hsz|Hsz].
      * destruct (deduce_spec s1 j) as [Hd1 Hd2].
        { by eapply distinct_places_same_cells; [apply Hv1|]. }
        { by rewrite <- (same_cells_length _ _ (proj1 Hv1)). }
        rewrite <- (deduce_val_same_view _ _ j Hv1) in Hd2.
        destruct (deduce s1 j) as [s2 d]; simpl in Hd1, Hd2. subst d.
        destruct (Hstep s2) as [Hs1 Hs2]; [by eapply same_view_trans|].
        destruct (deduced_loop s2 l) as [s3 ans]; simpl in *. subst ans.
        destruct (decide (deduce_val s j ≠ ∅)) as [Hne|Hne].
        -- by rewrite decide_True.
        -- rewrite decide_False by tauto. done.
      * rewrite decide_False by tauto. by apply Hstep.
    + rewrite decide_False by tauto. apply Hstep, same_view_refl.
Qed.

(** [deduced] changes caches only, and returns the list [deduced_val]. *)
Lemma deduced_spec s :
  distinct_places s → same_view s (deduced s).1 ∧ (deduced s).2 = deduced_val s.
Proof.
  intros Hd. apply deduced_loop_spec; [done|].
  intros j Hj. apply elem_of_seq in Hj. lia.
Qed.

Lemma shape_distinct_places s : shape s → distinct_places s.
Proof.
  intros [Hlen Hs] i j Hi Hj Hr Hc. rewrite Hlen in Hi, Hj.
  destruct (Hs i Hi) as [Hri Hci]. destruct (Hs j Hj) as [Hrj Hcj].
  rewrite Hri, Hrj in Hr. rewrite Hci, Hcj in Hc.
  pose proof (Z.div_mod (Z.of_nat i) 9). pose proof (Z.div_mod (Z.of_nat j) 9). lia.
Qed.

Lemma shape_same_cells s s' : same_cells s s' → shape s → shape s'.
Proof.
  intros H [Hlen Hs]. split; [by rewrite <- (same_cells_length _ _ H)|].
  intros i Hi. rewrite <- (same_cells_row _ _ i H), <- (same_cells_col _ _ i H). by apply Hs.
Qed.

(** ** Construction *)

Lemma char_value_digit_of c : char_value c = default 0 (digit_of c).
Proof. by destruct c as [[] [] [] [] [] [] [] []]. Qed.

Lemma get_spaces n k :
  (k < n)%nat → String.get k (string_of_list_ascii (repeat " "%char n)) = Some " "%char.
Proof.
  revert k. induction n as [|n IH]; intros k Hk; [lia|].
  destruct k as [|k]; simpl; [done|]. apply IH. lia.
Qed.

Lemma get_append_l (a b : string) k :
  (k < String.length a)%nat → String.get k (a ++ b)%string = String.get k a.
Proof.
  revert k. induction a as [|c a IH]; intros k Hk; simpl in *; [lia|].
  destruct k as [|k]; [done|]. apply IH. lia.
Qed.

Lemma get_append_r (a b : string) k :
  (String.length a ≤ k)%nat →
  String.get k (a ++ b)%string = String.get (k - String.length a) b.
Proof.
  revert k. induction a as [|c a IH]; intros k Hk; simpl in *.
  - by rewrite Nat.sub_0_r.
  - destruct k as [|k]; [lia|]. apply IH. lia.
Qed.

Lemma get_None (a : string) k : (String.length a ≤ k)%nat → String.get k a = None.
Proof.
  revert k. induction a as [|c a IH]; intros k Hk; simpl in *; [done|].
  destruct k as [|k]; [lia|]. apply IH. lia.
Qed.

Lemma length_append (a b : string) :
  String.length (a ++ b)%string = (String.length a + String.length b)%nat.
Proof. induction a as [|c a IH]; simpl; [done|]. by rewrite IH. Qed.

Lemma length_spaces n : String.length (string_of_list_ascii (repeat " "%char n)) = n.
Proof. induction n as [|n IH]; simpl; [done|]. by rewrite IH. Qed.

Lemma pad81_length sp : (81 ≤ String.length (pad81 sp))%nat.
Proof. unfold pad81. rewrite length_append, length_spaces. lia. Qed.

(** The character that the position [k] reads. *)
Lemma pad81_get sp k :
  (k < 81)%nat →
  String.get k (pad81 sp) = Some (default " "%char (String.get k sp)).
Proof.
  intros Hk. unfold pad81.
  destruct (decide (k < String.length sp)%nat) as [Hlt|Hge].
  - rewrite get_append_l by done.
    destruct (String.get k sp) eqn:E; [done|].
    exfalso. revert k Hk Hlt E. induction sp as [|c a IH]; intros k Hk Hlt E; simpl in *; [lia|].
    destruct k as [|k]; [done|]. apply (IH k); [lia|lia|done].
  - rewrite get_append_r by lia. rewrite get_spaces by lia.
    by rewrite get_None by lia.
Qed.

Lemma str_index_pad81 sp k :
  (k < 81)%nat →
  str_index (pad81 sp) (Z.of_nat k) = Some (default " "%char (String.get k sp)).
Proof.
  intros Hk. unfold str_index. pose proof (pad81_length sp).
  rewrite decide_True by lia. rewrite Nat2Z.id. by apply pad81_get.
Qed.

Lemma mapM_fmap_ext {A B} (f : A → option B) (g : A → B) (l : list A) :
  (∀ x, x ∈ l → f x = Some (g x)) → mapM f l = Some (g <$> l).
Proof.
  intros H. apply mapM_Some_2.
  induction l as [|x l IH]; [constructor|].
  rewrite fmap_cons. constructor; [apply H; by left|].
  apply IH. intros y Hy. apply H. by right.
Qed.

(** The board that the constructor builds. *)
Lemma Sudoku_init_points sp nm :
  Sudoku_init sp nm =
    Some (mkSudoku sp nm
            ((λ k : nat, mkPoint (Z.of_nat k / 9) (Z.of_nat k mod 9)
                           (given_value sp k) ∅ ∅ " ") <$> seq 0 81)).
Proof.
  unfold Sudoku_init, __post_init__, set_points. cbn [startpos name].
  destruct (decide (sp ≠ ""%string)) as [Hne|He].
  - unfold apply_startpos, blank_points.
    rewrite (mapM_fmap_ext _ (λ p, set_value
      (char_value (default " "%char (String.get (Z.to_nat (col p + 9 * row p)) sp))) p)).
    + rewrite <- list_fmap_compose. cbv [mbind option_bind]. do 2 f_equal.
      apply list_fmap_ext. intros i k [-> Hi]%lookup_seq. simpl.
      set (k := i).
      assert (Z.of_nat k `quot` 9 = Z.of_nat k / 9) as Hq
        by (apply Z.quot_div_nonneg; lia).
      rewrite Hq. unfold set_value; simpl. f_equal.
      replace (Z.to_nat (Z.of_nat k `mod` 9 + 9 * (Z.of_nat k / 9))) with k
        by (pose proof (Z.div_mod (Z.of_nat k) 9); lia).
      unfold given_value. rewrite decide_False by done.
      rewrite char_value_digit_of. by destruct (String.get k sp).
    + intros p Hp. apply list_elem_of_fmap in Hp as (k & -> & Hk%elem_of_seq). simpl.
      assert (Z.of_nat k `quot` 9 = Z.of_nat k / 9) as Hq
        by (apply Z.quot_div_nonneg; lia).
      rewrite Hq.
      replace (Z.of_nat k `mod` 9 + 9 * (Z.of_nat k / 9)) with (Z.of_nat k)
        by (pose proof (Z.div_mod (Z.of_nat k) 9); lia).
      rewrite str_index_pad81 by lia. simpl. by rewrite Nat2Z.id.
  - assert (sp = ""%string) as -> by (by destruct (decide (sp = ""%string)); [|done]).
    vm_compute. done.
Qed.

(** ** The methods that change the board *)

Lemma point_at_setpoint s i v src j :
  point_at (setpoint s i v src) j =
    if decide (i = j ∧ (i < length (points s))%nat)
    then mkPoint (row (point_at s i)) (col (point_at s i)) v (failed (point_at s i)) ∅ src
    else set_available ∅ (point_at s j).
Proof.
  unfold setpoint. rewrite point_at_clearcache.
  case_decide as H.
  - destruct H as [<- Hi]. by rewrite point_at_insert_eq.
  - destruct (decide (i = j)) as [<-|Hne].
    + unfold point_at at 1; simpl. rewrite list_insert_ge by lia. done.
    + by rewrite point_at_insert_ne.
Qed.

Lemma point_at_failed st s i v j :
  point_at (Sudoku_failed st s i v).2 j =
    if decide (i = j ∧ (i < length (points s))%nat)
    then mkPoint (row (point_at s i)) (col (point_at s i)) (value (point_at s i))
           ({[v]} ∪ failed (point_at s i)) ∅ (source (point_at s i))
    else set_available ∅ (point_at s j).
Proof.
  unfold Sudoku_failed; simpl. rewrite point_at_clearcache.
  case_decide as H.
  - destruct H as [<- Hi]. by rewrite point_at_insert_eq.
  - destruct (decide (i = j)) as [<-|Hne].
    + unfold point_at at 1; simpl. rewrite list_insert_ge by lia. done.
    + by rewrite point_at_insert_ne.
Qed.

Lemma setpoint_length s i v src : length (points (setpoint s i v src)) = length (points s).
Proof. unfold setpoint, clearcache; simpl. by rewrite length_fmap, length_insert. Qed.

Lemma failed_length st s i v :
  length (points (Sudoku_failed st s i v).2) = length (points s).
Proof. unfold Sudoku_failed, clearcache; simpl. by rewrite length_fmap, length_insert. Qed.

(** Every mutation empties every cache. *)
Lemma setpoint_cache s i v src j : _available (point_at (setpoint s i v src) j) = ∅.
Proof. rewrite point_at_setpoint. by case_decide. Qed.

Lemma failed_cache st s i v j : _available (point_at (Sudoku_failed st s i v).2 j) = ∅.
Proof. rewrite point_at_failed. by case_decide. Qed.

Lemma setpoint_same_cells s s' i v src :
  same_cells s s' → setpoint s i v src = setpoint s' i v src.
Proof.
  intros H. unfold setpoint, clearcache, set_points; simpl.
  pose proof H as Hpts. unfold same_cells, clearcache, set_points in Hpts.
  injection Hpts as Hsp Hnm Hpts. f_equal; try done.
  rewrite !list_fmap_insert, Hpts. f_equal.
  pose proof (same_cells_point _ _ i H) as Hp.
  unfold set_available, set_source, set_value in *; simpl in *. congruence.
Qed.

Lemma failed_same_cells st s s' i v :
  same_cells s s' → Sudoku_failed st s i v = Sudoku_failed st s' i v.
Proof.
  intros H. unfold Sudoku_failed, clearcache, set_points; simpl.
  pose proof H as Hpts. unfold same_cells, clearcache, set_points in Hpts.
  injection Hpts as Hsp Hnm Hpts. do 2 f_equal; try done.
  rewrite !list_fmap_insert, Hpts. f_equal.
  pose proof (same_cells_point _ _ i H) as Hp.
  unfold set_available, set_failed in *; simpl in *. congruence.
Qed.

Lemma coherent_empty_caches s : (∀ i, _available (point_at s i) = ∅) → coherent s.
Proof. intros H i. left. apply H. Qed.

(** On a coherent board [available] returns the value computed from
    scratch for an unset point, and the empty set for a set point. *)
Lemma coherent_avail_val s i :
  coherent s →
  avail_val s i = if decide (value (point_at s i) = 0) then fresh_available s i else ∅.
Proof.
  intros Hc. unfold avail_val. rewrite fresh_available_used.
  destruct (Hc i) as [He|[Hv He]].
  - destruct (decide (value (point_at s i) = 0)) as [Hv|Hv].
    + by rewrite available_miss.
    + rewrite available_hit by tauto. done.
  - rewrite decide_True by done.
    destruct (decide (_available (point_at s i) = ∅)) as [He'|He'].
    + by rewrite available_miss.
    + rewrite available_hit by tauto. simpl. by rewrite He, fresh_available_used.
Qed.

Lemma coherent_same_view s s' : same_view s s' → coherent s → coherent s'.
Proof.
  intros Hv Hc i.
  destruct (decide (_available (point_at s' i) = ∅)) as [He|Hne]; [by left|right].
  pose proof (coherent_avail_val s i Hc) as Ha.
  rewrite (proj2 Hv i) in Ha. unfold avail_val in Ha.
  rewrite available_hit in Ha by tauto. simpl in Ha.
  rewrite (same_cells_value _ _ i (proj1 Hv)) in Ha.
  rewrite (fresh_available_same_cells _ _ i (proj1 Hv)) in Ha.
  case_decide; [done|]. by rewrite Ha in Hne.
Qed.

Lemma Sudoku_init_point sp nm s k :
  Sudoku_init sp nm = Some s → (k < 81)%nat →
  point_at s k = mkPoint (Z.of_nat k / 9) (Z.of_nat k mod 9) (given_value sp k) ∅ ∅ " ".
Proof.
  rewrite Sudoku_init_points. intros H%(inj Some) Hk. rewrite <- H.
  unfold point_at; cbn [points].
  rewrite list_lookup_total_alt, list_lookup_fmap, lookup_seq_lt by done. done.
Qed.

Lemma Sudoku_init_length sp nm s :
  Sudoku_init sp nm = Some s → length (points s) = 81%nat.
Proof.
  rewrite Sudoku_init_points. intros H%(inj Some). rewrite <- H. cbn [points].
  by rewrite length_fmap, length_seq.
Qed.

Lemma given_value_range sp k : 0 <= given_value sp k <= 9.
Proof.
  unfold given_value. repeat case_decide; try lia.
  destruct (String.get k sp) as [c|]; [|simpl; lia].
  by destruct c as [[] [] [] [] [] [] [] []]; simpl; lia.
Qed.

Lemma Sudoku_init_ok sp nm s : Sudoku_init sp nm = Some s → board_ok s.
Proof.
  intros H. pose proof (Sudoku_init_length _ _ _ H) as Hlen.
  assert (Hpt : ∀ i, _available (point_at s i) = ∅ ∧ failed (point_at s i) = ∅
                     ∧ 0 <= value (point_at s i) <= 9).
  { intros i. destruct (decide (i < 81)%nat) as [Hi|Hi].
    - rewrite (Sudoku_init_point _ _ _ _ H Hi); simpl.
      split; [done|]. split; [done|]. apply given_value_range.
    - rewrite point_at_out_of_range by lia. simpl. split; [done|]. split; [done|]. lia. }
  split; [|split; [|split]].
  - split; [done|]. intros i Hi. by rewrite (Sudoku_init_point _ _ _ _ H Hi).
  - apply coherent_empty_caches. intros i. apply Hpt.
  - intros i. apply Hpt.
  - intros i. destruct (Hpt i) as (_ & -> & _). apply empty_subseteq.
Qed.

Lemma shape_setpoint s i v src : shape s → shape (setpoint s i v src).
Proof.
  intros [Hlen Hs]. split; [by rewrite setpoint_length|].
  intros j Hj. rewrite point_at_setpoint. case_decide as Hd; simpl.
  - destruct Hd as [-> _]. by apply Hs.
  - by apply Hs.
Qed.

Lemma shape_failed st s i v : shape s → shape (Sudoku_failed st s i v).2.
Proof.
  intros [Hlen Hs]. split; [by rewrite failed_length|].
  intros j Hj. rewrite point_at_failed. case_decide as Hd; simpl.
  - destruct Hd as [-> _]. by apply Hs.
  - by apply Hs.
Qed.

Lemma coherent_setpoint s i v src : coherent (setpoint s i v src).
Proof. apply coherent_empty_caches. intros j. apply setpoint_cache. Qed.

Lemma coherent_failed st s i v : coherent (Sudoku_failed st s i v).2.
Proof. apply coherent_empty_caches. intros j. apply failed_cache. Qed.

(** The boards of the program have 81 points in row-major order and
    coherent caches. *)
Lemma reachable_inv s : reachable s → shape s ∧ coherent s.
Proof.
  induction 1 as [sp nm s H|s i v src _ [IH1 IH2]|st s i v _ [IH1 IH2]
    |s i _ [IH1 IH2]|s _ [IH1 IH2]|s i _ [IH1 IH2] Hi|s _ [IH1 IH2]|s _ IH].
  - destruct (Sudoku_init_ok _ _ _ H) as (? & ? & _). done.
  - split; [by apply shape_setpoint|apply coherent_setpoint].
  - split; [by apply shape_failed|apply coherent_failed].
  - pose proof (available_same_view s i) as Hv.
    split; [by eapply shape_same_cells; [apply Hv|]|by eapply coherent_same_view].
  - destruct (todo_spec s) as [Hv _].
    split; [by eapply shape_same_cells; [apply Hv|]|by eapply coherent_same_view].
  - destruct (deduce_spec s i) as [Hv _]; [by apply shape_distinct_places| |].
    { done. }
    split; [by eapply shape_same_cells; [apply Hv|]|by eapply coherent_same_view].
  - destruct (deduced_spec s) as [Hv _]; [by apply shape_distinct_places|].
    split; [by eapply shape_same_cells; [apply Hv|]|by eapply coherent_same_view].
  - done.
Qed.

(** [deduce] and [deduced] change caches only, on any board. *)
Lemma deduce_loop_same_view i l s deducerow deducecol :
  same_view s (deduce_loop i s l deducerow deducecol).1.1.
Proof.
  revert s deducerow deducecol. induction l as [|j l IH]; intros s dr dc.
  - apply same_view_refl.
  - simpl. repeat case_decide; try apply IH.
    + destruct (available_fst_snd s j) as (s1 & -> & Hv).
      eapply same_view_trans; [done|apply IH].
    + destruct (available_fst_snd s j) as (s1 & -> & Hv).
      eapply same_view_trans; [done|apply IH].
Qed.

Lemma deduce_same_view s i : same_view s (deduce s i).1.
Proof.
  unfold deduce.
  pose proof (deduce_loop_same_view i (seq 0 (length (points s))) s ∅ ∅) as H1.
  destruct (deduce_loop i s (seq 0 (length (points s))) ∅ ∅) as [[s1 dr] dc].
  simpl in H1.
  destruct (available_fst_snd s1 i) as (s2 & -> & Hv2).
  assert (same_view s s2) by by eapply same_view_trans.
  case_decide; simpl; [done|].
  destruct (available_fst_snd s2 i) as (s3 & -> & Hv3).
  assert (same_view s s3) by by eapply same_view_trans.
  case_decide; simpl; done.
Qed.

Lemma deduced_loop_same_view l s : same_view s (deduced_loop s l).1.
Proof.
  revert s. induction l as [|j l IH]; intros s.
  - apply same_view_refl.
  - simpl. case_decide; [|apply IH].
    destruct (available_fst_snd s j) as (s1 & -> & Hv).
    case_decide.
    + pose proof (deduce_same_view s1 j) as Hd.
      destruct (deduce s1 j) as [s2 d]. simpl in Hd.
      pose proof (IH s2) as IH2. destruct (deduced_loop s2 l) as [s3 ans].
      simpl in IH2.
      assert (same_view s s3)
        by (eapply same_view_trans; [|done]; by eapply same_view_trans).
      by case_decide.
    + eapply same_view_trans; [done|apply IH].
Qed.

Lemma deduced_same_view s : same_view s (deduced s).1.
Proof. apply deduced_loop_same_view. Qed.

(** ** The stable sort *)

Section Sorted.
Context {A : Type} (key : A → nat).

Lemma insert_by_perm x l : insert_by key x l ≡ₚ x :: l.
Proof.
  induction l as [|y l IH]; simpl; [done|].
  case_decide; [done|]. rewrite IH. apply Permutation_swap.
Qed.

Lemma sorted_perm l : sorted key l ≡ₚ l.
Proof.
  induction l as [|x l IH]; simpl; [done|].
  fold (sorted key l). by rewrite insert_by_perm, IH.
Qed.

Lemma insert_by_sorted x l :
  StronglySorted (λ a b, (key a ≤ key b)%nat) l →
  StronglySorted (λ a b, (key a ≤ key b)%nat) (insert_by key x l).
Proof.
  induction 1 as [|y l Hs IH Hy]; simpl.
  - constructor; [constructor|constructor].
  - case_decide as Hle.
    + constructor; [by constructor|].
      constructor; [done|]. eapply Forall_impl; [done|]. simpl. lia.
    + constructor; [done|].
      rewrite insert_by_perm. constructor; [lia|done].
Qed.

Lemma sorted_sorted l : StronglySorted (λ a b, (key a ≤ key b)%nat) (sorted key l).
Proof.
  induction l as [|x l IH]; simpl; [constructor|].
  by apply insert_by_sorted.
Qed.

Lemma insert_by_stable k x l :
  filter (λ y, key y = k) (insert_by key x l) = filter (λ y, key y = k) (x :: l).
Proof.
  induction l as [|y l IH]; simpl; [done|].
  case_decide as Hle; [done|].
  rewrite filter_cons, IH, !filter_cons.
  repeat case_decide; try done; lia.
Qed.

Lemma sorted_stable k l :
  filter (λ y, key y = k) (sorted key l) = filter (λ y, key y = k) l.
Proof.
  induction l as [|x l IH]; simpl; [done|].
  fold (sorted key l). by rewrite insert_by_stable, !filter_cons, IH.
Qed.

End Sorted.

Lemma insert_by_fmap {A B} (f : A → B) (key : B → nat) x l :
  insert_by key (f x) (f <$> l) = f <$> insert_by (key ∘ f) x l.
Proof.
  induction l as [|y l IH]; simpl; [done|].
  case_decide; [done|]. by rewrite fmap_cons, <- IH.
Qed.

Lemma sorted_fmap {A B} (f : A → B) (key : B → nat) l :
  sorted key (f <$> l) = f <$> sorted (key ∘ f) l.
Proof.
  induction l as [|x l IH]; [done|].
  unfold sorted in *. rewrite fmap_cons. cbn [foldr]. rewrite IH.
  apply insert_by_fmap.
Qed.

(** [todo] is the stable sort of the unset points on the number of their
    available values. *)
Lemma todo_val_sorted s :
  todo_val s = sorted (λ j, size (avail_val s j)) (unset_points s).
Proof.
  unfold todo_val. rewrite sorted_fmap, <- list_fmap_compose.
  apply list_fmap_id.
Qed.

(** ** The calls of the solver, seen from the board it started with *)

Lemma todo_eq_base s0 s :
  same_view s0 s → ∃ s', todo s = (s', todo_val s0) ∧ same_view s0 s'.
Proof.
  intros Hv. destruct (todo_spec s) as [H1 H2]. exists (todo s).1. split.
  - rewrite (todo_val_same_view _ _ Hv), <- H2. by destruct (todo s).
  - by eapply same_view_trans.
Qed.

Lemma available_eq_base s0 s i :
  same_view s0 s → ∃ s', available s i = (s', avail_val s0 i) ∧ same_view s0 s'.
Proof.
  intros Hv. destruct (available_fst_snd s i) as (s' & H1 & H2). exists s'.
  split; [by rewrite (proj2 Hv i)|by eapply same_view_trans].
Qed.

Lemma deduce_eq_base s0 s i :
  shape s0 → (i < 81)%nat → same_view s0 s →
  ∃ s', deduce s i = (s', deduce_val s0 i) ∧ same_view s0 s'.
Proof.
  intros Hs Hi Hv. pose proof (shape_same_cells _ _ (proj1 Hv) Hs) as Hs'.
  destruct (deduce_spec s i) as [H1 H2];
    [by apply shape_distinct_places|by rewrite (proj1 Hs')|].
  exists (deduce s i).1. split.
  - rewrite (deduce_val_same_view _ _ i Hv), <- H2. by destruct (deduce s i).
  - by eapply same_view_trans.
Qed.

Lemma deduced_eq_base s0 s :
  shape s0 → same_view s0 s →
  ∃ s', deduced s = (s', deduced_val s0) ∧ same_view s0 s'.
Proof.
  intros Hs Hv. pose proof (shape_same_cells _ _ (proj1 Hv) Hs) as Hs'.
  destruct (deduced_spec s) as [H1 H2]; [by apply shape_distinct_places|].
  exists (deduced s).1. split.
  - rewrite (deduced_val_same_view _ _ Hv), <- H2. by destruct (deduced s).
  - by eapply same_view_trans.
Qed.

(** One call of a reading method: its result is named after the board the
    reasoning started with. *)
Ltac view_step :=
  match goal with
  | Hv : same_view ?s0 ?s |- context [todo ?s] =>
    let s' := fresh "s" in
    let H := fresh "Hv" in
    destruct (todo_eq_base s0 s Hv) as (s' & -> & H); clear Hv
  | Hv : same_view ?s0 ?s |- context [available ?s ?i] =>
    let s' := fresh "s" in
    let H := fresh "Hv" in
    destruct (available_eq_base s0 s i Hv) as (s' & -> & H); clear Hv
  | Hs : shape ?s0, Hv : same_view ?s0 ?s |- context [deduced ?s] =>
    let s' := fresh "s" in
    let H := fresh "Hv" in
    destruct (deduced_eq_base s0 s Hs Hv) as (s' & -> & H); clear Hv
  | Hs : shape ?s0, Hv : same_view ?s0 ?s |- context [deduce ?s ?i] =>
    let s' := fresh "s" in
    let H := fresh "Hv" in
    destruct (deduce_eq_base s0 s i Hs ltac:(lia) Hv) as (s' & -> & H); clear Hv
  end.

Lemma result_bind_Ok {A B} (f : A → result B) (a : A) : Ok a ≫= f = f a.
Proof. done. Qed.

Lemma todo_val_perm s : todo_val s ≡ₚ unset_points s.
Proof. rewrite todo_val_sorted. apply sorted_perm. Qed.

Lemma elem_of_unset_points s i :
  i ∈ unset_points s ↔ (i < length (points s))%nat ∧ value (point_at s i) = 0.
Proof.
  unfold unset_points. rewrite list_elem_of_filter, elem_of_seq. split.
  - intros [? ?]. split; [lia|done].
  - intros [? ?]. split; [done|lia].
Qed.

Lemma elem_of_todo_val s i :
  i ∈ todo_val s ↔ (i < length (points s))%nat ∧ value (point_at s i) = 0.
Proof. by rewrite todo_val_perm, elem_of_unset_points. Qed.

Lemma todo_val_length s : length (todo_val s) = unset_count s.
Proof. unfold unset_count. by rewrite todo_val_perm. Qed.

Lemma elem_of_deduced_val s i :
  i ∈ deduced_val s →
  (i < length (points s))%nat ∧ value (point_at s i) = 0 ∧ deduce_val s i ≠ ∅.
Proof.
  unfold deduced_val. rewrite list_elem_of_filter, elem_of_seq.
  intros [(? & ? & ?) ?]. split; [lia|done].
Qed.

Lemma deduce_val_subseteq s i : deduce_val s i ⊆ avail_val s i.
Proof.
  unfold deduce_val, deduce_answer. repeat case_decide.
  - apply subseteq_difference_l. done.
  - apply subseteq_difference_l. done.
  - apply empty_subseteq.
Qed.

(** The condition of the first loop never raises, and changes caches only. *)
Lemma known_cond_spec s dd :
  shape s → ∃ s', known_cond s dd = Ok (s', known_cond_val s dd) ∧ same_view s s'.
Proof.
  intros Hs. pose proof (same_view_refl s) as Hv.
  unfold known_cond, known_cond_val. view_step.
  destruct (todo_val s) as [|i t] eqn:E.
  - rewrite decide_True by done. by eexists.
  - rewrite decide_False by done. view_step. rewrite E. cbn [first].
    rewrite result_bind_Ok. view_step.
    case_decide; [by eexists|].
    destruct dd; [|by eexists]. view_step. by eexists.
Qed.

(** ** Values, clashes and measures *)

Lemma elem_of_one_to_nine v : v ∈ one_to_nine ↔ 1 <= v <= 9.
Proof.
  unfold one_to_nine. rewrite elem_of_list_to_set, !elem_of_cons, elem_of_nil. lia.
Qed.

Lemma point_at_elem_of s i : (i < length (points s))%nat → point_at s i ∈ points s.
Proof. intros Hi. unfold point_at. by apply list_elem_of_lookup_total_2. Qed.

Lemma elem_of_onrow s p v :
  v ∈ onrow s p ↔ ∃ q, q ∈ points s ∧ value q = v ∧ v ≠ 0 ∧ row q = row p.
Proof.
  unfold onrow. rewrite elem_of_list_to_set, list_elem_of_fmap. split.
  - intros (q & -> & [[? ?] ?]%list_elem_of_filter). by exists q.
  - intros (q & ? & <- & ? & ?). exists q. split; [done|].
    by apply list_elem_of_filter.
Qed.

Lemma elem_of_oncol s p v :
  v ∈ oncol s p ↔ ∃ q, q ∈ points s ∧ value q = v ∧ v ≠ 0 ∧ col q = col p.
Proof.
  unfold oncol. rewrite elem_of_list_to_set, list_elem_of_fmap. split.
  - intros (q & -> & [[? ?] ?]%list_elem_of_filter). by exists q.
  - intros (q & ? & <- & ? & ?). exists q. split; [done|].
    by apply list_elem_of_filter.
Qed.

Lemma elem_of_in3x3 s p v :
  v ∈ in3x3 s p ↔
  ∃ q, q ∈ points s ∧ value q = v ∧ v ≠ 0 ∧ bigrow q = bigrow p ∧ bigcol q = bigcol p.
Proof.
  unfold in3x3. rewrite elem_of_list_to_set, list_elem_of_fmap. split.
  - intros (q & -> & [(? & ? & ?) ?]%list_elem_of_filter). by exists q.
  - intros (q & ? & <- & ? & ? & ?). exists q. split; [done|].
    by apply list_elem_of_filter.
Qed.

(** A value that a peer holds is not available. *)
Lemma fresh_available_peer s i j v :
  (j < length (points s))%nat → v ∈ fresh_available s i →
  value (point_at s j) = v → peers (point_at s i) (point_at s j) → False.
Proof.
  intros Hj Hf Hv Hp. unfold fresh_available in Hf.
  apply elem_of_difference in Hf as [H19 Hn]. apply Hn.
  apply elem_of_one_to_nine in H19.
  assert (v ≠ 0) by lia. pose proof (point_at_elem_of s j Hj) as Hin.
  rewrite !elem_of_union.
  destruct Hp as [Hr|[Hc|[Hbr Hbc]]].
  - left. left. left. apply elem_of_onrow. by exists (point_at s j).
  - left. left. right. apply elem_of_oncol. by exists (point_at s j).
  - left. right. apply elem_of_in3x3. by exists (point_at s j).
Qed.

Lemma fresh_available_subseteq s i : fresh_available s i ⊆ one_to_nine.
Proof. unfold fresh_available. apply subseteq_difference_l. done. Qed.

Lemma fresh_available_not_failed s i v :
  v ∈ fresh_available s i → v ∉ failed (point_at s i).
Proof.
  intros Hv Hf. unfold fresh_available in Hv.
  apply elem_of_difference in Hv as [_ Hn]. apply Hn. apply elem_of_union. by right.
Qed.

(** On a coherent board an available value belongs to an unset point and to
    the set computed from scratch. *)
Lemma coherent_avail_val_elem s i v :
  coherent s → v ∈ avail_val s i →
  value (point_at s i) = 0 ∧ v ∈ fresh_available s i.
Proof.
  intros Hc. rewrite (coherent_avail_val s i Hc). case_decide; [done|].
  by intros ?%not_elem_of_empty.
Qed.

Lemma board_ok_same_view s s' : same_view s s' → board_ok s → board_ok s'.
Proof.
  intros Hv (Hs & Hc & Hr & Hf). split; [|split; [|split]].
  - by eapply shape_same_cells; [apply Hv|].
  - by eapply coherent_same_view.
  - intros i. rewrite <- (same_cells_value _ _ i (proj1 Hv)). apply Hr.
  - intros i. rewrite <- (same_cells_failed _ _ i (proj1 Hv)). apply Hf.
Qed.

Lemma board_ok_setpoint s i v src :
  board_ok s → 0 <= v <= 9 → board_ok (setpoint s i v src).
Proof.
  intros (Hs & Hc & Hr & Hf) Hv. split; [|split; [|split]].
  - by apply shape_setpoint.
  - apply coherent_setpoint.
  - intros j. rewrite point_at_setpoint. case_decide; simpl; [done|apply Hr].
  - intros j. rewrite point_at_setpoint. case_decide; simpl; apply Hf.
Qed.

Lemma board_ok_failed st s i v :
  board_ok s → v ∈ one_to_nine → board_ok (Sudoku_failed st s i v).2.
Proof.
  intros (Hs & Hc & Hr & Hf) Hv. split; [|split; [|split]].
  - by apply shape_failed.
  - apply coherent_failed.
  - intros j. rewrite point_at_failed. case_decide; simpl; apply Hr.
  - intros j. rewrite point_at_failed. case_decide; simpl; [|apply Hf].
    apply union_subseteq. split; [by apply singleton_subseteq_l|apply Hf].
Qed.

Lemma no_clash_same_cells s s' : same_cells s s' → no_clash s → no_clash s'.
Proof.
  intros H Hn i j. rewrite <- (same_cells_length _ _ H).
  rewrite <- !(same_cells_value _ _ _ H).
  intros Hi Hj Hne Hv Hvv Hp. apply (Hn i j Hi Hj Hne Hv Hvv).
  unfold peers, bigrow, bigcol in *.
  by rewrite !(same_cells_row _ _ _ H), !(same_cells_col _ _ _ H).
Qed.

Lemma peers_sym p q : peers p q → peers q p.
Proof. unfold peers. intros [?|[?|[? ?]]]; auto. Qed.

Lemma no_clash_setpoint s i v src :
  no_clash s → v ∈ fresh_available s i → no_clash (setpoint s i v src).
Proof.
  intros Hn Hv a b. rewrite setpoint_length. intros Ha Hb Hne.
  assert (Hpeers : peers (point_at (setpoint s i v src) a)
                     (point_at (setpoint s i v src) b)
                   → peers (point_at s a) (point_at s b)).
  { rewrite !point_at_setpoint. unfold peers, bigrow, bigcol.
    repeat case_decide; simpl; try done.
    - destruct H as [-> _]. destruct H0 as [-> _]. done.
    - destruct H as [-> _]. done.
    - destruct H0 as [-> _]. done. }
  intros Hnz Heq Hp. apply Hpeers in Hp. revert Hnz Heq.
  rewrite !point_at_setpoint.
  destruct (decide (i = a ∧ (i < length (points s))%nat)) as [[Hia _]|Hia];
    destruct (decide (i = b ∧ (i < length (points s))%nat)) as [[Hib _]|Hib]; simpl.
  - congruence.
  - subst i. intros _ Heq. by apply (fresh_available_peer s a b v).
  - subst i. intros _ Heq. apply (fresh_available_peer s b a v); [done|done|done|].
    by apply peers_sym.
  - intros Hnz Heq. by apply (Hn a b).
Qed.

Lemma failed_value st s i v j :
  value (point_at (Sudoku_failed st s i v).2 j) = value (point_at s j).
Proof.
  rewrite point_at_failed. case_decide as Hd; simpl; [|done]. by destruct Hd as [-> _].
Qed.

Lemma failed_row st s i v j :
  row (point_at (Sudoku_failed st s i v).2 j) = row (point_at s j).
Proof.
  rewrite point_at_failed. case_decide as Hd; simpl; [|done]. by destruct Hd as [-> _].
Qed.

Lemma failed_col st s i v j :
  col (point_at (Sudoku_failed st s i v).2 j) = col (point_at s j).
Proof.
  rewrite point_at_failed. case_decide as Hd; simpl; [|done]. by destruct Hd as [-> _].
Qed.

Lemma no_clash_failed st s i v : no_clash s → no_clash (Sudoku_failed st s i v).2.
Proof.
  intros Hn a b. rewrite failed_length. intros Ha Hb Hne.
  rewrite !failed_value. unfold peers, bigrow, bigcol.
  rewrite !failed_row, !failed_col. by apply Hn.
Qed.

Lemma filter_remove_one {A} (P Q : A → Prop)
    `{!∀ x, Decision (P x), !∀ x, Decision (Q x)} (l : list A) (i : A) :
  NoDup l → i ∈ l → P i → (∀ x, Q x ↔ P x ∧ x ≠ i) →
  length (filter P l) = S (length (filter Q l)).
Proof.
  intros Hnd Hi HP HQ. induction l as [|x l IH]; [by apply elem_of_nil in Hi|].
  apply NoDup_cons in Hnd as [Hx Hnd]. rewrite !filter_cons.
  apply elem_of_cons in Hi as [<-|Hi].
  - rewrite decide_True by done. rewrite decide_False by (rewrite HQ; tauto).
    simpl. f_equal. f_equal. apply filter_iff_in. intros y Hy. rewrite HQ.
    split; [|tauto]. intros Hp. split; [done|]. by intros ->.
  - assert (x ≠ i) by (by intros ->).
    destruct (decide (P x)) as [Hpx|Hpx].
    + rewrite decide_True by (rewrite HQ; tauto). simpl. f_equal. by apply IH.
    + rewrite decide_False by (rewrite HQ; tauto). by apply IH.
Qed.

Lemma unset_count_same_cells s s' : same_cells s s' → unset_count s = unset_count s'.
Proof. intros H. unfold unset_count. by rewrite (unset_points_same_cells _ _ H). Qed.

Lemma unset_count_setpoint s i v src :
  (i < length (points s))%nat → value (point_at s i) = 0 → v ≠ 0 →
  unset_count s = S (unset_count (setpoint s i v src)).
Proof.
  intros Hi Hv Hnz. unfold unset_count, unset_points. rewrite setpoint_length.
  apply (filter_remove_one _ _ _ i); [apply NoDup_seq|apply elem_of_seq; lia|done|].
  intros j. rewrite point_at_setpoint. case_decide as Hd; simpl.
  - destruct Hd as [-> _]. split; [done|tauto].
  - split; [|tauto]. intros Hj. split; [done|]. intros ->. tauto.
Qed.

Lemma unset_count_failed st s i v :
  unset_count (Sudoku_failed st s i v).2 = unset_count s.
Proof.
  unfold unset_count, unset_points. rewrite failed_length.
  f_equal. apply list_filter_iff. intros j. by rewrite failed_value.
Qed.


Lemma sum_list_with_insert {A} `{!Inhabited A} (f : A → nat) (l : list A) i x :
  (i < length l)%nat →
  (sum_list_with f (<[i:=x]> l) + f (l !!! i) = sum_list_with f l + f x)%nat.
Proof.
  revert i. induction l as [|y l IH]; intros i Hi; simpl in *; [lia|].
  destruct i as [|i]; simpl; [lia|]. specialize (IH i ltac:(lia)). lia.
Qed.

Lemma sum_list_with_fmap {A B} (f : B → nat) (g : A → B) (l : list A) :
  sum_list_with f (g <$> l) = sum_list_with (f ∘ g) l.
Proof. induction l as [|y l IH]; simpl; [done|]. f_equal. exact IH. Qed.

Lemma sum_list_with_bound {A} (f : A → nat) (l : list A) n :
  (∀ x, f x ≤ n)%nat → (sum_list_with f l ≤ n * length l)%nat.
Proof. intros H. induction l as [|y l IH]; simpl; [lia|]. specialize (H y). lia. Qed.

Lemma size_one_to_nine : size one_to_nine = 9%nat.
Proof. by vm_compute. Qed.

Lemma budget_bound s : length (points s) = 81%nat → (budget s ≤ 729)%nat.
Proof.
  intros Hlen. unfold budget.
  etransitivity; [apply (sum_list_with_bound _ _ 9)|lia].
  intros p. rewrite <- size_one_to_nine. apply subseteq_size.
  apply subseteq_difference_l. done.
Qed.

(** Recording a failure of an available value uses up one unit. *)
Lemma budget_failed st s i v :
  (i < length (points s))%nat → v ∈ one_to_nine → v ∉ failed (point_at s i) →
  budget s = S (budget (Sudoku_failed st s i v).2).
Proof.
  intros Hi Hv Hnf. unfold budget, Sudoku_failed, clearcache; simpl.
  rewrite sum_list_with_fmap.
  pose proof (sum_list_with_insert
    ((λ p, size (one_to_nine ∖ failed p)) ∘ set_available ∅) (points s) i
    (set_failed ({[v]} ∪ failed (point_at s i)) (point_at s i)) Hi) as H.
  simpl in H. fold (point_at s i) in H.
  assert (Hsz : size (one_to_nine ∖ failed (point_at s i))
                = S (size (one_to_nine ∖ ({[v]} ∪ failed (point_at s i))))).
  { rewrite (comm_L (∪) {[v]} (failed (point_at s i))), <- difference_difference_l_L.
    rewrite (size_difference (one_to_nine ∖ failed (point_at s i)) {[v]})
      by (apply singleton_subseteq_l, elem_of_difference; done).
    rewrite size_singleton.
    destruct (size (one_to_nine ∖ failed (point_at s i))) eqn:Es; [|lia].
    apply size_empty_inv in Es. exfalso.
    apply (not_elem_of_empty (C:=gset Z) v). rewrite <- Es.
    by apply elem_of_difference. }
  assert (sum_list_with (λ p, size (one_to_nine ∖ failed p)) (points s)
          = sum_list_with ((λ p, size (one_to_nine ∖ failed p)) ∘ set_available ∅)
              (points s)) as Heq by done.
  rewrite Heq. lia.
Qed.

(** ** The two loops of the solver *)

Lemma returns_impl {A} (r : result A) (low low' : Prop) (post post' : A → Prop) :
  returns r low post → (low → low') → (∀ a, post a → post' a) → returns r low' post'.
Proof. destruct r; simpl; auto. Qed.

Lemma known_cond_val_same_view s s' dd :
  same_view s s' → known_cond_val s dd = known_cond_val s' dd.
Proof.
  intros Hv. unfold known_cond_val.
  rewrite (todo_val_same_view _ _ Hv), (deduced_val_same_view _ _ Hv).
  destruct (todo_val s') as [|i t]; [done|]. by rewrite (proj2 Hv i).
Qed.

Lemma guess_tag_Ok n : (n ≤ 10)%nat → ∃ tag, guess_tag n = Ok tag.
Proof. intros Hn. do 11 (destruct n as [|n]; [by eexists|]). lia. Qed.

Lemma size_failed_bound s i : board_ok s → (size (failed (point_at s i)) ≤ 9)%nat.
Proof.
  intros (_ & _ & _ & Hf). rewrite <- size_one_to_nine. apply subseteq_size, Hf.
Qed.

Section SolverProofs.

Variable pick : gset Z → Z.
Hypothesis pick_elem : ∀ x : gset Z, x ≠ ∅ → pick x ∈ x.

Lemma next_iter_Ok x : x ≠ ∅ → next_iter pick x = Ok (pick x).
Proof. intros H. unfold next_iter. by rewrite decide_False. Qed.

(** The body of the first loop sets an unset point to one of its available
    values. *)
Lemma known_body_spec st s dd :
  shape s → known_cond_val s dd = true →
  ∃ i v st' src,
    (∀ s1, same_view s s1 → known_body pick st s1 = Ok (st', setpoint s i v src))
    ∧ (i < length (points s))%nat ∧ value (point_at s i) = 0
    ∧ v ∈ avail_val s i ∧ maxlevel st' = maxlevel st.
Proof.
  intros Hs Hc. unfold known_cond_val in Hc.
  destruct (todo_val s) as [|i t] eqn:E; [done|].
  assert (i ∈ todo_val s) as [Hi Hval]%elem_of_todo_val by (rewrite E; left).
  destruct (decide (size (avail_val s i) = 1%nat)) as [Hsz|Hsz].
  - assert (avail_val s i ≠ ∅) as Hne.
    { intros He. rewrite He in Hsz. by rewrite size_empty in Hsz. }
    exists i, (pick (avail_val s i)), (add_think st), "="%string.
    split; [|by auto].
    intros s1 Hv. unfold known_body. view_step. rewrite E. cbn [first].
    rewrite result_bind_Ok. view_step. rewrite decide_True by done.
    view_step. rewrite E. cbn [first]. rewrite result_bind_Ok. view_step.
    rewrite (next_iter_Ok _ Hne), result_bind_Ok.
    do 2 f_equal. symmetry. apply setpoint_same_cells, Hv.
  - destruct dd; [|done]. apply bool_decide_eq_true in Hc.
    destruct (deduced_val s) as [|j d] eqn:Ed; [done|].
    assert (j ∈ deduced_val s) as (Hj & Hvj & Hdj)%elem_of_deduced_val
      by (rewrite Ed; left).
    assert (j < 81)%nat by (by rewrite <- (proj1 Hs)).
    exists j, (pick (deduce_val s j)), (add_deduction st), "*"%string.
    split; [|split; [done|split; [done|split; [|done]]]].
    + intros s1 Hv. unfold known_body. view_step. rewrite E. cbn [first].
      rewrite result_bind_Ok. view_step. rewrite decide_False by done.
      view_step. rewrite Ed. cbn [first]. rewrite result_bind_Ok. view_step.
      rewrite (next_iter_Ok _ Hdj), result_bind_Ok.
      do 2 f_equal. symmetry. apply setpoint_same_cells, Hv.
    + apply (deduce_val_subseteq s j). by apply pick_elem.
Qed.

(** The first loop returns within as many turns as there are unset points;
    it keeps the board well formed and free of clashes. *)
Lemma known_values_spec n st s dd :
  board_ok s →
  returns (known_values pick n st s dd) (n ≤ unset_count s)%nat
    (λ r, board_ok r.2 ∧ (no_clash s → no_clash r.2)
          ∧ (unset_count r.2 ≤ unset_count s)%nat ∧ maxlevel r.1 = maxlevel st).
Proof.
  revert st s. induction n as [|n IH]; intros st s Hok; [simpl; lia|].
  cbn [known_values]. pose proof Hok as (Hs & Hc & Hr & Hf).
  destruct (known_cond_spec s dd Hs) as (s1 & -> & Hv1). rewrite result_bind_Ok.
  pose proof (board_ok_same_view _ _ Hv1 Hok) as Hok1.
  destruct (known_cond_val s dd) eqn:Ec.
  - rewrite (known_cond_val_same_view _ _ dd Hv1) in Ec.
    destruct (known_body_spec st s1 dd (proj1 Hok1) Ec)
      as (i & v & st' & src & Hbody & Hi & Hval & Hv & Hml).
    rewrite (Hbody s1 (same_view_refl s1)), result_bind_Ok.
    destruct (coherent_avail_val_elem s1 i v (proj1 (proj2 Hok1)) Hv) as [_ Hfresh].
    pose proof (fresh_available_subseteq s1 i v Hfresh) as H19%elem_of_one_to_nine.
    pose proof (unset_count_setpoint s1 i v src Hi Hval ltac:(lia)) as Hcount.
    rewrite <- (unset_count_same_cells _ _ (proj1 Hv1)) in Hcount.
    eapply returns_impl; [apply (IH st' (setpoint s1 i v src))| |].
    + apply board_ok_setpoint; [done|lia].
    + lia.
    + intros [st2 s2]; simpl. intros (H1 & H2 & H3 & H4).
      split; [done|]. split; [|split; [lia|congruence]].
      intros Hn. apply H2. apply no_clash_setpoint; [|done].
      by eapply no_clash_same_cells; [apply Hv1|].
  - simpl. split; [done|]. split; [|split; [|done]].
    + intros Hn. by eapply no_clash_same_cells; [apply Hv1|].
    + by rewrite <- (unset_count_same_cells _ _ (proj1 Hv1)).
Qed.

(** The guess is made at the best point of the copy, which is the best
    point of the board. *)
Lemma guess_spec s use i t tag :
  todo_val s = i :: t → guess_tag (size (failed (point_at s i))) = Ok tag →
  ∀ s1, same_view s s1 → guess s1 use = Ok (setpoint s i use tag).
Proof.
  intros E Htag s1 Hv. unfold guess, deepcopy. view_step. rewrite E. cbn [first].
  rewrite result_bind_Ok.
  lazymatch goal with
  | Hx : same_view s ?sx |- _ =>
    rewrite <- (same_cells_failed _ _ i (proj1 Hx)), Htag, result_bind_Ok;
    f_equal; symmetry; apply setpoint_same_cells, Hx
  end.
Qed.

(** The body of the second loop at a dead end. *)
Lemma guessing_body_dead_end rec st s level dd i t :
  todo_val s = i :: t → avail_val s i = ∅ →
  ∀ s1, same_view s s1 →
  ∃ s', guessing_body pick rec st s1 level dd = Ok (st, s', Some ReturnFalse)
        ∧ same_view s s'.
Proof.
  intros E He s1 Hv. unfold guessing_body. view_step. rewrite E. cbn [first].
  rewrite result_bind_Ok. view_step. rewrite He.
  rewrite decide_False by (by intros H). by eexists.
Qed.

(** The body of the second loop when a value is left to try. *)
Lemma guessing_body_guess rec st s level dd i t tag :
  todo_val s = i :: t → avail_val s i ≠ ∅ →
  guess_tag (size (failed (point_at s i))) = Ok tag →
  ∀ s1, same_view s s1 →
  ∃ s', same_view s s'
    ∧ guessing_body pick rec st s1 level dd =
        match rec (add_guess st) (setpoint s i (pick (avail_val s i)) tag) (level + 1) dd with
        | Ok (st', _, ReturnTrue shown) => Ok (st', s', Some (ReturnTrue shown))
        | Ok (st', _, ReturnFalse) =>
          Ok (Sudoku_failed st' s i (pick (avail_val s i)), None)
        | Raise e => Raise e
        | OutOfFuel => OutOfFuel
        end.
Proof.
  intros E Hne Htag s1 Hv. unfold guessing_body. view_step. rewrite E. cbn [first].
  rewrite result_bind_Ok. view_step. rewrite decide_True by done.
  rewrite (next_iter_Ok _ Hne), result_bind_Ok.
  lazymatch goal with
  | Hx : same_view s ?sx |- _ =>
    rewrite (guess_spec s _ i t tag E Htag sx Hx), result_bind_Ok;
    exists sx; split; [done|];
    destruct (rec _ _ _ _) as [[[st' x] [shown|]]|e|]; try done;
    rewrite result_bind_Ok; cbv beta iota;
    rewrite (failed_same_cells st' sx s) by (apply same_cells_sym, Hx);
    by destruct (Sudoku_failed st' s i _)
  end.
Qed.

Section Guessing.

Variable rec : Stats → Sudoku → Z → bool → result (Stats * Sudoku * answer).
Variable rec_fuel : nat.
Variable dd : bool.
Hypothesis rec_spec : ∀ st s level,
  board_ok s →
  returns (rec st s level dd) (rec_fuel ≤ 730 + unset_count s)%nat (solve_post st s level).

(** The second loop returns within as many turns as there are values left
    to fail, when the recursive calls return. *)
Lemma guessing_spec n st s level :
  board_ok s →
  returns (guessing pick rec n st s level dd)
    ((n ≤ budget s)%nat ∨ (rec_fuel + 1 ≤ 730 + unset_count s)%nat)
    (solve_post st s level).
Proof.
  revert st s. induction n as [|n IH]; intros st s Hok; [simpl; lia|].
  cbn [guessing]. pose proof (same_view_refl s) as Hv. view_step.
  lazymatch goal with
  | Hx : same_view s ?sx |- _ => rename Hx into Hv0; rename sx into s0
  end.
  pose proof (board_ok_same_view _ _ Hv0 Hok) as Hok0.
  destruct (todo_val s) as [|i t] eqn:E.
  { rewrite decide_True by done. simpl. unfold solve_post; simpl.
    split; [lia|]. split; [lia|]. split; [done|]. split.
    - rewrite <- (unset_count_same_cells _ _ (proj1 Hv0)).
      by rewrite <- todo_val_length, E.
    - intros Hn. by eapply no_clash_same_cells; [apply Hv0|]. }
  rewrite decide_False by done.
  assert (i ∈ todo_val s) as [Hi Hval]%elem_of_todo_val by (rewrite E; left).
  destruct (decide (avail_val s i = ∅)) as [He|Hne].
  { destruct (guessing_body_dead_end rec st s level dd i t E He s0 Hv0)
      as (s' & -> & Hv'). rewrite result_bind_Ok. simpl. unfold solve_post; simpl.
    split; [lia|]. split; [lia|done]. }
  destruct (guess_tag_Ok (size (failed (point_at s i)))) as [tag Htag].
  { pose proof (size_failed_bound s i Hok). lia. }
  destruct (guessing_body_guess rec st s level dd i t tag E Hne Htag s0 Hv0)
    as (s' & Hv' & ->).
  set (v := pick (avail_val s i)).
  assert (v ∈ avail_val s i) as Hv by (by apply pick_elem).
  pose proof Hok as (Hs & Hc & Hr & Hf).
  destruct (coherent_avail_val_elem s i v Hc Hv) as [_ Hfresh].
  pose proof (fresh_available_subseteq s i v Hfresh) as H19.
  pose proof H19 as H19'%elem_of_one_to_nine.
  pose proof (unset_count_setpoint s i v tag Hi Hval ltac:(lia)) as Hcount.
  assert (board_ok (setpoint s i v tag)) as Hoknext
    by (apply board_ok_setpoint; [done|lia]).
  pose proof (rec_spec (add_guess st) (setpoint s i v tag) (level + 1) Hoknext) as Hrec.
  destruct (rec (add_guess st) (setpoint s i v tag) (level + 1) dd)
    as [[[st' x] [shown|]]|e|]; unfold returns in Hrec.
  - rewrite result_bind_Ok. simpl. unfold solve_post in *; simpl in *.
    destruct Hrec as (H1 & H2 & H3 & H4 & H5).
    split; [lia|]. split; [lia|]. split; [done|]. split; [done|].
    intros Hn. apply H5. by apply no_clash_setpoint.
  - rewrite result_bind_Ok.
    destruct (Sudoku_failed st' s i v) as [st2 s2] eqn:Ef.
    assert (s2 = (Sudoku_failed st' s i v).2) as Hs2 by (by rewrite Ef).
    assert (maxlevel st2 = maxlevel st') as Hst2
      by (by injection Ef as <- _).
    pose proof (budget_failed st' s i v Hi H19
                  (fresh_available_not_failed s i v Hfresh)) as Hb.
    pose proof (unset_count_failed st' s i v) as Hu.
    rewrite <- Hs2 in Hb, Hu.
    assert (no_clash s → no_clash s2) as Hnc2
      by (rewrite Hs2; apply no_clash_failed).
    assert (board_ok s2) as Hok2 by (rewrite Hs2; by apply board_ok_failed).
    clear Hs2 Ef.
    eapply returns_impl; [apply (IH st2 s2 Hok2)| |].
    + lia.
    + intros [[st3 s3] r]. unfold solve_post in *; simpl in *.
      destruct Hrec as (H1 & H2 & _). intros (H3 & H4 & H5).
      split; [lia|]. split; [lia|]. destruct r as [shown|]; [|done].
      destruct H5 as (H5 & H6 & H7). split; [done|]. split; [done|].
      auto.
  - done.
  - simpl. lia.
Qed.

End Guessing.

Lemma solve_unfold fuel st s level dd :
  solve pick (S fuel) st s level dd =
    known_values pick fuel (enter_level level st) s dd
      ≫= λ '(st1, s1), guessing pick (solve pick fuel) fuel st1 s1 level dd.
Proof. done. Qed.

(** A call of [solve] on a well-formed board returns when it has fuel,
    never raises, and prints a full board without clashes when it returns
    [True] on a board that has none. *)
Lemma solve_spec fuel dd st s level :
  board_ok s →
  returns (solve pick fuel st s level dd) (fuel ≤ 730 + unset_count s)%nat
    (solve_post st s level).
Proof.
  revert st s level. induction fuel as [|fuel IH]; intros st s level Hok; [simpl; lia|].
  rewrite solve_unfold.
  pose proof (known_values_spec fuel (enter_level level st) s dd Hok) as Hk.
  destruct (known_values pick fuel (enter_level level st) s dd) as [[st1 s1]|e|];
    simpl in Hk; [|done|simpl; lia].
  rewrite result_bind_Ok. destruct Hk as (Hok1 & Hn1 & Hu1 & Hm1).
  eapply returns_impl;
    [apply (guessing_spec (solve pick fuel) fuel dd (λ st s level, IH st s level))| |].
  - done.
  - pose proof (budget_bound s1 (proj1 (proj1 Hok1))). lia.
  - intros [[st2 s2] r]. unfold solve_post; simpl in *.
    intros (H1 & H2 & H3). split; [lia|]. split; [lia|].
    destruct r as [shown|]; [|done]. destruct H3 as (H3 & H4 & H5).
    split; [done|]. split; [done|]. auto.
Qed.

End SolverProofs.

(** ** Full boards *)

Lemma points_as_fmap s : points s = point_at s <$> seq 0 (length (points s)).
Proof.
  apply list_eq. intros i. rewrite list_lookup_fmap.
  destruct (decide (i < length (points s))%nat) as [Hi|Hi].
  - rewrite lookup_seq_lt by done. simpl. unfold point_at.
    by apply list_lookup_lookup_total_lt.
  - rewrite lookup_seq_ge by lia. by apply lookup_ge_None_2; lia.
Qed.

Lemma length_filter_fmap {A B} (f : A → B) (Q : B → Prop) `{!∀ x, Decision (Q x)}
    (l : list A) :
  length (filter Q (f <$> l)) = length (filter (λ x, Q (f x)) l).
Proof.
  induction l as [|x l IH]; [done|].
  rewrite fmap_cons, !filter_cons. case_decide; simpl; by rewrite IH.
Qed.

Lemma filter_none {A} (Q : A → Prop) `{!∀ x, Decision (Q x)} (l : list A) :
  (∀ x, x ∈ l → ¬ Q x) → filter Q l = [].
Proof.
  induction l as [|x l IH]; intros Hall; [done|].
  rewrite filter_cons_False by (apply Hall; by left).
  apply IH. intros y Hy. apply Hall. by right.
Qed.

Lemma length_filter_unique {A} (Q : A → Prop) `{!∀ x, Decision (Q x)}
    (l : list A) (i : A) :
  NoDup l → i ∈ l → Q i → (∀ j, j ∈ l → Q j → j = i) →
  length (filter Q l) = 1%nat.
Proof.
  induction l as [|x l IH]; intros Hnd Hi HQ Hu; [by apply elem_of_nil in Hi|].
  apply NoDup_cons in Hnd as [Hx Hnd].
  apply elem_of_cons in Hi as [->|Hi].
  - rewrite filter_cons_True by done. simpl. f_equal.
    rewrite filter_none; [done|].
    intros y Hy Hqy. apply Hx. rewrite <- (Hu y); [done|by right|done].
  - rewrite filter_cons_False.
    + apply IH; [done|done|done|]. intros j Hj. apply Hu. by right.
    + intros Hqx. apply Hx. rewrite (Hu x); [done|by left|done].
Qed.

Lemma unset_count_0_value s i :
  unset_count s = 0%nat → (i < length (points s))%nat → value (point_at s i) ≠ 0.
Proof.
  intros H0 Hi Hv. apply length_zero_iff_nil in H0.
  assert (i ∈ unset_points s) as Hin by (by apply elem_of_unset_points).
  rewrite H0 in Hin. by apply elem_of_nil in Hin.
Qed.

(** In a group of nine points that are peers of each other, a full board
    without clashes holds every value from 1 to 9 exactly once. *)
Lemma unit_exactly_once s (P : Point → Prop) `{!∀ p, Decision (P p)} v :
  board_ok s → unset_count s = 0%nat → no_clash s →
  (∀ p q, P p → P q → peers p q) →
  length (filter (λ j, P (point_at s j)) (seq 0 81)) = 9%nat →
  1 <= v <= 9 →
  count_value s P v = 1%nat.
Proof.
  intros (Hs & Hc & Hr & Hf) H0 Hn Hpeers Hlen Hv.
  pose proof (proj1 Hs) as Hl81.
  set (U := filter (λ j, P (point_at s j)) (seq 0 81)) in *.
  assert (HU : ∀ j, j ∈ U ↔ (j < 81)%nat ∧ P (point_at s j)).
  { intros j. unfold U. rewrite list_elem_of_filter, elem_of_seq.
    split; intros [? ?]; split; try done; lia. }
  assert (Hinj : ∀ i j, i ∈ U → j ∈ U →
            value (point_at s i) = value (point_at s j) → i = j).
  { intros i j [Hi Hpi]%HU [Hj Hpj]%HU Heq.
    destruct (decide (i = j)) as [|Hne]; [done|]. exfalso.
    apply (Hn i j); [lia|lia|done| |done|by apply Hpeers].
    apply unset_count_0_value; [done|lia]. }
  assert (Hex : ∃ i, i ∈ U ∧ value (point_at s i) = v).
  { assert (NoDup ((λ i, value (point_at s i)) <$> U)) as Hnd.
    { apply NoDup_fmap_2_strong; [done|]. apply NoDup_filter, NoDup_seq. }
    assert (v ∈ (λ i, value (point_at s i)) <$> U) as Hin.
    { apply list_elem_of_In.
      apply NoDup_ListNoDup in Hnd.
      apply (NoDup_length_incl Hnd (l' := [1; 2; 3; 4; 5; 6; 7; 8; 9])).
      - rewrite length_fmap, Hlen. simpl. lia.
      - intros x Hx%list_elem_of_In.
        apply list_elem_of_fmap in Hx as (i & -> & [Hi _]%HU).
        apply list_elem_of_In. specialize (Hr i).
        pose proof (unset_count_0_value s i H0 ltac:(lia)).
        rewrite !elem_of_cons. lia.
      - apply list_elem_of_In. rewrite !elem_of_cons. lia. }
    apply list_elem_of_fmap in Hin as (i & -> & Hi). by exists i. }
  destruct Hex as (i & [Hi Hpi]%HU & Hvi).
  unfold count_value. rewrite (points_as_fmap s), length_filter_fmap, Hl81.
  apply (length_filter_unique _ _ i); [apply NoDup_seq|apply elem_of_seq; lia|done|].
  intros j Hj%elem_of_seq [Hpj Hvj]. apply Hinj; [apply HU|apply HU|congruence].
  - split; [lia|done].
  - done.
Qed.

Lemma shape_rows s k :
  shape s → 0 <= k <= 8 →
  length (filter (λ j, row (point_at s j) = k) (seq 0 81)) = 9%nat.
Proof.
  intros [_ Hs] Hk.
  rewrite (filter_iff_in _ (λ j, Z.of_nat j / 9 = k)).
  - assert (k = 0 ∨ k = 1 ∨ k = 2 ∨ k = 3 ∨ k = 4 ∨ k = 5 ∨ k = 6 ∨ k = 7 ∨ k = 8)
      as Hcases by lia.
    repeat (destruct Hcases as [->|Hcases]); try subst k; by vm_compute.
  - intros j Hj%elem_of_seq. by rewrite (proj1 (Hs j ltac:(lia))).
Qed.

Lemma shape_cols s k :
  shape s → 0 <= k <= 8 →
  length (filter (λ j, col (point_at s j) = k) (seq 0 81)) = 9%nat.
Proof.
  intros [_ Hs] Hk.
  rewrite (filter_iff_in _ (λ j, Z.of_nat j mod 9 = k)).
  - assert (k = 0 ∨ k = 1 ∨ k = 2 ∨ k = 3 ∨ k = 4 ∨ k = 5 ∨ k = 6 ∨ k = 7 ∨ k = 8)
      as Hcases by lia.
    repeat (destruct Hcases as [->|Hcases]); try subst k; by vm_compute.
  - intros j Hj%elem_of_seq. by rewrite (proj2 (Hs j ltac:(lia))).
Qed.

Lemma shape_blocks s k :
  shape s → 0 <= k <= 8 →
  length (filter (λ j, bigrow (point_at s j) = k / 3 ∧ bigcol (point_at s j) = k mod 3)
            (seq 0 81)) = 9%nat.
Proof.
  intros [_ Hs] Hk.
  rewrite (filter_iff_in _ (λ j, Z.quot (Z.of_nat j / 9) 3 = k / 3
                                 ∧ Z.quot (Z.of_nat j mod 9) 3 = k mod 3)).
  - assert (k = 0 ∨ k = 1 ∨ k = 2 ∨ k = 3 ∨ k = 4 ∨ k = 5 ∨ k = 6 ∨ k = 7 ∨ k = 8)
      as Hcases by lia.
    repeat (destruct Hcases as [->|Hcases]); try subst k; by vm_compute.
  - intros j Hj%elem_of_seq. unfold bigrow, bigcol.
    by rewrite (proj1 (Hs j ltac:(lia))), (proj2 (Hs j ltac:(lia))).
Qed.

(** A full well-formed board without clashes is a solved grid. *)
Lemma full_board_solved s :
  board_ok s → unset_count s = 0%nat → no_clash s → solved_grid s.
Proof.
  intros Hok H0 Hn. pose proof Hok as (Hs & Hc & Hr & Hf). split.
  - intros p [i Hi]%list_elem_of_lookup.
    pose proof (lookup_lt_Some _ _ _ Hi) as Hlt.
    assert (p = point_at s i) as ->
      by (unfold point_at; by rewrite (list_lookup_total_correct _ _ _ Hi)).
    specialize (Hr i). pose proof (unset_count_0_value s i H0 Hlt). lia.
  - intros k v Hk Hv. split; [|split].
    + apply unit_exactly_once; try done.
      * intros p q <- Hq. by left.
      * by apply shape_rows.
    + apply unit_exactly_once; try done.
      * intros p q <- Hq. right. by left.
      * by apply shape_cols.
    + apply unit_exactly_once; try done.
      * intros p q [<- <-] [? ?]. right. by right.
      * by apply shape_blocks.
Qed.

Lemma pick_least_elem (x : gset Z) : x ≠ ∅ → pick_least x ∈ x.
Proof.
  intros Hne. unfold pick_least.
  destruct (elements x) as [|a l] eqn:E.
  - by apply elements_empty_inv, leibniz_equiv in E.
  - apply elem_of_elements. rewrite E. clear.
    induction l as [|b l IH]; simpl; [by left|].
    destruct (Z.min_spec b (foldr Z.min a l)) as [[_ ->]|[_ ->]].
    + right. by left.
    + apply elem_of_cons in IH as [->|IH]; [by left|]. right. by right.
Qed.

(** ** One turn of the second loop *)

Lemma elem_of_onrow_idx s p v :
  v ∈ onrow s p ↔
  ∃ j, (j < length (points s))%nat ∧ value (point_at s j) = v ∧ v ≠ 0
       ∧ row (point_at s j) = row p.
Proof.
  rewrite elem_of_onrow. split.
  - intros (q & [j Hj]%list_elem_of_lookup & ?). exists j.
    split; [by eapply lookup_lt_Some|]. unfold point_at.
    by rewrite (list_lookup_total_correct _ _ _ Hj).
  - intros (j & Hj & ?). exists (point_at s j). split; [by apply point_at_elem_of|done].
Qed.

Lemma elem_of_oncol_idx s p v :
  v ∈ oncol s p ↔
  ∃ j, (j < length (points s))%nat ∧ value (point_at s j) = v ∧ v ≠ 0
       ∧ col (point_at s j) = col p.
Proof.
  rewrite elem_of_oncol. split.
  - intros (q & [j Hj]%list_elem_of_lookup & ?). exists j.
    split; [by eapply lookup_lt_Some|]. unfold point_at.
    by rewrite (list_lookup_total_correct _ _ _ Hj).
  - intros (j & Hj & ?). exists (point_at s j). split; [by apply point_at_elem_of|done].
Qed.

Lemma elem_of_in3x3_idx s p v :
  v ∈ in3x3 s p ↔
  ∃ j, (j < length (points s))%nat ∧ value (point_at s j) = v ∧ v ≠ 0
       ∧ bigrow (point_at s j) = bigrow p ∧ bigcol (point_at s j) = bigcol p.
Proof.
  rewrite elem_of_in3x3. split.
  - intros (q & [j Hj]%list_elem_of_lookup & ?). exists j.
    split; [by eapply lookup_lt_Some|]. unfold point_at.
    by rewrite (list_lookup_total_correct _ _ _ Hj).
  - intros (j & Hj & ?). exists (point_at s j). split; [by apply point_at_elem_of|done].
Qed.



(** A closed decidable statement, settled by evaluation. *)
Ltac by_evaluation :=
  lazymatch goal with
  | |- ?P => apply (bool_decide_unpack P); by vm_compute
  end.

(** ** The available values in the words of the design document *)

Lemma shape_places s j :
  shape s → (j < 81)%nat →
  row (point_at s j) = Z.of_nat (j `div` 9) ∧ col (point_at s j) = Z.of_nat (j `mod` 9)
  ∧ bigrow (point_at s j) = Z.of_nat ((j `div` 9) `div` 3)
  ∧ bigcol (point_at s j) = Z.of_nat ((j `mod` 9) `div` 3).
Proof.
  intros [_ Hplace] Hj. destruct (Hplace j Hj) as [Hrow Hcol].
  unfold bigrow, bigcol. rewrite Hrow, Hcol.
  assert (Z.of_nat j / 9 = Z.of_nat (j `div` 9)) as -> by (by rewrite Nat2Z.inj_div).
  assert (Z.of_nat j mod 9 = Z.of_nat (j `mod` 9)) as -> by (by rewrite Nat2Z.inj_mod).
  rewrite !Z.quot_div_nonneg by lia.
  split; [done|]. split; [done|]. by rewrite !Nat2Z.inj_div.
Qed.

Lemma elem_of_values_seen s i v :
  v ∈ values_seen s i ↔
  ∃ j, (j < 81)%nat ∧ shares_unit i j ∧ value (point_at s j) = v ∧ v ≠ 0.
Proof.
  unfold values_seen. rewrite elem_of_list_to_set, list_elem_of_fmap. split.
  - intros (j & -> & [[Hu Hnz] Hj%elem_of_seq]%list_elem_of_filter).
    exists j. split; [lia|done].
  - intros (j & Hj & Hu & <- & Hnz). exists j. split; [done|].
    apply list_elem_of_filter. split; [done|]. apply elem_of_seq. lia.
Qed.

Lemma elem_of_recomputed s i v :
  v ∈ recomputed s i ↔
  1 <= v <= 9 ∧ (v ∉ failed (point_at s i))
  ∧ ∀ j, (j < 81)%nat → shares_unit i j → value (point_at s j) ≠ v.
Proof.
  unfold recomputed.
  rewrite elem_of_difference, elem_of_union, elem_of_values_seen,
    elem_of_list_to_set, list_elem_of_fmap.
  split.
  - intros [(n & -> & Hn%elem_of_seq) Hnot]. split; [lia|]. split; [tauto|].
    intros j Hj Hu Hv. apply Hnot. left. exists j. repeat split; [done|done|done|lia].
  - intros (Hv & Hf & Hall). split.
    + exists (Z.to_nat v). split; [lia|]. apply elem_of_seq. lia.
    + intros [(j & Hj & Hu & Hjv & _)|Hin]; [by apply (Hall j)|done].
Qed.

(** On a board in row-major order the set that the code computes from
    scratch is the set of the design document. *)
Lemma fresh_available_recomputed s i :
  shape s → (i < 81)%nat → fresh_available s i = recomputed s i.
Proof.
  intros Hs Hi. pose proof (proj1 Hs) as Hlen.
  destruct (shape_places s i Hs Hi) as (Hri & Hci & Hbri & Hbci).
  apply set_eq. intros v. rewrite elem_of_recomputed. unfold fresh_available.
  rewrite elem_of_difference, !elem_of_union, elem_of_one_to_nine,
    elem_of_onrow_idx, elem_of_oncol_idx, elem_of_in3x3_idx, Hlen.
  split.
  - intros [Hv Hnot]. split; [done|]. split; [tauto|].
    intros j Hj Hu Hjv. apply Hnot.
    destruct (shape_places s j Hs Hj) as (Hrj & Hcj & Hbrj & Hbcj).
    destruct Hu as [Hu|[Hu|[Hu1 Hu2]]].
    + left. left. left. exists j. rewrite Hrj, Hri, Hu. repeat split; [done|done|lia].
    + left. left. right. exists j. rewrite Hcj, Hci, Hu. repeat split; [done|done|lia].
    + left. right. exists j. rewrite Hbrj, Hbri, Hbcj, Hbci, Hu1, Hu2.
      repeat split; [done|done|lia].
  - intros (Hv & Hf & Hall). split; [done|].
    intros [[[(j & Hj & Hjv & _ & Hu)|(j & Hj & Hjv & _ & Hu)]
            |(j & Hj & Hjv & _ & Hu1 & Hu2)]|Hin]; [| | |done].
    all: destruct (shape_places s j Hs Hj) as (Hrj & Hcj & Hbrj & Hbcj).
    + apply (Hall j Hj); [|done]. left. rewrite Hrj, Hri in Hu. lia.
    + apply (Hall j Hj); [|done]. right. left. rewrite Hcj, Hci in Hu. lia.
    + apply (Hall j Hj); [|done]. right. right.
      rewrite Hbrj, Hbri in Hu1. rewrite Hbcj, Hbci in Hu2. lia.
Qed.

(** * The properties of the design document *)

Lemma simple_board_init : Sudoku_init "" "Simple" = Some simple_board.
Proof. apply Sudoku_init_points. Qed.

Lemma simple_board_reachable : reachable simple_board.
Proof. apply (reach_init "" "Simple"), simple_board_init. Qed.

Lemma hidden_single_board_reachable : reachable hidden_single_board.
Proof. apply (reach_init hidden_single_startpos "Hidden single"), Sudoku_init_points. Qed.

Lemma moved_board_reachable : reachable moved_board.
Proof.
  apply reach_available, reach_failed, reach_setpoint, reach_setpoint, reach_available.
  apply hidden_single_board_reachable.
Qed.

(** C2. On every reachable board, [available] returns for an unset point
    the set of the design document, computed on the board as it is: the
    values from 1 to 9 that no point of its row, of its column or of its
    block holds and that have not failed at it, whatever calls were made
    before and whatever the cache held; and [setpoint] and [Sudoku_failed]
    empty the cache of every point. *)
Theorem available_from_scratch (s : Sudoku) (i : nat) :
  reachable s → (i < 81)%nat → value (point_at s i) = 0 →
  (available s i).2 = recomputed s i
  ∧ (∀ v, v ∈ (available s i).2 ↔
          1 <= v <= 9 ∧ (v ∉ failed (point_at s i))
          ∧ ∀ j, (j < 81)%nat → shares_unit i j → value (point_at s j) ≠ v)
  ∧ (∀ j v src k, _available (point_at (setpoint s j v src) k) = ∅)
  ∧ (∀ st j v k, _available (point_at (Sudoku_failed st s j v).2 k) = ∅).
Proof.
  intros [Hs Hc]%reachable_inv Hi Hv.
  assert ((available s i).2 = recomputed s i) as Heq.
  { pose proof (coherent_avail_val s i Hc) as H. rewrite decide_True in H by done.
    unfold avail_val in H. rewrite H. by apply fresh_available_recomputed. }
  split; [done|]. split; [|split].
  - intros v. rewrite Heq. apply elem_of_recomputed.
  - intros. apply setpoint_cache.
  - intros. apply failed_cache.
Qed.

Lemma available_from_scratch_witness :
  _available (point_at (available hidden_single_board 0).1 0)
    = list_to_set [1; 2; 3; 4; 5; 6]
  ∧ _available (point_at moved_board 0) = list_to_set [1; 3; 6]
  ∧ (available moved_board 0).2 = recomputed moved_board 0
  ∧ recomputed moved_board 0 = list_to_set [1; 3; 6].
Proof.
  split; [by_evaluation|].
  split; [by_evaluation|].
  split; [|by_evaluation].
  refine (proj1 (available_from_scratch moved_board 0 moved_board_reachable _ _)).
  - lia.
  - by vm_compute.
Defined.

(** C3. On a reachable board, [deduce] at the point [i] accumulates in
    [deducerow] the sets [available] of the other unset points of the row
    of [i], in [deducecol] those of the other unset points of its column,
    no point being in both; it returns [A - deducerow] when that set has
    one element, otherwise [A - deducecol] when that set has one element,
    otherwise the empty set, with [A] the set [available] of [i]. *)
Theorem deduce_row_then_col (s : Sudoku) (i : nat) :
  reachable s → (i < length (points s))%nat →
  let A := (available s i).2 in
  let all := seq 0 (length (points s)) in
  let in_row := filter (λ j, j ≠ i ∧ value (point_at s j) = 0
                             ∧ row (point_at s j) = row (point_at s i)) all in
  let in_col := filter (λ j, j ≠ i ∧ value (point_at s j) = 0
                             ∧ col (point_at s j) = col (point_at s i)) all in
  let deduce_row := ⋃ ((λ j, (available s j).2) <$> in_row) in
  let deduce_col := ⋃ ((λ j, (available s j).2) <$> in_col) in
  (deduce_loop i s all ∅ ∅).1.2 = deduce_row
  ∧ (deduce_loop i s all ∅ ∅).2 = deduce_col
  ∧ (∀ j, j ∈ in_row → j ∉ in_col)
  ∧ (deduce s i).2 =
      if decide (size (A ∖ deduce_row) = 1%nat) then A ∖ deduce_row
      else if decide (size (A ∖ deduce_col) = 1%nat) then A ∖ deduce_col
      else ∅.
Proof.
  intros [Hs Hc]%reachable_inv Hi A all in_row in_col deduce_row deduce_col.
  pose proof (shape_distinct_places s Hs) as Hd.
  assert (Hrow : in_row = row_mates s i).
  { apply list_filter_iff. intros j. split; intros (? & ? & ?); done. }
  assert (Hcol : in_col = col_mates s i).
  { apply filter_iff_in. intros j Hj%elem_of_seq.
    split; [intros (Hne & Hv & Hcl)|intros (? & ? & ? & ?); done].
    split; [done|]. split; [done|]. split; [|done].
    intros Hr. apply Hne. apply Hd; [lia|done|done|done]. }
  destruct (deduce_loop_spec i all s ∅ ∅ Hd Hi) as (_ & H2 & H3).
  { intros j Hj%elem_of_seq. lia. }
  rewrite (left_id_L ∅ (∪)) in H2, H3.
  split; [by unfold deduce_row; rewrite Hrow|].
  split; [by unfold deduce_col; rewrite Hcol|].
  split.
  - rewrite Hrow, Hcol. unfold row_mates, col_mates.
    intros j [(_ & _ & Hr) _]%list_elem_of_filter [(_ & _ & Hnr & _) _]%list_elem_of_filter.
    done.
  - destruct (deduce_spec s i Hd Hi) as [_ ->].
    unfold deduce_val, deduce_answer, deduce_row, deduce_col. by rewrite Hrow, Hcol.
Qed.

Lemma deduce_row_then_col_witness : elements (deduce hidden_single_board 0).2 = [1].
Proof.
  destruct (deduce_row_then_col hidden_single_board 0 hidden_single_board_reachable)
    as (_ & _ & _ & H).
  - vm_compute. lia.
  - rewrite H. vm_compute. reflexivity.
Defined.

(** C4. Once [Sudoku_failed] has recorded the value [v] at a point of a
    board, [available] never returns [v] for that point again, whatever
    operations follow on the board or on its copies. *)
Theorem failed_value_never_available (st : Stats) (s : Sudoku) (i : nat) (v : Z)
    (ops : list operation) :
  (i < length (points s))%nat →
  v ∉ (available (run_ops (Sudoku_failed st s i v) ops).2 i).2.
Proof.
  intros Hi.
  assert (Hempty : ∀ s', v ∈ failed (point_at s' i) → _available (point_at s' i) = ∅ →
                         v ∉ avail_val s' i).
  { intros s' Hf He. unfold avail_val.
    destruct (decide (value (point_at s' i) = 0)) as [Hv|Hv].
    - rewrite available_miss by done. simpl. unfold used.
      rewrite elem_of_difference, !elem_of_union. tauto.
    - rewrite available_hit by tauto. simpl. rewrite He. apply not_elem_of_empty. }
  assert (Hinv : ∀ w : Stats * Sudoku,
    v ∈ failed (point_at (snd w) i) ∧ (v ∉ avail_val (snd w) i)
    ∧ (i < length (points (snd w)))%nat →
    v ∉ avail_val (snd (run_ops w ops)) i).
  { induction ops as [|o ops IH]; intros [st' s'] (Hf & Ha & Hl); simpl in *; [done|].
    apply IH. destruct o as [j x src|j x|j| |j| |]; cbn [apply_op snd].
    - assert (v ∈ failed (point_at (setpoint s' j x src) i)) as Hf'.
      { rewrite point_at_setpoint. case_decide as Hd; simpl; [|done].
        by destruct Hd as [-> _]. }
      split; [done|]. split; [|by rewrite setpoint_length].
      apply Hempty; [done|apply setpoint_cache].
    - assert (v ∈ failed (point_at (Sudoku_failed st' s' j x).2 i)) as Hf'.
      { rewrite point_at_failed. case_decide as Hd; simpl; [|done].
        destruct Hd as [-> _]. apply elem_of_union. by right. }
      split; [done|]. split; [|by rewrite failed_length].
      apply Hempty; [done|apply failed_cache].
    - pose proof (available_same_view s' j) as Hv.
      rewrite <- (same_cells_failed _ _ i (proj1 Hv)), <- (proj2 Hv i),
        <- (same_cells_length _ _ (proj1 Hv)). done.
    - destruct (todo_spec s') as [Hv _].
      rewrite <- (same_cells_failed _ _ i (proj1 Hv)), <- (proj2 Hv i),
        <- (same_cells_length _ _ (proj1 Hv)). done.
    - pose proof (deduce_same_view s' j) as Hv.
      rewrite <- (same_cells_failed _ _ i (proj1 Hv)), <- (proj2 Hv i),
        <- (same_cells_length _ _ (proj1 Hv)). done.
    - pose proof (deduced_same_view s') as Hv.
      rewrite <- (same_cells_failed _ _ i (proj1 Hv)), <- (proj2 Hv i),
        <- (same_cells_length _ _ (proj1 Hv)). done.
    - done. }
  apply Hinv.
  assert (v ∈ failed (point_at (Sudoku_failed st s i v).2 i)) as Hf.
  { rewrite point_at_failed. rewrite decide_True by done. simpl.
    apply elem_of_union. left. by apply elem_of_singleton. }
  split; [done|]. split; [|by rewrite failed_length].
  apply Hempty; [done|apply failed_cache].
Qed.

Lemma failed_value_never_available_witness :
  2 ∉ (available (run_ops (Sudoku_failed Stats0 simple_board 0 2)
                    [OpAvailable 0; OpDeepcopy; OpSetpoint 1 3 "a"; OpTodo]).2 0).2.
Proof.
  apply (failed_value_never_available Stats0 simple_board 0 2).
  vm_compute. lia.
Defined.

(** C7. [todo] returns the unset points and nothing else, in ascending
    order of the size of their sets [available], points of equal size being
    in the row-major order of the board. *)
Theorem todo_sorted_stable (s : Sudoku) :
  let t := (todo s).2 in
  let key := λ j, size (available s j).2 in
  let all := seq 0 (length (points s)) in
  t ≡ₚ filter (λ j, value (point_at s j) = 0) all
  ∧ StronglySorted (λ a b, (key a ≤ key b)%nat) t
  ∧ ∀ k, filter (λ j, key j = k) t
         = filter (λ j, key j = k ∧ value (point_at s j) = 0) all.
Proof.
  intros t key all. unfold t. destruct (todo_spec s) as [_ ->].
  rewrite todo_val_sorted. fold (avail_val s). split; [|split].
  - apply sorted_perm.
  - apply (sorted_sorted key).
  - intros k. rewrite (sorted_stable key). unfold unset_points.
    by rewrite list_filter_filter.
Qed.

(** C8. The constructor never fails; it builds 81 points in row-major
    order, without failed values, caches or provenance; a position reads
    its value from the digit from 1 to 9 at its index in the string, every
    other character and every missing position give 0; and the empty
    string gives the board whose only set point is the centre, with 1. *)
Theorem Sudoku_init_builds (sp nm : string) :
  ∃ s, Sudoku_init sp nm = Some s
    ∧ length (points s) = 81%nat
    ∧ (∀ k, (k < 81)%nat →
         points s !! k =
           Some (mkPoint (Z.of_nat k / 9) (Z.of_nat k mod 9)
                   (if decide (sp = ""%string) then (if decide (k = 40%nat) then 1 else 0)
                    else match String.get k sp with
                         | Some c => default 0 (digit_of c)
                         | None => 0
                         end) ∅ ∅ " "))
    ∧ (Z.of_nat 40 / 9 = 4 ∧ Z.of_nat 40 mod 9 = 4).
Proof.
  destruct (Sudoku_init sp nm) as [s|] eqn:H;
    [|by rewrite Sudoku_init_points in H].
  exists s. split; [done|].
  pose proof (Sudoku_init_length _ _ _ H) as Hlen. split; [done|]. split; [|done].
  intros k Hk. pose proof (Sudoku_init_point _ _ _ _ H Hk) as Hp.
  unfold point_at in Hp. rewrite list_lookup_total_alt in Hp.
  destruct (points s !! k) as [p|] eqn:E.
  - simpl in Hp. by rewrite Hp.
  - apply lookup_ge_None in E. lia.
Qed.

(** C10. For a starting string of more than 81 characters the padding
    changes nothing, the position [col + 9*row] of each point is its index
    from 0 to 80, the point reads the character at that index, and two
    such strings that agree on their first 81 characters build the same
    points. *)
Theorem Sudoku_init_first_81 (sp nm : string) :
  (81 < String.length sp)%nat →
  pad81 sp = sp
  ∧ ∃ s, Sudoku_init sp nm = Some s
    ∧ (∀ k, (k < 81)%nat →
         col (point_at s k) + 9 * row (point_at s k) = Z.of_nat k
         ∧ ∃ c, String.get k sp = Some c ∧ value (point_at s k) = char_value c)
    ∧ (∀ sp' s', (81 < String.length sp')%nat →
         String.substring 0 81 sp' = String.substring 0 81 sp →
         Sudoku_init sp' nm = Some s' → points s' = points s).
Proof.
  intros Hlen.
  assert (Hget : ∀ a k, (k < 81)%nat → (81 < String.length a)%nat →
            String.get k (String.substring 0 81 a) = String.get k a).
  { intros a k Hk Ha. rewrite substring_correct1 by done. by rewrite Nat.add_0_r. }
  assert (Hne : ∀ a, (81 < String.length a)%nat → a ≠ ""%string)
    by (intros a Ha ->; simpl in Ha; lia).
  split.
  { unfold pad81. replace (81 - String.length sp)%nat with 0%nat by lia. simpl.
    clear. induction sp as [|c a IH]; [done|].
    change (String c (a ++ "") = String c a)%string. by f_equal. }
  rewrite Sudoku_init_points. eexists. split; [done|]. split.
  - intros k Hk. unfold point_at. cbn [points].
    rewrite list_lookup_total_alt, list_lookup_fmap, lookup_seq_lt by done. simpl.
    split; [pose proof (Z.div_mod (Z.of_nat k) 9); lia|].
    unfold given_value. rewrite decide_False by by apply Hne.
    destruct (String.get k sp) as [c|] eqn:E.
    + exists c. split; [done|]. by rewrite char_value_digit_of.
    + exfalso. revert E. generalize (pad81_get sp k Hk).
      unfold pad81. rewrite get_append_l by lia. intros -> [=].
  - intros sp' s' Hlen' Hsub. rewrite Sudoku_init_points. intros H%(inj Some).
    rewrite <- H. cbn [points]. apply list_fmap_ext. intros i k [-> Hi]%lookup_seq.
    simpl. f_equal. unfold given_value.
    rewrite !decide_False by by apply Hne.
    by rewrite <- (Hget sp' i), <- (Hget sp i), Hsub.
Qed.

Lemma Sudoku_init_first_81_witness :
  ∃ s, Sudoku_init
         "12.4..3..3...1..5...6...1..7...9.....4.6.3.....3..2...5...8.7....7.....5.......98765"
         "long" = Some s
       ∧ value (point_at s 80) = 8.
Proof.
  destruct (Sudoku_init_first_81
    "12.4..3..3...1..5...6...1..7...9.....4.6.3.....3..2...5...8.7....7.....5.......98765"
    "long") as (_ & s & Hs & Hv & _).
  - vm_compute. lia.
  - exists s. split; [exact Hs|].
    destruct (Hv 80%nat) as (_ & c & Hc & ->); [lia|].
    vm_compute in Hc. injection Hc as <-. reflexivity.
Defined.

Lemma three_blanks_board_ok : board_ok three_blanks_board.
Proof. apply (Sudoku_init_ok three_blanks_startpos "Three blanks"), Sudoku_init_points. Qed.

Lemma three_blanks_no_clash : no_clash three_blanks_board.
Proof. apply (bool_decide_unpack (no_clash three_blanks_board)). by vm_compute. Qed.

(** C1, as the code has it.  When [solve] returns [True] on a well-formed
    board whose set points do not break the rules, the board it prints is
    full and valid: every point has a value from 1 to 9, and every row,
    every column and every block holds each of these values once. *)
Theorem solve_success_valid (pick : gset Z → Z) (fuel : nat) (dd : bool)
    (st st' : Stats) (s s' shown : Sudoku) (level : Z) :
  (∀ x : gset Z, x ≠ ∅ → pick x ∈ x) →
  board_ok s → no_clash s →
  solve pick fuel st s level dd = Ok (st', s', ReturnTrue shown) →
  solved_grid shown.
Proof.
  intros Hp Hok Hn Hs.
  pose proof (solve_spec pick Hp fuel dd st s level Hok) as H.
  rewrite Hs in H. destruct H as (_ & _ & H1 & H2 & H3).
  apply full_board_solved; auto.
Qed.

Lemma solve_success_valid_witness :
  ∃ st' s' shown,
    solve pick_least 900 Stats0 three_blanks_board 0 true = Ok (st', s', ReturnTrue shown)
    ∧ solved_grid shown.
Proof.
  eexists _, _, _. split; [by vm_compute|].
  eapply (solve_success_valid pick_least 900 true Stats0 _ three_blanks_board _ _ 0
            pick_least_elem three_blanks_board_ok three_blanks_no_clash).
  by vm_compute.
Defined.

(** C1, as stated, fails on a starting position that breaks the rules:
    on 81 times the digit 1 nothing is left to do, and [solve] returns
    [True] with that board. *)
Lemma solve_success_invalid_givens :
  ∃ st' s' shown,
    Sudoku_init all_ones_startpos "All ones" = Some all_ones_board
    ∧ solve pick_least 2 Stats0 all_ones_board 0 true = Ok (st', s', ReturnTrue shown)
    ∧ ¬ solved_grid shown.
Proof.
  eexists _, _, _. split; [apply Sudoku_init_points|]. split; [by vm_compute|].
  intros [_ H]. destruct (H 0 1 ltac:(lia) ltac:(lia)) as [H1 _].
  vm_compute in H1. discriminate.
Qed.




(** C6. The tags of the guesses are read from the string ['abcedfghijk'],
    in which the letters [e] and [d] stand in each other's place: a guess at
    a point with three failed values is tagged [e], and one at a point with
    four failed values is tagged [d].  On the default board with three
    failures recorded at its best point, the guess writes [e], and the
    board that [solve] prints in the end shows it. *)
Theorem guess_tag_fourth_is_e :
  guess_tag 3 = Ok "e"%string ∧ guess_tag 4 = Ok "d"%string
  ∧ (todo three_fails_board).2 !! 0%nat = Some 4%nat
  ∧ size (failed (point_at three_fails_board 4)) = 3%nat
  ∧ (∃ nextlevel, guess three_fails_board 5 = Ok nextlevel
       ∧ value (point_at nextlevel 4) = 5
       ∧ source (point_at nextlevel 4) = "e"%string)
  ∧ ∃ st' s' shown,
      solve pick_least 900 Stats0 three_fails_board 0 true = Ok (st', s', ReturnTrue shown)
      ∧ source (point_at shown 4) = "e"%string
      ∧ String.get 4 (tokenize shown true) = Some "e"%char.
Proof.
  split; [done|]. split; [done|]. split; [by vm_compute|]. split; [by vm_compute|].
  split.
  - eexists. split; [by vm_compute|]. split; by vm_compute.
  - eexists _, _, _. split; [by vm_compute|]. split; by vm_compute.
Qed.

(** C9. When the best point of the work list has no available value, the
    second loop returns [False] at once: the statistics are those of before
    and the board differs from the one of before in its caches only, so
    that no value was set and no failure recorded; this is then what
    [solve] returns when its first loop ends on such a board.  And [solve]
    on a well-formed board never raises. *)
Theorem dead_end_returns_false (pick : gset Z → Z)
    (rec : Stats → Sudoku → Z → bool → result (Stats * Sudoku * answer))
    (n : nat) (st : Stats) (s : Sudoku) (level : Z) (dd : bool) (i : nat) (t : list nat) :
  (∀ x : gset Z, x ≠ ∅ → pick x ∈ x) →
  (todo s).2 = i :: t → (available s i).2 = ∅ →
  (∃ s', guessing pick rec (S n) st s level dd = Ok (st, s', ReturnFalse)
         ∧ clearcache s' = clearcache s)
  ∧ (∀ fuel st0 s0,
       known_values pick fuel (enter_level level st0) s0 dd = Ok (st, s) →
       ∃ s', solve pick (S fuel) st0 s0 level dd = Ok (st, s', ReturnFalse)
             ∧ clearcache s' = clearcache s)
  ∧ ∀ fuel st0 s0 level0 e,
      board_ok s0 → solve pick fuel st0 s0 level0 dd ≠ Raise e.
Proof.
  intros Hp E He.
  assert (Hloop : ∀ rec' n', ∃ s',
            guessing pick rec' (S n') st s level dd = Ok (st, s', ReturnFalse)
            ∧ clearcache s' = clearcache s).
  { intros rec' n'. destruct (todo_spec s) as [_ Ht]. rewrite Ht in E. clear Ht.
    fold (avail_val s i) in He. cbn [guessing].
    pose proof (same_view_refl s) as Hv. view_step. rewrite E.
    rewrite decide_False by done.
    lazymatch goal with
    | Hx : same_view s ?sx |- _ =>
      destruct (guessing_body_dead_end pick rec' st s level dd i t E He sx Hx)
        as (s' & -> & Hv')
    end.
    rewrite result_bind_Ok. exists s'. split; [done|]. symmetry. apply Hv'. }
  split; [apply Hloop|]. split.
  - intros fuel st0 s0 Hk. destruct fuel as [|fuel]; [done|].
    rewrite solve_unfold, Hk, result_bind_Ok. apply Hloop.
  - intros fuel st0 s0 level0 e Hok Hr.
    pose proof (solve_spec pick Hp fuel dd st0 s0 level0 Hok) as H.
    by rewrite Hr in H.
Qed.

Lemma dead_end_returns_false_witness :
  ∃ s', guessing pick_least (solve pick_least 0) 1 Stats0 dead_end_board 0 true
        = Ok (Stats0, s', ReturnFalse)
      ∧ clearcache s' = clearcache dead_end_board.
Proof.
  destruct (dead_end_returns_false pick_least (solve pick_least 0) 0 Stats0
              dead_end_board 0 true 8 (tail (todo dead_end_board).2) pick_least_elem)
    as [H _].
  - by vm_compute.
  - by vm_compute.
  - exact H.
Defined.

(** * Further properties of the code *)

(** ** Solutions of a board *)

Lemma length_filter_two {A} (Q : A → Prop) `{!∀ x, Decision (Q x)} (l : list A) i j x y :
  (i < j)%nat → l !! i = Some x → l !! j = Some y → Q x → Q y →
  (2 ≤ length (filter Q l))%nat.
Proof.
  intros Hij Hi Hj Hx Hy.
  rewrite <- (take_drop_middle l i x Hi).
  rewrite filter_app, filter_cons_True, length_app by done. simpl.
  assert (drop (S i) l !! (j - S i)%nat = Some y) as Hd.
  { rewrite lookup_drop. rewrite <- Hj. f_equal. lia. }
  rewrite <- (take_drop_middle _ _ y Hd).
  rewrite filter_app, filter_cons_True, length_app by done. simpl. lia.
Qed.

Lemma count_value_two s (P : Point → Prop) `{!∀ p, Decision (P p)} v i j :
  (i < length (points s))%nat → (j < length (points s))%nat → i ≠ j →
  P (point_at s i) → P (point_at s j) →
  value (point_at s i) = v → value (point_at s j) = v →
  (2 ≤ count_value s P v)%nat.
Proof.
  intros Hi Hj Hne Hpi Hpj Hvi Hvj. unfold count_value.
  pose proof (list_lookup_lookup_total_lt (points s) i Hi) as Hli.
  pose proof (list_lookup_lookup_total_lt (points s) j Hj) as Hlj.
  destruct (decide (i < j)%nat).
  - by eapply (length_filter_two _ _ i j).
  - eapply (length_filter_two _ _ j i); [lia|done|done|done|done].
Qed.

Lemma count_value_one s (P : Point → Prop) `{!∀ p, Decision (P p)} v :
  count_value s P v = 1%nat →
  ∃ j, (j < length (points s))%nat ∧ P (point_at s j) ∧ value (point_at s j) = v.
Proof.
  unfold count_value. intros Hone.
  destruct (filter _ (points s)) as [|p l] eqn:E; [done|].
  assert (p ∈ filter (λ p, P p ∧ value p = v) (points s)) as Hin by (rewrite E; left).
  apply list_elem_of_filter in Hin as [[Hp Hv] [j Hj]%list_elem_of_lookup].
  exists j. split; [by eapply lookup_lt_Some|]. unfold point_at.
  by rewrite (list_lookup_total_correct _ _ _ Hj).
Qed.

Lemma shape_row_range s i :
  shape s → (i < 81)%nat → 0 <= row (point_at s i) <= 8 ∧ 0 <= col (point_at s i) <= 8.
Proof.
  intros [_ Hs] Hi. destruct (Hs i Hi) as [-> ->].
  pose proof (Z.mod_pos_bound (Z.of_nat i) 9).
  pose proof (Z.div_pos (Z.of_nat i) 9).
  pose proof (Z.div_lt_upper_bound (Z.of_nat i) 9 9). lia.
Qed.

(** In a solved grid two different peers have different values. *)
Lemma solved_grid_no_clash g : shape g → solved_grid g → no_clash g.
Proof.
  intros Hs [Hr Hc] i j Hi Hj Hne Hnz Heq Hp.
  pose proof (proj1 Hs) as Hlen. rewrite Hlen in Hi, Hj.
  destruct (shape_row_range g i Hs Hi) as [Hri Hci].
  pose proof (Hr (point_at g i) ltac:(apply point_at_elem_of; lia)) as Hv.
  destruct Hp as [Hrow|[Hcol|[Hbr Hbc]]].
  - destruct (Hc (row (point_at g i)) (value (point_at g i)) Hri Hv) as (H1 & _ & _).
    pose proof (count_value_two g (λ p, row p = row (point_at g i)) _ i j
                  ltac:(lia) ltac:(lia) Hne eq_refl (eq_sym Hrow) eq_refl (eq_sym Heq)).
    lia.
  - destruct (Hc (col (point_at g i)) (value (point_at g i)) Hci Hv) as (_ & H1 & _).
    pose proof (count_value_two g (λ p, col p = col (point_at g i)) _ i j
                  ltac:(lia) ltac:(lia) Hne eq_refl (eq_sym Hcol) eq_refl (eq_sym Heq)).
    lia.
  - set (k := 3 * bigrow (point_at g i) + bigcol (point_at g i)).
    assert (0 <= bigrow (point_at g i) <= 2 ∧ 0 <= bigcol (point_at g i) <= 2) as [Hb1 Hb2].
    { unfold bigrow, bigcol. rewrite !Z.quot_div_nonneg by lia.
      pose proof (Z.div_lt_upper_bound (row (point_at g i)) 3 3).
      pose proof (Z.div_lt_upper_bound (col (point_at g i)) 3 3).
      pose proof (Z.div_pos (row (point_at g i)) 3).
      pose proof (Z.div_pos (col (point_at g i)) 3). lia. }
    assert (k / 3 = bigrow (point_at g i) ∧ k mod 3 = bigcol (point_at g i)) as [Hk1 Hk2].
    { unfold k. split.
      - symmetry. apply (Z.div_unique _ 3 _ (bigcol (point_at g i))); lia.
      - symmetry. apply (Z.mod_unique _ 3 (bigrow (point_at g i))); lia. }
    destruct (Hc k (value (point_at g i)) ltac:(unfold k; lia) Hv) as (_ & _ & H1).
    pose proof (count_value_two g (λ p, bigrow p = k / 3 ∧ bigcol p = k mod 3)
                  (value (point_at g i)) i j ltac:(lia) ltac:(lia) Hne) as H2.
    rewrite Hk1, Hk2 in H2. specialize (H2 (conj eq_refl eq_refl)
      (conj (eq_sym Hbr) (eq_sym Hbc)) eq_refl (eq_sym Heq)).
    rewrite Hk1, Hk2 in H1. lia.
Qed.

Lemma shape_same_place s g i :
  shape s → shape g → (i < 81)%nat →
  row (point_at g i) = row (point_at s i) ∧ col (point_at g i) = col (point_at s i).
Proof.
  intros [_ Hs] [_ Hg] Hi. destruct (Hs i Hi) as [-> ->]. by apply Hg.
Qed.

Lemma shape_peers s g i j :
  shape s → shape g → (i < 81)%nat → (j < 81)%nat →
  peers (point_at s i) (point_at s j) → peers (point_at g i) (point_at g j).
Proof.
  intros Hs Hg Hi Hj. unfold peers, bigrow, bigcol.
  destruct (shape_same_place s g i Hs Hg Hi) as [-> ->].
  by destruct (shape_same_place s g j Hs Hg Hj) as [-> ->].
Qed.

Lemma solved_grid_value g i :
  shape g → solved_grid g → (i < 81)%nat → 1 <= value (point_at g i) <= 9.
Proof.
  intros Hs [Hr _] Hi. apply Hr, point_at_elem_of. rewrite (proj1 Hs). done.
Qed.

(** In a solution the value of a point that is unset on the board is one
    of the values available at it. *)
Lemma solution_value_fresh s g i :
  shape s → solution s g → (i < 81)%nat → value (point_at s i) = 0 →
  value (point_at g i) ∈ fresh_available s i.
Proof.
  intros Hs (Hg & Hsol & Hext & Hfail) Hi Hv.
  pose proof (solved_grid_value g i Hg Hsol Hi) as Hr.
  pose proof (solved_grid_no_clash g Hg Hsol) as Hn.
  pose proof (proj1 Hs) as Hlen. pose proof (proj1 Hg) as Hleng.
  assert (Hpeer : ∀ j, (j < length (points s))%nat →
            value (point_at s j) = value (point_at g i) →
            peers (point_at s i) (point_at s j) → False).
  { intros j Hj Hvj Hp. rewrite Hlen in Hj.
    assert (i ≠ j) as Hne by (intros ->; lia).
    apply (Hn i j); [lia|lia|done|lia| |by apply (shape_peers s g)].
    rewrite (Hext j) by lia. done. }
  unfold fresh_available. apply elem_of_difference.
  split; [by apply elem_of_one_to_nine|].
  rewrite !elem_of_union. intros [[[Hin|Hin]|Hin]|Hin].
  - apply elem_of_onrow_idx in Hin as (j & Hj & Hvj & _ & Hr').
    apply (Hpeer j Hj Hvj). by left.
  - apply elem_of_oncol_idx in Hin as (j & Hj & Hvj & _ & Hc').
    apply (Hpeer j Hj Hvj). right. by left.
  - apply elem_of_in3x3_idx in Hin as (j & Hj & Hvj & _ & Hb1 & Hb2).
    apply (Hpeer j Hj Hvj). right. by right.
  - by apply (Hfail i).
Qed.

(** A point whose only available value is [v] has the value [v] in every
    solution. *)
Lemma solution_forced_single s g i v :
  shape s → coherent s → solution s g → (i < 81)%nat →
  avail_val s i = {[v]} → value (point_at g i) = v.
Proof.
  intros Hs Hc Hsol Hi Ha.
  assert (v ∈ avail_val s i) as Hv by (rewrite Ha; by apply elem_of_singleton).
  destruct (coherent_avail_val_elem s i v Hc Hv) as [Hval _].
  pose proof (solution_value_fresh s g i Hs Hsol Hi Hval) as Hg.
  rewrite (coherent_avail_val s i Hc), decide_True in Ha by done.
  rewrite Ha in Hg. by apply elem_of_singleton in Hg.
Qed.

Lemma solved_grid_row_has g k v :
  solved_grid g → 0 <= k <= 8 → 1 <= v <= 9 →
  ∃ j, (j < length (points g))%nat ∧ row (point_at g j) = k ∧ value (point_at g j) = v.
Proof.
  intros [_ Hc] Hk Hv. destruct (Hc k v Hk Hv) as (H1 & _ & _).
  by apply (count_value_one g (λ p, row p = k)).
Qed.

Lemma solved_grid_col_has g k v :
  solved_grid g → 0 <= k <= 8 → 1 <= v <= 9 →
  ∃ j, (j < length (points g))%nat ∧ col (point_at g j) = k ∧ value (point_at g j) = v.
Proof.
  intros [_ Hc] Hk Hv. destruct (Hc k v Hk Hv) as (_ & H1 & _).
  by apply (count_value_one g (λ p, col p = k)).
Qed.

(** The value that [deduce] returns for a point is the value of that point
    in every solution. *)
Lemma solution_deduced s g i v :
  shape s → coherent s → solution s g → (i < 81)%nat →
  v ∈ deduce_val s i → value (point_at g i) = v.
Proof.
  intros Hs Hc Hsol Hi Hv.
  pose proof Hsol as (Hg & Hsg & Hext & Hfail).
  pose proof (proj1 Hs) as Hlen. pose proof (proj1 Hg) as Hleng.
  assert (v ∈ avail_val s i) as Ha by (by apply (deduce_val_subseteq s i)).
  destruct (coherent_avail_val_elem s i v Hc Ha) as [Hval Hfresh].
  pose proof (fresh_available_subseteq s i v Hfresh) as H19%elem_of_one_to_nine.
  destruct (shape_row_range s i Hs Hi) as [Hri Hci].
  (* a point [j] of the solution with the value [v] that is a row or column
     mate of [i] on the board *)
  assert (Hmate : ∀ j, (j < 81)%nat → j ≠ i → value (point_at g j) = v →
            peers (point_at s i) (point_at s j) →
            value (point_at s j) = 0 ∧ v ∈ avail_val s j).
  { intros j Hj Hne Hvj Hp.
    destruct (decide (value (point_at s j) = 0)) as [Hz|Hnz].
    - split; [done|]. rewrite (coherent_avail_val s j Hc), decide_True by done.
      rewrite <- Hvj. by apply solution_value_fresh.
    - exfalso. apply (fresh_available_peer s i j v); [lia|done| |done].
      rewrite <- (Hext j Hnz). done. }
  unfold deduce_val, deduce_answer in Hv.
  destruct (decide (size (avail_val s i ∖ ⋃ (avail_val s <$> row_mates s i)) = 1%nat)).
  - apply elem_of_difference in Hv as [_ Hnot].
    destruct (solved_grid_row_has g (row (point_at s i)) v Hsg Hri H19)
      as (j & Hj & Hrj & Hvj).
    rewrite Hleng in Hj.
    destruct (decide (j = i)) as [->|Hne]; [done|]. exfalso.
    destruct (shape_same_place s g j Hs Hg Hj) as [Hrow _]. rewrite Hrow in Hrj.
    destruct (Hmate j Hj Hne Hvj ltac:(by left)) as [Hz Hin].
    apply Hnot. apply elem_of_union_list. exists (avail_val s j). split; [|done].
    apply list_elem_of_fmap. exists j. split; [done|].
    unfold row_mates. apply list_elem_of_filter. split; [done|].
    apply elem_of_seq. lia.
  - destruct (decide (size (avail_val s i ∖ ⋃ (avail_val s <$> col_mates s i)) = 1%nat));
      [|by apply not_elem_of_empty in Hv].
    apply elem_of_difference in Hv as [_ Hnot].
    destruct (solved_grid_col_has g (col (point_at s i)) v Hsg Hci H19)
      as (j & Hj & Hcj & Hvj).
    rewrite Hleng in Hj.
    destruct (decide (j = i)) as [->|Hne]; [done|]. exfalso.
    destruct (shape_same_place s g j Hs Hg Hj) as [_ Hcol]. rewrite Hcol in Hcj.
    destruct (Hmate j Hj Hne Hvj ltac:(right; by left)) as [Hz Hin].
    apply Hnot. apply elem_of_union_list. exists (avail_val s j). split; [|done].
    apply list_elem_of_fmap. exists j. split; [done|].
    unfold col_mates. apply list_elem_of_filter. split; [|apply elem_of_seq; lia].
    split; [done|]. split; [done|]. split; [|done].
    intros Hr. apply Hne. symmetry.
    apply (shape_distinct_places s Hs); [lia|lia|done|done].
Qed.

(** ** Boards that come after a board *)

Lemma follows_refl s : follows s s.
Proof.
  split; [by intros i|]. split; [by intros i|]. intros i Hz Hnz. done.
Qed.

Lemma follows_trans s1 s2 s3 : follows s1 s2 → follows s2 s3 → follows s1 s3.
Proof.
  intros (He1 & Hf1 & Hr1) (He2 & Hf2 & Hr2). split; [|split].
  - intros i Hnz. rewrite <- (He1 i Hnz). apply He2. by rewrite (He1 i Hnz).
  - intros i. etransitivity; [apply Hf1|apply Hf2].
  - intros i Hz Hnz.
    destruct (decide (value (point_at s2 i) = 0)) as [Hz2|Hnz2].
    + intros Hin. apply (Hr2 i Hz2 Hnz). by apply (Hf1 i).
    + rewrite (He2 i Hnz2). by apply Hr1.
Qed.

Lemma follows_same_cells s s' : same_cells s s' → follows s s'.
Proof.
  intros H. split; [|split].
  - intros i _. by rewrite (same_cells_value _ _ i H).
  - intros i. by rewrite (same_cells_failed _ _ i H).
  - intros i Hz. by rewrite <- (same_cells_value _ _ i H).
Qed.

Lemma follows_setpoint s i v src :
  value (point_at s i) = 0 → v ∉ failed (point_at s i) → follows s (setpoint s i v src).
Proof.
  intros Hz Hv. split; [|split].
  - intros j Hnz. rewrite point_at_setpoint. case_decide as Hd; simpl; [|done].
    destruct Hd as [-> _]. done.
  - intros j. rewrite point_at_setpoint. case_decide as Hd; simpl; [|done].
    by destruct Hd as [-> _].
  - intros j Hzj. rewrite point_at_setpoint. case_decide as Hd; simpl; [|done].
    destruct Hd as [-> _]. done.
Qed.

Lemma follows_failed st s i v : follows s (Sudoku_failed st s i v).2.
Proof.
  split; [|split].
  - intros j _. apply failed_value.
  - intros j. rewrite point_at_failed. case_decide as Hd; simpl; [|done].
    destruct Hd as [-> _]. apply union_subseteq_r.
  - intros j Hz. by rewrite failed_value.
Qed.

Lemma one_char_sources_same_cells s s' :
  same_cells s s' → one_char_sources s → one_char_sources s'.
Proof. intros H Ho i. rewrite <- (same_cells_source _ _ i H). apply Ho. Qed.

Lemma one_char_sources_setpoint s i v src :
  String.length src = 1%nat → one_char_sources s → one_char_sources (setpoint s i v src).
Proof.
  intros Hsrc Ho j. rewrite point_at_setpoint. case_decide; simpl; [done|apply Ho].
Qed.

Lemma one_char_sources_failed st s i v :
  one_char_sources s → one_char_sources (Sudoku_failed st s i v).2.
Proof.
  intros Ho j. rewrite point_at_failed. case_decide as Hd; simpl; [|apply Ho].
  destruct Hd as [-> _]. apply Ho.
Qed.

Lemma guess_tag_out_of_range n : (11 ≤ n)%nat → guess_tag n = Raise IndexError.
Proof.
  intros Hn. unfold guess_tag, str_index. simpl String.length.
  rewrite decide_False by lia. rewrite decide_False by lia. done.
Qed.

Lemma solver_tags_one_char src : src ∈ solver_tags → String.length src = 1%nat.
Proof.
  unfold solver_tags. rewrite !elem_of_cons, elem_of_nil.
  intros H. repeat (destruct H as [->|H]; [done|]). done.
Qed.

Lemma guess_tag_solver_tag n tag : guess_tag n = Ok tag → tag ∈ solver_tags.
Proof.
  do 11 (destruct n as [|n];
         [intros [= <-]; unfold solver_tags; rewrite !elem_of_cons; tauto|]).
  by rewrite guess_tag_out_of_range by lia.
Qed.

Lemma tagged_trans s1 s2 s3 :
  extends s1 s2 → extends s2 s3 → tagged s1 s2 → tagged s2 s3 → tagged s1 s3.
Proof.
  intros He He' (Hk1 & Hn1 & Hu1 & Hf1 & Ho1) (Hk2 & Hn2 & Hu2 & Hf2 & Ho2).
  split; [|split; [|split; [|split; [|auto]]]].
  - intros i Hnz. rewrite <- (Hk1 i Hnz). apply Hk2. by rewrite (He i Hnz).
  - intros i Hz Hnz. destruct (decide (value (point_at s2 i) = 0)) as [Hz2|Hnz2].
    + by apply Hn2.
    + rewrite (Hk2 i Hnz2). apply Hn1; [done|]. done.
  - intros i Hz. destruct (decide (value (point_at s2 i) = 0)) as [Hz2|Hnz2].
    + rewrite (Hu2 i Hz). by apply Hu1.
    + by rewrite (He' i Hnz2) in Hz.
  - intros i Hnz. rewrite <- (Hf1 i Hnz). apply Hf2. by rewrite (He i Hnz).
Qed.

Lemma tagged_same_cells s s' : same_cells s s' → tagged s s'.
Proof.
  intros H. split; [|split; [|split; [|split]]].
  - intros i _. by rewrite (same_cells_source _ _ i H).
  - intros i Hz. by rewrite <- (same_cells_value _ _ i H).
  - intros i _. by rewrite (same_cells_source _ _ i H).
  - intros i _. by rewrite (same_cells_failed _ _ i H).
  - by apply one_char_sources_same_cells.
Qed.

Lemma tagged_setpoint s i v src :
  value (point_at s i) = 0 → v ≠ 0 → src ∈ solver_tags → tagged s (setpoint s i v src).
Proof.
  intros Hz Hv Hsrc. split; [|split; [|split; [|split]]].
  - intros j Hnz. rewrite point_at_setpoint. case_decide as Hd; simpl; [|done].
    destruct Hd as [-> _]. done.
  - intros j Hzj. rewrite point_at_setpoint. case_decide as Hd; simpl; [done|].
    intros Hnz. done.
  - intros j. rewrite point_at_setpoint. case_decide as Hd; simpl; [done|done].
  - intros j Hnz. rewrite point_at_setpoint. case_decide as Hd; simpl; [|done].
    by destruct Hd as [-> _].
  - by apply one_char_sources_setpoint, solver_tags_one_char.
Qed.

Lemma tagged_failed st s i v :
  value (point_at s i) = 0 → tagged s (Sudoku_failed st s i v).2.
Proof.
  intros Hz. split; [|split; [|split; [|split]]].
  - intros j _. rewrite point_at_failed. case_decide as Hd; simpl; [|done].
    by destruct Hd as [-> _].
  - intros j Hzj. by rewrite failed_value.
  - intros j _. rewrite point_at_failed. case_decide as Hd; simpl; [|done].
    by destruct Hd as [-> _].
  - intros j Hnz. rewrite point_at_failed. case_decide as Hd; simpl; [|done].
    destruct Hd as [-> _]. done.
  - apply one_char_sources_failed.
Qed.

Lemma tagged_one_char s g : tagged s g → one_char_sources s → one_char_sources g.
Proof. by intros (_ & _ & _ & _ & H). Qed.

(** Two well-formed boards of which the second comes after the first and
    carries its tags. *)
Lemma cell_after_boards s g i :
  board_ok s → board_ok g → follows s g → tagged s g →
  cell_after (point_at s i) (point_at g i).
Proof.
  intros (Hs & Hc & _ & _) (Hg & Hcg & Hrg & _) (Hext & Hsub & Hnf)
    (Hk & Hn & Hu & Hf & _).
  assert (row (point_at g i) = row (point_at s i)
          ∧ col (point_at g i) = col (point_at s i)) as [Hrow Hcol].
  { destruct (decide (i < 81)%nat) as [Hi|Hi]; [by apply shape_same_place|].
    rewrite !point_at_out_of_range; [done| |];
      [rewrite (proj1 Hs)|rewrite (proj1 Hg)]; lia. }
  split; [done|]. split; [done|]. split; [apply Hsub|]. split.
  - intros Hnz.
    pose proof (Hext i Hnz) as Hval. pose proof (Hk i Hnz) as Hsrc.
    pose proof (Hf i Hnz) as Hfail.
    assert (_available (point_at s i) = ∅) as Hcs by (destruct (Hc i) as [?|[? _]]; done).
    assert (_available (point_at g i) = ∅) as Hcgi.
    { destruct (Hcg i) as [?|[Hz _]]; [done|]. by rewrite Hval in Hz. }
    destruct (point_at s i), (point_at g i); simpl in *. by subst.
  - intros Hz. destruct (decide (value (point_at g i) = 0)) as [Hzg|Hnzg].
    + left. split; [done|]. by apply Hu.
    + right. specialize (Hrg i). split; [lia|]. split; [by apply Hnf|by apply Hn].
Qed.

Lemma solution_same_cells s s' g : same_cells s s' → solution s g → solution s' g.
Proof.
  intros H (Hg & Hsg & Hext & Hf). split; [done|]. split; [done|]. split.
  - intros i. rewrite <- (same_cells_value _ _ i H). apply Hext.
  - intros i. rewrite <- (same_cells_value _ _ i H), <- (same_cells_failed _ _ i H).
    apply Hf.
Qed.

(** The solutions of the board with [v] set at an unset point are the
    solutions of the board that have [v] there. *)
Lemma solution_setpoint s g i v src :
  value (point_at s i) = 0 → solution s g → value (point_at g i) = v →
  solution (setpoint s i v src) g.
Proof.
  intros Hz (Hg & Hsg & Hext & Hf) Hv. split; [done|]. split; [done|]. split.
  - intros j. rewrite point_at_setpoint. case_decide as Hd; simpl; [|apply Hext].
    destruct Hd as [-> _]. done.
  - intros j. rewrite point_at_setpoint. case_decide as Hd; simpl; [|apply Hf].
    destruct Hd as [-> _]. intros _. by apply Hf.
Qed.

(** The solutions of the board after a failure of [v] at an unset point
    are the solutions of the board that do not have [v] there. *)
Lemma solution_failed st s g i v :
  solution s g → value (point_at g i) ≠ v → solution (Sudoku_failed st s i v).2 g.
Proof.
  intros (Hg & Hsg & Hext & Hf) Hv. split; [done|]. split; [done|]. split.
  - intros j. rewrite failed_value. apply Hext.
  - intros j. rewrite failed_value. intros Hz. rewrite point_at_failed.
    case_decide as Hd; simpl; [|by apply Hf].
    destruct Hd as [-> _]. rewrite elem_of_union, elem_of_singleton.
    intros [?|?]; [done|]. by apply (Hf j).
Qed.

Lemma stats_grow_refl st : stats_grow st st.
Proof. unfold stats_grow. lia. Qed.

(** A full well-formed board that comes after a board without clashes is
    one of its solutions. *)
Lemma solution_of_follows s g :
  shape s → board_ok g → unset_count g = 0%nat → no_clash g → follows s g →
  solution s g.
Proof.
  intros Hs Hok H0 Hn (Hext & Hfs & Hr). split; [apply Hok|].
  split; [by apply full_board_solved|]. split; [done|].
  intros i Hz. destruct (decide (i < 81)%nat) as [Hi|Hi].
  - apply Hr; [done|]. apply unset_count_0_value; [done|].
    by rewrite (proj1 (proj1 Hok)).
  - rewrite (point_at_out_of_range s i) by (rewrite (proj1 Hs); lia).
    apply not_elem_of_empty.
Qed.

(** ** What the solver keeps and what its answers mean *)

Section SolverMore.

Variable pick : gset Z → Z.
Hypothesis pick_elem : ∀ x : gset Z, x ≠ ∅ → pick x ∈ x.

Lemma pick_size_1 (x : gset Z) : size x = 1%nat → x = {[pick x]}.
Proof.
  intros Hsz. destruct (size_1_elem_of x Hsz) as [y Hy%leibniz_equiv].
  assert (x ≠ ∅) as Hne by (intros ->; by rewrite size_empty in Hsz).
  pose proof (pick_elem x Hne) as Hp. rewrite Hy in Hp at 2.
  apply elem_of_singleton in Hp. by rewrite Hp, <- Hy.
Qed.

Lemma deduce_val_size s i : deduce_val s i ≠ ∅ → size (deduce_val s i) = 1%nat.
Proof. unfold deduce_val, deduce_answer. by repeat case_decide. Qed.

(** The body of the first loop sets an unset point to its only available
    value, or to the value that [deduce] returns for it. *)
Lemma known_body_forced st s dd :
  shape s → known_cond_val s dd = true →
  ∃ i v st' src,
    (∀ s1, same_view s s1 → known_body pick st s1 = Ok (st', setpoint s i v src))
    ∧ (i < length (points s))%nat ∧ value (point_at s i) = 0
    ∧ ((avail_val s i = {[v]} ∧ st' = add_think st ∧ src = "="%string)
       ∨ (dd = true ∧ deduce_val s i = {[v]} ∧ st' = add_deduction st
          ∧ src = "*"%string)).
Proof.
  intros Hs Hc. unfold known_cond_val in Hc.
  destruct (todo_val s) as [|i t] eqn:E; [done|].
  assert (i ∈ todo_val s) as [Hi Hval]%elem_of_todo_val by (rewrite E; left).
  destruct (decide (size (avail_val s i) = 1%nat)) as [Hsz|Hsz].
  - assert (avail_val s i ≠ ∅) as Hne.
    { intros He. rewrite He in Hsz. by rewrite size_empty in Hsz. }
    exists i, (pick (avail_val s i)), (add_think st), "="%string.
    split; [|split; [done|split; [done|left; by split; [apply pick_size_1|]]]].
    intros s1 Hv. unfold known_body. view_step. rewrite E. cbn [first].
    rewrite result_bind_Ok. view_step. rewrite decide_True by done.
    view_step. rewrite E. cbn [first]. rewrite result_bind_Ok. view_step.
    rewrite (next_iter_Ok _ _ Hne), result_bind_Ok.
    do 2 f_equal. symmetry. apply setpoint_same_cells, Hv.
  - destruct dd; [|done]. apply bool_decide_eq_true in Hc.
    destruct (deduced_val s) as [|j d] eqn:Ed; [done|].
    assert (j ∈ deduced_val s) as (Hj & Hvj & Hdj)%elem_of_deduced_val
      by (rewrite Ed; left).
    assert (j < 81)%nat by (by rewrite <- (proj1 Hs)).
    exists j, (pick (deduce_val s j)), (add_deduction st), "*"%string.
    split; [|split; [done|split; [done|right]]].
    + intros s1 Hv. unfold known_body. view_step. rewrite E. cbn [first].
      rewrite result_bind_Ok. view_step. rewrite decide_False by done.
      view_step. rewrite Ed. cbn [first]. rewrite result_bind_Ok. view_step.
      rewrite (next_iter_Ok _ _ Hdj), result_bind_Ok.
      do 2 f_equal. symmetry. apply setpoint_same_cells, Hv.
    + split; [done|]. split; [|done]. by apply pick_size_1, deduce_val_size.
Qed.

(** The first loop keeps the solutions of the board, its failed values and
    the counters of guesses and failures. *)
Lemma known_values_more n st s dd st' s' :
  board_ok s → known_values pick n st s dd = Ok (st', s') →
  follows s s' ∧ (∀ g, solution s g → solution s' g)
  ∧ thinks st <= thinks st' ∧ deductions st <= deductions st'
  ∧ guesses st' = guesses st ∧ fails st' = fails st
  ∧ (dd = false → deductions st' = deductions st)
  ∧ tagged s s'.
Proof.
  revert st s. induction n as [|n IH]; intros st s Hok; [done|].
  cbn [known_values]. pose proof Hok as (Hs & Hc & Hr & Hf).
  destruct (known_cond_spec s dd Hs) as (s1 & -> & Hv1). rewrite result_bind_Ok.
  pose proof (board_ok_same_view _ _ Hv1 Hok) as Hok1.
  pose proof (follows_same_cells _ _ (proj1 Hv1)) as Hf1.
  destruct (known_cond_val s dd) eqn:Ec.
  - rewrite (known_cond_val_same_view _ _ dd Hv1) in Ec.
    destruct (known_body_forced st s1 dd (proj1 Hok1) Ec)
      as (i & v & st1 & src & Hbody & Hi & Hval & Hforced).
    rewrite (Hbody s1 (same_view_refl s1)), result_bind_Ok.
    pose proof Hok1 as (Hs1 & Hc1 & _ & _).
    assert (i < 81)%nat as Hi81 by (by rewrite <- (proj1 Hs1)).
    assert (v ∈ avail_val s1 i) as Hv.
    { destruct Hforced as [(Ha & _ & _)|(_ & Hd & _ & _)].
      - rewrite Ha. by apply elem_of_singleton.
      - apply (deduce_val_subseteq s1 i). rewrite Hd. by apply elem_of_singleton. }
    destruct (coherent_avail_val_elem s1 i v Hc1 Hv) as [_ Hfresh].
    pose proof (fresh_available_subseteq s1 i v Hfresh) as H19%elem_of_one_to_nine.
    intros Hk.
    destruct (IH st1 (setpoint s1 i v src)
                ltac:(apply board_ok_setpoint; [done|lia]) Hk)
      as (H1 & H2 & H3 & H4 & H5 & H6 & H7 & H8).
    assert (follows s1 (setpoint s1 i v src)) as Hfs
      by (apply follows_setpoint; [done|by apply fresh_available_not_failed]).
    split; [eapply follows_trans; [done|]; by eapply follows_trans|].
    split.
    { intros g Hg. apply H2. apply (solution_same_cells _ _ g (proj1 Hv1)) in Hg.
      apply solution_setpoint; [done|done|].
      destruct Hforced as [(Ha & _ & _)|(_ & Hd & _ & _)].
      - by apply (solution_forced_single s1).
      - apply (solution_deduced s1); [done|done|done|done|].
        rewrite Hd. by apply elem_of_singleton. }
    assert (src ∈ solver_tags ∧ thinks st <= thinks st1
            ∧ deductions st <= deductions st1 ∧ guesses st1 = guesses st
            ∧ fails st1 = fails st ∧ (dd = false → deductions st1 = deductions st))
      as (Hsrc & ? & ? & ? & ? & Hdd).
    { destruct Hforced as [(_ & -> & ->)|(-> & _ & -> & ->)]; simpl;
        (split; [unfold solver_tags; rewrite !elem_of_cons; tauto|]);
        repeat split; try lia; done. }
    split; [lia|]. split; [lia|]. split; [lia|]. split; [lia|].
    split; [intros Hd; rewrite (H7 Hd); by apply Hdd|].
    apply (tagged_trans s s1);
      [apply Hf1|eapply follows_trans; [apply Hfs|apply H1]
      |by apply tagged_same_cells, Hv1|].
    apply (tagged_trans s1 (setpoint s1 i v src)); [apply Hfs|apply H1| |done].
    apply tagged_setpoint; [done|lia|done].
  - intros [= <- <-]. split; [done|].
    split; [intros g; by apply solution_same_cells, Hv1|].
    split; [lia|]. split; [lia|]. split; [done|]. split; [done|]. split; [done|].
    by apply tagged_same_cells, Hv1.
Qed.

Section GuessingMore.

Variable rec : Stats → Sudoku → Z → bool → result (Stats * Sudoku * answer).
Variable dd : bool.
Hypothesis rec_more : ∀ st s level r,
  board_ok s → rec st s level dd = Ok r → solve_more dd st s r.

Lemma guessing_more n st s level r :
  board_ok s → guessing pick rec n st s level dd = Ok r → solve_more dd st s r.
Proof.
  revert st s. induction n as [|n IH]; intros st s Hok; [done|].
  cbn [guessing]. pose proof (same_view_refl s) as Hv. view_step.
  lazymatch goal with
  | Hx : same_view s ?sx |- _ => rename Hx into Hv0; rename sx into s0
  end.
  pose proof (follows_same_cells _ _ (proj1 Hv0)) as Hf0.
  pose proof Hok as (Hs & Hc & Hr & Hf).
  destruct (todo_val s) as [|i t] eqn:E.
  { rewrite decide_True by done. intros [= <-]. unfold solve_more; simpl.
    split; [done|]. split; [apply stats_grow_refl|]. split; [done|].
    split; [by apply tagged_same_cells, Hv0|].
    split; [by apply (board_ok_same_view s)|].
    split; [apply follows_refl|]. split; [by apply tagged_same_cells|].
    by apply tagged_same_cells, Hv0. }
  rewrite decide_False by done.
  assert (i ∈ todo_val s) as [Hi Hval]%elem_of_todo_val by (rewrite E; left).
  assert (i < 81)%nat as Hi81 by (by rewrite <- (proj1 Hs)).
  destruct (decide (avail_val s i = ∅)) as [He|Hne].
  { destruct (guessing_body_dead_end pick rec st s level dd i t E He s0 Hv0)
      as (s' & -> & Hv'). rewrite result_bind_Ok. intros [= <-].
    unfold solve_more; simpl.
    split; [by apply follows_same_cells, Hv'|]. split; [apply stats_grow_refl|].
    split; [done|]. split; [by apply tagged_same_cells, Hv'|].
    split; [by apply (board_ok_same_view s)|].
    split; [|lia]. intros g Hg.
    pose proof (solution_value_fresh s g i Hs Hg Hi81 Hval) as Hin.
    rewrite (coherent_avail_val s i Hc), decide_True in He by done.
    rewrite He in Hin. by apply not_elem_of_empty in Hin. }
  destruct (guess_tag_Ok (size (failed (point_at s i)))) as [tag Htag].
  { pose proof (size_failed_bound s i Hok). lia. }
  destruct (guessing_body_guess pick rec st s level dd i t tag E Hne Htag s0 Hv0)
    as (s' & Hv' & ->).
  set (v := pick (avail_val s i)).
  assert (v ∈ avail_val s i) as Hv by (by apply pick_elem).
  destruct (coherent_avail_val_elem s i v Hc Hv) as [_ Hfresh].
  pose proof (fresh_available_subseteq s i v Hfresh) as H19.
  pose proof H19 as H19'%elem_of_one_to_nine.
  pose proof (fresh_available_not_failed s i v Hfresh) as Hnf.
  assert (board_ok (setpoint s i v tag)) as Hoknext
    by (apply board_ok_setpoint; [done|lia]).
  pose proof (rec_more (add_guess st) (setpoint s i v tag) (level + 1)) as Hrec.
  destruct (rec (add_guess st) (setpoint s i v tag) (level + 1) dd)
    as [[[st' x] [shown|]]|e|]; [| |done|done].
  - specialize (Hrec _ Hoknext eq_refl). rewrite result_bind_Ok. intros [= <-].
    unfold solve_more in *; simpl in *.
    destruct Hrec as (H1 & H2 & H3 & H4 & Hokx & H5 & H6).
    pose proof (follows_same_cells _ _ (proj1 Hv')) as Hfs'.
    assert (follows s shown) as Hfshown.
    { eapply follows_trans; [by apply (follows_setpoint s i v tag)|].
      by eapply follows_trans. }
    split; [done|]. split; [unfold stats_grow in *; simpl in *; lia|].
    split; [done|]. split; [by apply tagged_same_cells, Hv'|].
    split; [by apply (board_ok_same_view s)|].
    assert (tagged s shown) as Hts.
    { apply (tagged_trans s (setpoint s i v tag)); [| | |apply H6].
      - by apply (follows_setpoint s i v tag).
      - eapply follows_trans; [apply H1|apply H5].
      - apply tagged_setpoint; [done|lia|]. by apply (guess_tag_solver_tag _ _ Htag). }
    pose proof (same_cells_sym _ _ (proj1 Hv')) as Hback.
    split; [|split; [|done]].
    + eapply follows_trans; [|apply Hfshown]. by apply follows_same_cells.
    + apply (tagged_trans s' s);
        [by apply follows_same_cells|apply Hfshown|by apply tagged_same_cells|done].
  - specialize (Hrec _ Hoknext eq_refl). rewrite result_bind_Ok.
    destruct (Sudoku_failed st' s i v) as [st2 s2] eqn:Ef.
    assert (s2 = (Sudoku_failed st' s i v).2) as Hs2 by (by rewrite Ef).
    assert (guesses st2 = guesses st' ∧ fails st2 = fails st' + 1
            ∧ thinks st2 = thinks st' ∧ deductions st2 = deductions st')
      as (Hg2 & Hf2 & Ht2 & Hd2) by (by injection Ef as <- _).
    assert (follows s s2) as Hfs2 by (rewrite Hs2; apply follows_failed).
    assert (board_ok s2) as Hok2 by (rewrite Hs2; by apply board_ok_failed).
    assert (∀ g, solution s g → value (point_at g i) ≠ v → solution s2 g) as Hsol2
      by (intros g; rewrite Hs2; apply solution_failed).
    assert (tagged s s2) as Ho2 by (rewrite Hs2; by apply tagged_failed).
    clear Hs2 Ef. intros Hloop. specialize (IH st2 s2 Hok2 Hloop).
    unfold solve_more in *; simpl in *.
    destruct Hrec as (_ & H2 & H3 & _ & _ & Hnosol & Heq).
    destruct IH as (I1 & I2 & I3 & I4 & Iok & I5).
    split; [by eapply follows_trans|].
    split; [unfold stats_grow in *; simpl in *; lia|].
    split; [intros Hd; rewrite (I3 Hd), Hd2; by apply H3|].
    split; [apply (tagged_trans s s2); [apply Hfs2|apply I1|done|done]|].
    split; [done|].
    destruct r as [[st3 s3] [shown|]]; simpl in *.
    + destruct I5 as (I5 & I6 & I7). split; [done|]. split; [done|].
      apply (tagged_trans s s2);
        [apply Hfs2|eapply follows_trans; [apply I1|apply I5]|done|done].
    + destruct I5 as [I5 I6]. split; [|lia].
      intros g Hg. apply (I5 g). apply Hsol2; [done|]. intros Hgv.
      apply (Hnosol g). by apply solution_setpoint.
Qed.

End GuessingMore.

Lemma solve_more_spec fuel dd st s level r :
  board_ok s → solve pick fuel st s level dd = Ok r → solve_more dd st s r.
Proof.
  revert st s level r. induction fuel as [|fuel IH]; intros st s level r Hok; [done|].
  rewrite solve_unfold.
  pose proof (known_values_spec pick pick_elem fuel (enter_level level st) s dd Hok) as Hk.
  pose proof (known_values_more fuel (enter_level level st) s dd) as Hm.
  destruct (known_values pick fuel (enter_level level st) s dd) as [[st1 s1]|e|];
    [|done|done].
  rewrite result_bind_Ok. simpl in Hk. destruct Hk as (Hok1 & _).
  specialize (Hm st1 s1 Hok eq_refl).
  destruct Hm as (M1 & M2 & M3 & M4 & M5 & M6 & M7 & M8).
  intros Hg.
  pose proof (guessing_more (solve pick fuel) dd
                (λ st s level r, IH st s level r) fuel st1 s1 level r Hok1 Hg) as Hgm.
  unfold solve_more in *; simpl in *.
  destruct Hgm as (G1 & G2 & G3 & G4 & Gok & G5).
  split; [by eapply follows_trans|].
  split; [unfold stats_grow in *; simpl in *; lia|].
  split; [intros Hd; rewrite (G3 Hd); by apply M7|].
  split; [apply (tagged_trans s s1); [apply M1|apply G1|done|done]|].
  split; [done|].
  destruct r as [[st3 s3] [shown|]]; simpl in *.
  - destruct G5 as (G5 & G6 & G7). split; [done|]. split; [done|].
    apply (tagged_trans s s1);
      [apply M1|eapply follows_trans; [apply G1|apply G5]|done|done].
  - destruct G5 as [G5 G6]. split; [|lia]. intros g Hsol. apply (G5 g). by apply M2.
Qed.

End SolverMore.

(** ** Token strings *)

Lemma concat_one_char (f : Point → string) (c : Point → ascii) (l : list Point) :
  (∀ p, p ∈ l → f p = String (c p) EmptyString) →
  String.concat "" (f <$> l) = string_of_list_ascii (c <$> l).
Proof.
  induction l as [|p l IH]; intros H; [done|].
  rewrite !fmap_cons. cbn [String.concat string_of_list_ascii].
  rewrite (H p) by (by left). rewrite <- IH by (intros q Hq; apply H; by right).
  destruct l as [|q l]; [done|]. by rewrite fmap_cons.
Qed.

Lemma length_string_of_list_ascii (l : list ascii) :
  String.length (string_of_list_ascii l) = length l.
Proof. induction l as [|c l IH]; simpl; [done|]. by rewrite IH. Qed.

Lemma get_string_of_list_ascii (l : list ascii) k :
  String.get k (string_of_list_ascii l) = l !! k.
Proof.
  revert k. induction l as [|c l IH]; intros k; [by destruct k|].
  destruct k as [|k]; [done|]. apply IH.
Qed.

Lemma pretty_value_char v :
  0 <= v <= 9 →
  (if decide (v = 0) then "."%string else pretty v) = String (value_char v) EmptyString.
Proof.
  intros Hv.
  assert (v = 0 ∨ v = 1 ∨ v = 2 ∨ v = 3 ∨ v = 4 ∨ v = 5 ∨ v = 6 ∨ v = 7 ∨ v = 8 ∨ v = 9)
    as Hcases by lia.
  repeat (destruct Hcases as [->|Hcases]); try subst v; by vm_compute.
Qed.

Lemma digit_of_value_char v : 0 <= v <= 9 → default 0 (digit_of (value_char v)) = v.
Proof.
  intros Hv.
  assert (v = 0 ∨ v = 1 ∨ v = 2 ∨ v = 3 ∨ v = 4 ∨ v = 5 ∨ v = 6 ∨ v = 7 ∨ v = 8 ∨ v = 9)
    as Hcases by lia.
  repeat (destruct Hcases as [->|Hcases]); try subst v; by vm_compute.
Qed.

(** [tokenize] without provenance writes one character for each point. *)
Lemma tokenize_values s :
  (∀ i, 0 <= value (point_at s i) <= 9) →
  tokenize s false = string_of_list_ascii ((λ p, value_char (value p)) <$> points s).
Proof.
  intros Hr. unfold tokenize. apply concat_one_char.
  intros p [i Hi]%list_elem_of_lookup. apply pretty_value_char.
  specialize (Hr i). unfold point_at in Hr.
  by rewrite (list_lookup_total_correct _ _ _ Hi) in Hr.
Qed.

Lemma tokenize_sources s :
  one_char_sources s →
  ∃ l : list ascii, tokenize s true = string_of_list_ascii l
                    ∧ length l = length (points s).
Proof.
  intros Ho.
  exists ((λ p, match source p with String c _ => c | EmptyString => " "%char end)
            <$> points s).
  split; [|by rewrite length_fmap]. unfold tokenize. apply concat_one_char.
  intros p [i Hi]%list_elem_of_lookup. specialize (Ho i). unfold point_at in Ho.
  rewrite (list_lookup_total_correct _ _ _ Hi) in Ho.
  destruct (source p) as [|c [|c' r]]; simpl in Ho; try done.
Qed.

Lemma get_tokenize s k :
  (∀ i, 0 <= value (point_at s i) <= 9) → (k < length (points s))%nat →
  String.get k (tokenize s false) = Some (value_char (value (point_at s k))).
Proof.
  intros Hr Hk. rewrite tokenize_values, get_string_of_list_ascii, list_lookup_fmap by done.
  unfold point_at. by rewrite (list_lookup_lookup_total_lt _ _ Hk).
Qed.

Lemma given_value_tokenize s k :
  (∀ i, 0 <= value (point_at s i) <= 9) → length (points s) = 81%nat → (k < 81)%nat →
  given_value (tokenize s false) k = value (point_at s k).
Proof.
  intros Hr Hlen Hk. unfold given_value.
  rewrite decide_False.
  - rewrite get_tokenize by (done || lia). by apply digit_of_value_char.
  - intros He. pose proof (get_tokenize s k Hr ltac:(lia)) as Hg.
    rewrite He in Hg. by destruct k.
Qed.

(** ** Consequences *)


Lemma solve_true_solution_aux pick fuel dd st st' s s' shown level :
  (∀ x : gset Z, x ≠ ∅ → pick x ∈ x) →
  board_ok s → no_clash s →
  solve pick fuel st s level dd = Ok (st', s', ReturnTrue shown) →
  solution s shown.
Proof.
  intros Hp Hok Hn Hs.
  pose proof (solve_spec pick Hp fuel dd st s level Hok) as H.
  rewrite Hs in H. destruct H as (_ & _ & H1 & H2 & H3).
  pose proof (solve_more_spec pick Hp fuel dd st s level _ Hok Hs) as (M1 & _ & _ & _ & _ & M5 & _).
  apply solution_of_follows; [apply Hok|done|done|by apply H3|].
  by eapply follows_trans.
Qed.


Lemma avail_val_eq s i : (available s i).2 = avail_val s i.
Proof. done. Qed.

Lemma deduce_snd s i :
  shape s → (i < 81)%nat → (deduce s i).2 = deduce_val s i.
Proof.
  intros Hs Hi. apply deduce_spec; [by apply shape_distinct_places|].
  by rewrite (proj1 Hs).
Qed.


Lemma hidden_single_board_ok : board_ok hidden_single_board.
Proof. apply (Sudoku_init_ok hidden_single_startpos "Hidden single"), Sudoku_init_points. Qed.

Lemma Sudoku_init_one_char sp nm s : Sudoku_init sp nm = Some s → one_char_sources s.
Proof.
  intros H i. destruct (decide (i < 81)%nat) as [Hi|Hi].
  - by rewrite (Sudoku_init_point _ _ _ _ H Hi).
  - rewrite point_at_out_of_range; [done|].
    rewrite (Sudoku_init_length _ _ _ H). lia.
Qed.

Lemma digit_of_value_char_Some v : 1 <= v <= 9 → digit_of (value_char v) = Some v.
Proof.
  intros Hv.
  assert (v = 1 ∨ v = 2 ∨ v = 3 ∨ v = 4 ∨ v = 5 ∨ v = 6 ∨ v = 7 ∨ v = 8 ∨ v = 9)
    as Hcases by lia.
  repeat (destruct Hcases as [->|Hcases]); try subst v; by vm_compute.
Qed.

Lemma value_char_digit_of c :
  value_char (default 0 (digit_of c))
  = if digit_of c is Some _ then c else "."%char.
Proof. by destruct c as [[] [] [] [] [] [] [] []]. Qed.

Lemma filter_seq_head (Q : nat → Prop) `{!∀ x, Decision (Q x)} a n i r :
  filter Q (seq a n) = i :: r → ∀ j, (a ≤ j < a + n)%nat → Q j → (i ≤ j)%nat.
Proof.
  revert a. induction n as [|n IH]; intros a Hf j Hj Hq; [lia|].
  simpl in Hf. rewrite filter_cons in Hf.
  destruct (decide (Q a)) as [Hqa|Hqa].
  - injection Hf as <- _. lia.
  - destruct (decide (j = a)) as [->|Hne]; [done|].
    apply (IH (S a) Hf); [lia|done].
Qed.

(** ** The printed board *)

Lemma append_cons c (a b : string) : String c a +:+ b = String c (a +:+ b).
Proof. done. Qed.

Lemma append_empty_r (a : string) : a +:+ EmptyString = a.
Proof. induction a as [|c a IH]; [done|]. by rewrite append_cons, IH. Qed.

Lemma token_chars_app a b : token_chars (a +:+ b) = token_chars a +:+ token_chars b.
Proof.
  induction a as [|c a IH]; [done|]. rewrite append_cons. cbn [token_chars].
  case_decide; [|done]. by rewrite append_cons, IH.
Qed.

Lemma concat_empty_cons (x : string) (l : list string) :
  String.concat "" (x :: l) = x +:+ String.concat "" l.
Proof.
  destruct l as [|y l]; [|done]. cbn [String.concat]. by rewrite append_empty_r.
Qed.

Lemma is_token_value_char v : 0 <= v <= 9 → is_token_char (value_char v).
Proof.
  intros Hv. destruct (decide (v = 0)) as [->|Hnz]; [by left|].
  right. exists v. apply digit_of_value_char_Some. lia.
Qed.

Lemma token_chars_display_point p :
  0 <= value p <= 9 →
  token_chars (display_point false p) = String (value_char (value p)) EmptyString.
Proof.
  intros Hv. unfold display_point. rewrite (pretty_value_char _ Hv).
  pose proof (is_token_value_char _ Hv) as Ht.
  rewrite !token_chars_app. cbn [token_chars].
  rewrite (decide_True (P := is_token_char (value_char (value p)))) by done.
  destruct (decide (col p = 2 ∨ col p = 5)), (decide (col p = 8)),
    (decide (row p = 2 ∨ row p = 5)); by vm_compute.
Qed.

Lemma token_chars_points (l : list Point) :
  (∀ p, p ∈ l → 0 <= value p <= 9) →
  token_chars (String.concat "" (display_point false <$> l))
  = string_of_list_ascii ((λ p, value_char (value p)) <$> l).
Proof.
  induction l as [|p l IH]; intros H; [done|].
  rewrite !fmap_cons, concat_empty_cons, token_chars_app.
  rewrite token_chars_display_point by (apply H; by left).
  rewrite IH by (intros q Hq; apply H; by right). done.
Qed.

Lemma display_point_cell s k :
  shape s → (k < 81)%nat → 0 <= value (point_at s k) <= 9 →
  display_point false (point_at s k)
  = cell_text (λ k, value_char (value (point_at s k))) k.
Proof.
  intros [Hlen Hplace] Hk Hv. destruct (Hplace k Hk) as [Hrow Hcol].
  unfold display_point, cell_text.
  rewrite (pretty_value_char _ Hv), Hrow, Hcol.
  assert (Z.of_nat k mod 9 = Z.of_nat (k `mod` 9)) as -> by (by rewrite Nat2Z.inj_mod).
  assert (Z.of_nat k / 9 = Z.of_nat (k `div` 9)) as -> by (by rewrite Nat2Z.inj_div).
  set (c := (k `mod` 9)%nat). set (r := (k `div` 9)%nat).
  destruct (decide (Z.of_nat c = 2 ∨ Z.of_nat c = 5)) as [H1|H1];
    [rewrite (decide_True (P := (c = 2 ∨ c = 5)%nat)) by lia
    |rewrite (decide_False (P := (c = 2 ∨ c = 5)%nat)) by lia];
    (destruct (decide (Z.of_nat c = 8)) as [H2|H2];
     [rewrite (decide_True (P := (c = 8)%nat)) by lia
     |rewrite (decide_False (P := (c = 8)%nat)) by lia]);
    (destruct (decide (Z.of_nat r = 2 ∨ Z.of_nat r = 5)) as [H3|H3];
     [rewrite ?(decide_True (P := (r = 2 ∨ r = 5)%nat)) by lia
     |rewrite ?(decide_False (P := (r = 2 ∨ r = 5)%nat)) by lia]);
    by vm_compute.
Qed.

Lemma points_by_place s :
  length (points s) = 81%nat → points s = point_at s <$> seq 0 81.
Proof.
  intros Hlen. apply list_eq. intros k. rewrite list_lookup_fmap.
  destruct (decide (k < 81)%nat) as [Hk|Hk].
  - rewrite lookup_seq_lt by done. simpl. unfold point_at.
    apply list_lookup_lookup_total_lt. by rewrite Hlen.
  - rewrite lookup_seq_ge by lia. apply lookup_ge_None_2. lia.
Qed.

Lemma printed_grid_cells s :
  shape s → (∀ i, 0 <= value (point_at s i) <= 9) →
  printed_grid s
  = String.concat "" (cell_text (λ k, value_char (value (point_at s k))) <$> seq 0 81)
    +:+ newline.
Proof.
  intros Hs Hr. unfold printed_grid. f_equal. f_equal.
  rewrite (points_by_place s (proj1 Hs)) at 1. rewrite <- list_fmap_compose.
  apply list_fmap_ext. intros j k Hk%lookup_seq. simpl.
  apply display_point_cell; [done|lia|done].
Qed.

(** The grid as eleven lines, each ended by a line feed, and a last line
    feed. *)
Lemma grid_rows (f : nat → ascii) :
  String.concat "" (cell_text f <$> seq 0 81) +:+ newline
  = row_line f 0 +:+ newline +:+ row_line f 1 +:+ newline +:+ row_line f 2 +:+ newline
    +:+ band_line +:+ newline
    +:+ row_line f 3 +:+ newline +:+ row_line f 4 +:+ newline +:+ row_line f 5 +:+ newline
    +:+ band_line +:+ newline
    +:+ row_line f 6 +:+ newline +:+ row_line f 7 +:+ newline +:+ row_line f 8 +:+ newline
    +:+ newline.
Proof. by vm_compute. Qed.

Lemma lines_line a b :
  no_newline a → lines (a +:+ newline +:+ b) = a :: lines b.
Proof.
  induction a as [|c a IH]; intros Ha.
  - change (EmptyString +:+ newline +:+ b) with (String "010" b).
    cbn [lines]. by rewrite decide_True.
  - apply Forall_cons in Ha as [Hc Ha]. rewrite append_cons. cbn [lines].
    rewrite decide_False by done. by rewrite (IH Ha).
Qed.

Lemma no_newline_row_line f r :
  (∀ k, f k ≠ "010"%char) → no_newline (row_line f r).
Proof.
  intros Hf. unfold no_newline.
  let l := eval vm_compute in (list_ascii_of_string (row_line f r)) in
  change (list_ascii_of_string (row_line f r)) with l.
  repeat (apply Forall_cons; split; [first [apply Hf | done]|]). apply Forall_nil_2.
Qed.

Lemma length_row_line f r : String.length (row_line f r) = 29%nat.
Proof. by vm_compute. Qed.

Lemma value_char_no_newline v : 0 <= v <= 9 → value_char v ≠ "010"%char.
Proof.
  intros Hv.
  assert (v = 0 ∨ v = 1 ∨ v = 2 ∨ v = 3 ∨ v = 4 ∨ v = 5 ∨ v = 6 ∨ v = 7 ∨ v = 8 ∨ v = 9)
    as Hcases by lia.
  repeat (destruct Hcases as [->|Hcases]); try subst v; by vm_compute.
Qed.


Lemma lines_printed_grid s :
  shape s → (∀ i, 0 <= value (point_at s i) <= 9) →
  ∃ f, lines (printed_grid s)
       = [row_line f 0; row_line f 1; row_line f 2; band_line;
          row_line f 3; row_line f 4; row_line f 5; band_line;
          row_line f 6; row_line f 7; row_line f 8; EmptyString; EmptyString].
Proof.
  intros Hs Hr. exists (λ k, value_char (value (point_at s k))).
  rewrite (printed_grid_cells s Hs Hr), grid_rows.
  assert (∀ r, no_newline (row_line (λ k, value_char (value (point_at s k))) r)) as Hrow.
  { intros r. apply no_newline_row_line. intros k. by apply value_char_no_newline. }
  assert (no_newline band_line) as Hband.
  { unfold no_newline. by apply Forall_forall; vm_compute; intros c Hc;
      repeat (apply elem_of_cons in Hc as [->|Hc]; [done|]); apply elem_of_nil in Hc. }
  rewrite !lines_line by done. done.
Qed.

(** ** What the methods and the solver guarantee *)





(** X3. On a well-formed board without clashes, a value that [deduce]
    returns for a point belongs to an unset point, is available at it, and
    setting it keeps the board free of clashes. *)
Theorem deduce_keeps_rules (s : Sudoku) (i : nat) (v : Z) (src : string) :
  board_ok s → no_clash s → (i < 81)%nat → v ∈ (deduce s i).2 →
  value (point_at s i) = 0 ∧ v ∈ (available s i).2
  ∧ no_clash (setpoint s i v src).
Proof.
  intros (Hs & Hc & _) Hn Hi Hv. rewrite deduce_snd in Hv by done.
  apply (deduce_val_subseteq s i) in Hv.
  destruct (coherent_avail_val_elem s i v Hc Hv) as [Hz Hfresh].
  split; [done|]. split; [done|]. by apply no_clash_setpoint.
Qed.

Lemma deduce_keeps_rules_witness :
  value (point_at three_blanks_board 0) = 0
  ∧ 1 ∈ (available three_blanks_board 0).2
  ∧ no_clash (setpoint three_blanks_board 0 1 "*").
Proof.
  apply (deduce_keeps_rules three_blanks_board 0 1 "*" three_blanks_board_ok
           three_blanks_no_clash).
  - lia.
  - by_evaluation.
Defined.

(** X4. When [solve] returns [True] on a well-formed board without
    clashes, the board it prints is a solution of that board: a full and
    valid grid that has every given value in its place and gives no unset
    point a value recorded as failed at it. *)
Theorem solve_true_solution (pick : gset Z → Z) (fuel : nat) (dd : bool)
    (st st' : Stats) (s s' shown : Sudoku) (level : Z) :
  (∀ x : gset Z, x ≠ ∅ → pick x ∈ x) →
  board_ok s → no_clash s →
  solve pick fuel st s level dd = Ok (st', s', ReturnTrue shown) →
  solution s shown.
Proof. apply solve_true_solution_aux. Qed.

Lemma solve_true_solution_witness :
  ∃ shown, solution three_blanks_board shown ∧ value (point_at shown 2) = 8.
Proof.
  eexists. split.
  - eapply (solve_true_solution pick_least 900 true Stats0 _ three_blanks_board _ _ 0
              pick_least_elem three_blanks_board_ok three_blanks_no_clash).
    by vm_compute.
  - by vm_compute.
Defined.





(** X7. [solve] changes the board of its caller only by setting unset
    points and by adding failed values.  Every point keeps its place and
    loses no failed value; a point that was set stays exactly as it was; a
    point that was unset is still unset with its tag, or holds a value
    from 1 to 9 that had not failed at it and carries a tag of [solve].
    When [solve] returns [True], the printed board stands in the same
    relation to the board of the caller, before and after the call. *)
Theorem solve_caller_board (pick : gset Z → Z) (fuel : nat) (dd : bool)
    (st st' : Stats) (s s' : Sudoku) (r : answer) (level : Z) :
  (∀ x : gset Z, x ≠ ∅ → pick x ∈ x) →
  board_ok s →
  solve pick fuel st s level dd = Ok (st', s', r) →
  (∀ i, cell_after (point_at s i) (point_at s' i))
  ∧ ∀ shown, r = ReturnTrue shown →
      (∀ i, cell_after (point_at s' i) (point_at shown i))
      ∧ (∀ i, cell_after (point_at s i) (point_at shown i)).
Proof.
  intros Hp Hok Hs.
  pose proof (solve_spec pick Hp fuel dd st s level Hok) as Hpost.
  rewrite Hs in Hpost. destruct Hpost as (_ & _ & Hpost).
  pose proof (solve_more_spec pick Hp fuel dd st s level _ Hok Hs)
    as (H1 & _ & _ & H4 & Hok' & H5).
  simpl in H1, H4, Hok'.
  split; [intros i; by apply cell_after_boards|].
  intros shown ->. simpl in H5, Hpost.
  destruct H5 as (H5 & H6 & H7). destruct Hpost as (Hoks & _).
  split; intros i; apply cell_after_boards; try done.
  by eapply follows_trans.
Qed.

Lemma one_fail_board_ok : board_ok one_fail_board.
Proof. apply (Sudoku_init_ok one_fail_startpos "One fail"), Sudoku_init_points. Qed.

Lemma solve_caller_board_witness :
  ∃ st' s' shown,
    solve pick_least 900 Stats0 one_fail_board 0 false = Ok (st', s', ReturnTrue shown)
    ∧ (∀ i, cell_after (point_at one_fail_board i) (point_at s' i))
    ∧ (value (point_at one_fail_board 2) = 0 ∧ value (point_at s' 2) = 8
       ∧ source (point_at s' 2) = "="%string)
    ∧ (failed (point_at one_fail_board 28) = ∅ ∧ value (point_at s' 28) = 0
       ∧ elements (failed (point_at s' 28)) = [1])
    ∧ (value (point_at shown 28) = 6 ∧ source (point_at shown 28) = "b"%string)
    ∧ fails st' = 1.
Proof.
  eexists _, _, _. split; [by vm_compute|].
  split; [|by vm_compute].
  refine (proj1 (solve_caller_board pick_least 900 false Stats0 _ one_fail_board _ _ 0
                   pick_least_elem one_fail_board_ok _)).
  by vm_compute.
Defined.

(** X8. Across a call of [solve] on a well-formed board no counter
    decreases and the failures counted are at most the guesses counted; a
    call that returns [False] has counted as many failures as guesses; and
    with [deduce] off no deduction is counted. *)
Theorem solve_counters (pick : gset Z → Z) (fuel : nat) (dd : bool)
    (st st' : Stats) (s s' : Sudoku) (r : answer) (level : Z) :
  (∀ x : gset Z, x ≠ ∅ → pick x ∈ x) →
  board_ok s →
  solve pick fuel st s level dd = Ok (st', s', r) →
  thinks st <= thinks st' ∧ guesses st <= guesses st'
  ∧ deductions st <= deductions st' ∧ fails st <= fails st'
  ∧ fails st' - fails st <= guesses st' - guesses st
  ∧ (r = ReturnFalse → guesses st' - guesses st = fails st' - fails st)
  ∧ (dd = false → deductions st' = deductions st).
Proof.
  intros Hp Hok Hs.
  pose proof (solve_more_spec pick Hp fuel dd st s level _ Hok Hs)
    as (_ & (H1 & H2 & H3 & H4 & H5) & H6 & _ & _ & H7).
  simpl in *. repeat (split; [done|]). split; [|done].
  intros ->. by destruct H7.
Qed.

Lemma solve_counters_witness :
  ∃ st' s' r,
    solve pick_least 900 Stats0 three_blanks_board 0 false = Ok (st', s', r)
    ∧ thinks st' = 3 ∧ deductions st' = 0.
Proof.
  eexists _, _, _. split; [by vm_compute|]. split; [by vm_compute|].
  refine (proj2 (proj2 (proj2 (proj2 (proj2 (proj2
    (solve_counters pick_least 900 false Stats0 _ three_blanks_board _ _ 0
       pick_least_elem three_blanks_board_ok _)))))) eq_refl).
  by vm_compute.
Defined.

(** X9. When [solve] returns [True] on a well-formed board whose tags are
    single characters, both token strings of the printed board have 81
    characters, and the one of the values holds at each place the digit of
    the value of that point, which is from 1 to 9. *)
Theorem solve_tokens (pick : gset Z → Z) (fuel : nat) (dd : bool)
    (st st' : Stats) (s s' shown : Sudoku) (level : Z) :
  (∀ x : gset Z, x ≠ ∅ → pick x ∈ x) →
  board_ok s → one_char_sources s →
  solve pick fuel st s level dd = Ok (st', s', ReturnTrue shown) →
  String.length (tokenize shown true) = 81%nat
  ∧ String.length (tokenize shown false) = 81%nat
  ∧ ∀ k, (k < 81)%nat →
      ∃ c, String.get k (tokenize shown false) = Some c
           ∧ digit_of c = Some (value (point_at shown k))
           ∧ 1 <= value (point_at shown k) <= 9.
Proof.
  intros Hp Hok Ho Hs.
  pose proof (solve_spec pick Hp fuel dd st s level Hok) as H.
  rewrite Hs in H. destruct H as (_ & _ & Hoks & H0 & _).
  pose proof (solve_more_spec pick Hp fuel dd st s level _ Hok Hs)
    as (_ & _ & _ & _ & _ & _ & _ & Htag).
  simpl in Htag. pose proof (tagged_one_char _ _ Htag Ho) as Hos.
  pose proof Hoks as ((Hlen & _) & _ & Hr & _).
  split; [|split].
  - destruct (tokenize_sources shown Hos) as (l & -> & Hl).
    by rewrite length_string_of_list_ascii, Hl.
  - by rewrite tokenize_values, length_string_of_list_ascii, length_fmap.
  - intros k Hk. exists (value_char (value (point_at shown k))).
    assert (1 <= value (point_at shown k) <= 9) as Hv.
    { specialize (Hr k). pose proof (unset_count_0_value shown k H0 ltac:(lia)). lia. }
    split; [apply get_tokenize; [done|lia]|].
    split; [by apply digit_of_value_char_Some|done].
Qed.

Lemma solve_tokens_witness :
  ∃ st' s' shown,
    solve pick_least 900 Stats0 three_blanks_board 0 true = Ok (st', s', ReturnTrue shown)
    ∧ String.length (tokenize shown true) = 81%nat.
Proof.
  eexists _, _, _. split; [by vm_compute|].
  refine (proj1 (solve_tokens pick_least 900 true Stats0 _ three_blanks_board _ _ 0
                   pick_least_elem three_blanks_board_ok
                   (Sudoku_init_one_char three_blanks_startpos "Three blanks" _
                      (Sudoku_init_points _ _)) _)).
  by vm_compute.
Defined.

(** X10. Building a board from the token string of the values of a board
    of 81 points with values from 0 to 9 never fails and gives every point
    the value it had. *)
Theorem tokenize_round_trip (s : Sudoku) (nm : string) :
  length (points s) = 81%nat → (∀ i, 0 <= value (point_at s i) <= 9) →
  ∃ s', Sudoku_init (tokenize s false) nm = Some s'
        ∧ ∀ i, value (point_at s' i) = value (point_at s i).
Proof.
  intros Hlen Hr. rewrite Sudoku_init_points. eexists. split; [done|].
  intros i. destruct (decide (i < 81)%nat) as [Hi|Hi].
  - unfold point_at at 1. cbn [points].
    rewrite list_lookup_total_alt, list_lookup_fmap, lookup_seq_lt by done. simpl.
    by apply given_value_tokenize.
  - rewrite !point_at_out_of_range; [done|lia|].
    cbn [points]. rewrite length_fmap, length_seq. lia.
Qed.

Lemma tokenize_round_trip_witness :
  ∃ s', Sudoku_init (tokenize three_blanks_board false) "again" = Some s'
        ∧ ∀ i, value (point_at s' i) = value (point_at three_blanks_board i).
Proof.
  apply (tokenize_round_trip three_blanks_board "again").
  - reflexivity.
  - apply three_blanks_board_ok.
Defined.

(** X11. The token string of the values of a constructed board has 81
    characters; for a starting string that is not empty it holds at each
    place the character of the starting string when that is a digit from 1
    to 9, and a dot for every other character and every missing place. *)
Theorem tokenize_of_init (sp nm : string) :
  ∃ s, Sudoku_init sp nm = Some s
    ∧ String.length (tokenize s false) = 81%nat
    ∧ (sp ≠ ""%string → ∀ k, (k < 81)%nat →
         String.get k (tokenize s false)
         = Some (match String.get k sp with
                 | Some c => if digit_of c is Some _ then c else "."%char
                 | None => "."%char
                 end)).
Proof.
  destruct (Sudoku_init sp nm) as [s|] eqn:H;
    [|by rewrite Sudoku_init_points in H].
  exists s. split; [done|].
  pose proof (Sudoku_init_ok _ _ _ H) as ((Hlen & _) & _ & Hr & _).
  split; [by rewrite tokenize_values, length_string_of_list_ascii, length_fmap|].
  intros Hne k Hk. rewrite get_tokenize by (done || lia). f_equal.
  rewrite (Sudoku_init_point _ _ _ _ H Hk). simpl.
  unfold given_value. rewrite decide_False by done.
  destruct (String.get k sp) as [c|]; [apply value_char_digit_of|done].
Qed.

(** X12. On a board of 81 points in row-major order, [deduced] returns, in
    the order of the board, the unset points that have more than one
    available value and for which [deduce] returns a value; it changes
    caches only. *)
Theorem deduced_lists (s : Sudoku) :
  shape s →
  (deduced s).2
  = filter (λ j, value (point_at s j) = 0 ∧ (1 < size (available s j).2)%nat
                 ∧ (deduce s j).2 ≠ ∅)
      (seq 0 (length (points s)))
  ∧ clearcache (deduced s).1 = clearcache s.
Proof.
  intros Hs. destruct (deduced_spec s (shape_distinct_places s Hs)) as [Hv ->].
  split; [|symmetry; apply Hv].
  unfold deduced_val. apply filter_iff_in. intros j Hj%elem_of_seq.
  rewrite deduce_snd by (done || rewrite <- (proj1 Hs); lia). done.
Qed.

Lemma deduced_lists_witness :
  (deduced hidden_single_board).2 !! 0%nat = Some 0%nat
  ∧ clearcache (deduced hidden_single_board).1 = clearcache hidden_single_board.
Proof.
  destruct (deduced_lists hidden_single_board) as [H1 H2].
  - apply hidden_single_board_ok.
  - split; [|exact H2]. rewrite H1. by vm_compute.
Defined.

(** X13. The first point that [todo] returns is unset, no unset point has
    fewer available values, and no earlier unset point has as few. *)
Theorem todo_head_most_constrained (s : Sudoku) (i : nat) (t : list nat) :
  (todo s).2 = i :: t →
  (i < length (points s))%nat ∧ value (point_at s i) = 0
  ∧ ∀ j, (j < length (points s))%nat → value (point_at s j) = 0 →
      (size (available s i).2 ≤ size (available s j).2)%nat
      ∧ (size (available s j).2 = size (available s i).2 → (i ≤ j)%nat).
Proof.
  destruct (todo_spec s) as [_ ->]. intros E.
  assert (i ∈ todo_val s) as [Hi Hz]%elem_of_todo_val by (rewrite E; left).
  split; [done|]. split; [done|]. intros j Hj Hzj. rewrite !avail_val_eq.
  set (key := λ j, size (avail_val s j)).
  rewrite todo_val_sorted in E. fold key in E.
  pose proof (sorted_sorted key (unset_points s)) as Hsorted.
  rewrite E in Hsorted. apply StronglySorted_inv in Hsorted as [_ Hall].
  assert (j ∈ sorted key (unset_points s)) as Hin.
  { rewrite sorted_perm. by apply elem_of_unset_points. }
  split.
  - rewrite E in Hin. apply elem_of_cons in Hin as [->|Hin]; [done|].
    rewrite Forall_forall in Hall. by apply Hall.
  - intros Heq. pose proof (sorted_stable key (key i) (unset_points s)) as Hst.
    rewrite E, filter_cons_True in Hst by done.
    unfold unset_points in Hst. rewrite list_filter_filter in Hst.
    symmetry in Hst. apply (filter_seq_head _ _ _ _ _ Hst j); [lia|done].
Qed.

Lemma todo_head_most_constrained_witness :
  (4 < length (points simple_board))%nat ∧ value (point_at simple_board 4) = 0
  ∧ ∀ j, (j < length (points simple_board))%nat → value (point_at simple_board j) = 0 →
      (size (available simple_board 4).2 ≤ size (available simple_board j).2)%nat
      ∧ (size (available simple_board j).2 = size (available simple_board 4).2
         → (4 ≤ j)%nat).
Proof.
  apply (todo_head_most_constrained simple_board 4 (tail (todo simple_board).2)).
  by vm_compute.
Defined.

(** X14. When the best point of the work list has an available value and
    eleven or more failed values, the second loop raises [IndexError]: the
    string of the tags has eleven letters. *)
Theorem guessing_raises_past_tags (pick : gset Z → Z)
    (rec : Stats → Sudoku → Z → bool → result (Stats * Sudoku * answer))
    (n : nat) (st : Stats) (s : Sudoku) (level : Z) (dd : bool) (i : nat) (t : list nat) :
  (todo s).2 = i :: t → (available s i).2 ≠ ∅ →
  (11 ≤ size (failed (point_at s i)))%nat →
  guessing pick rec (S n) st s level dd = Raise IndexError.
Proof.
  destruct (todo_spec s) as [_ ->]. rewrite avail_val_eq. intros E Hne Hsz.
  cbn [guessing]. pose proof (same_view_refl s) as Hv. view_step. rewrite E.
  rewrite decide_False by done.
  unfold guessing_body. view_step. rewrite E. cbn [first].
  rewrite result_bind_Ok. view_step. rewrite decide_True by done.
  rewrite (next_iter_Ok _ _ Hne), result_bind_Ok.
  unfold guess, deepcopy. view_step. rewrite E. cbn [first]. rewrite result_bind_Ok.
  lazymatch goal with
  | Hx : same_view s ?sx |- _ =>
    rewrite <- (same_cells_failed _ _ i (proj1 Hx))
  end.
  by rewrite guess_tag_out_of_range.
Qed.

Lemma guessing_raises_past_tags_witness :
  guessing pick_least (solve pick_least 0) 1 Stats0 eleven_fails_board 0 true
  = Raise IndexError.
Proof.
  apply (guessing_raises_past_tags pick_least (solve pick_least 0) 0 Stats0
           eleven_fails_board 0 true 4 (tail (todo eleven_fails_board).2)).
  - by vm_compute.
  - by_evaluation.
  - vm_compute. lia.
Defined.

(** X15. On every board, after [setpoint] or [Sudoku_failed], [available]
    returns for an unset point the set computed from scratch on the new
    board, and the empty set for a set point. *)
Theorem mutation_refreshes (st : Stats) (s : Sudoku) (j : nat) (v : Z) (src : string)
    (i : nat) :
  (available (setpoint s j v src) i).2
    = (if decide (value (point_at (setpoint s j v src) i) = 0)
       then fresh_available (setpoint s j v src) i else ∅)
  ∧ (available (Sudoku_failed st s j v).2 i).2
    = (if decide (value (point_at (Sudoku_failed st s j v).2 i) = 0)
       then fresh_available (Sudoku_failed st s j v).2 i else ∅).
Proof.
  split.
  - apply coherent_avail_val, coherent_setpoint.
  - apply coherent_avail_val, coherent_failed.
Qed.

(** X16. On every board, a second call of [available] for the same point
    returns the same set and leaves the board as the first call left
    it. *)
Theorem available_twice (s : Sudoku) (i : nat) :
  available (available s i).1 i = ((available s i).1, (available s i).2).
Proof.
  destruct (decide (value (point_at s i) = 0 ∧ _available (point_at s i) = ∅))
    as [[Hv Hc]|Hn].
  2:{ rewrite (available_hit s i Hn). cbn [fst snd]. apply (available_hit s i Hn). }
  pose proof (avail_val_available s i i) as Hsame. unfold avail_val in Hsame.
  rewrite (available_miss s i Hv Hc) in *. cbn [fst snd] in *.
  set (a := one_to_nine ∖ used s (point_at s i)) in *.
  set (s1 := set_points _ s) in *.
  destruct (decide (i < length (points s))%nat) as [Hlt|Hge].
  - assert (Hp : point_at s1 i = set_available a (point_at s i))
      by (apply point_at_insert_eq; done).
    destruct (decide (a = ∅)) as [Ha|Ha].
    + assert (value (point_at s1 i) = 0) as Hv1 by (by rewrite Hp).
      assert (_available (point_at s1 i) = ∅) as Hc1 by (by rewrite Hp).
      rewrite (available_miss s1 i Hv1 Hc1) in *. cbn [fst snd] in *.
      rewrite Hsame. f_equal. rewrite Hp. unfold s1 at 1 3, set_points. cbn [points name startpos].
      rewrite list_insert_insert_eq. by rewrite Ha.
    + rewrite available_hit by (rewrite Hp; simpl; tauto). by rewrite Hp.
  - assert (s1 = s) as Hs1.
    { unfold s1, set_points. rewrite list_insert_ge by lia. by destruct s. }
    rewrite Hs1 in *. rewrite (available_miss s i Hv Hc). fold a. fold s1.
    by rewrite Hs1.
Qed.



(** X18. In the board that a successful [solve] prints, a point that was
    set in the board of the call keeps its tag, and every other point
    carries a tag written by [solve]: the equals sign, the star or a letter
    of the string of the guess tags. *)
Theorem solve_provenance (pick : gset Z → Z) (fuel : nat) (dd : bool)
    (st st' : Stats) (s s' shown : Sudoku) (level : Z) :
  (∀ x : gset Z, x ≠ ∅ → pick x ∈ x) →
  board_ok s →
  solve pick fuel st s level dd = Ok (st', s', ReturnTrue shown) →
  ∀ i, (i < 81)%nat →
    if decide (value (point_at s i) = 0)
    then source (point_at shown i) ∈ solver_tags
    else source (point_at shown i) = source (point_at s i).
Proof.
  intros Hp Hok Hs i Hi.
  pose proof (solve_spec pick Hp fuel dd st s level Hok) as H.
  rewrite Hs in H. destruct H as (_ & _ & Hoks & H0 & _).
  pose proof (solve_more_spec pick Hp fuel dd st s level _ Hok Hs)
    as (_ & _ & _ & _ & _ & _ & _ & Hkeep & Hnew & _).
  simpl in Hkeep, Hnew. case_decide as Hz.
  - apply Hnew; [done|]. apply unset_count_0_value; [done|].
    by rewrite (proj1 (proj1 Hoks)).
  - by apply Hkeep.
Qed.

Lemma solve_provenance_witness :
  ∃ st' s' shown,
    solve pick_least 900 Stats0 three_blanks_board 0 true = Ok (st', s', ReturnTrue shown)
    ∧ source (point_at shown 0) ∈ solver_tags
    ∧ source (point_at shown 3) = " "%string.
Proof.
  eexists _, _, _. split; [by vm_compute|].
  split.
  - refine (solve_provenance pick_least 900 true Stats0 _ three_blanks_board _ _ 0
              pick_least_elem three_blanks_board_ok _ 0%nat _); [by vm_compute|lia].
  - refine (solve_provenance pick_least 900 true Stats0 _ three_blanks_board _ _ 0
              pick_least_elem three_blanks_board_ok _ 3%nat _); [by vm_compute|lia].
Defined.

(** X19. On a board whose values are from 0 to 9, the digits from 1 to 9
    and the dots that [display] prints without the tags are, after those of
    the heading line, the token string of the values: the printed grid
    shows every value once and in the order of the board. *)
Theorem display_shows_values (st : Stats) (s : Sudoku) :
  (∀ i, 0 <= value (point_at s i) <= 9) →
  token_chars (display st s false)
  = token_chars (display_header st s) +:+ tokenize s false.
Proof.
  intros Hr. unfold display. rewrite !token_chars_app.
  rewrite tokenize_values by done. rewrite token_chars_points.
  - f_equal. change (token_chars newline) with EmptyString.
    by rewrite append_empty_r.
  - intros p [i Hi]%list_elem_of_lookup. specialize (Hr i). unfold point_at in Hr.
    by rewrite (list_lookup_total_correct _ _ _ Hi) in Hr.
Qed.

Lemma display_shows_values_witness :
  token_chars (display Stats0 three_blanks_board false)
  = token_chars (display_header Stats0 three_blanks_board)
    +:+ tokenize three_blanks_board false.
Proof.
  apply (display_shows_values Stats0 three_blanks_board).
  apply three_blanks_board_ok.
Defined.

(** X20. On a board of 81 points in row-major order whose values are from
    0 to 9, [display] prints after the heading line eleven lines of 29
    characters and one empty line: the nine rows, with the line of dashes
    after the third and after the sixth row. *)
Theorem display_layout (st : Stats) (s : Sudoku) :
  shape s → (∀ i, 0 <= value (point_at s i) <= 9) →
  display st s false = display_header st s +:+ printed_grid s
  ∧ String.length <$> lines (printed_grid s) = replicate 11 29%nat ++ [0; 0]%nat
  ∧ lines (printed_grid s) !! 3%nat = Some band_line
  ∧ lines (printed_grid s) !! 7%nat = Some band_line.
Proof.
  intros Hs Hr. split; [done|].
  destruct (lines_printed_grid s Hs Hr) as [f ->].
  split; [|done]. cbn [fmap list_fmap]. by rewrite !length_row_line.
Qed.

Lemma display_layout_witness :
  String.length <$> lines (printed_grid three_blanks_board)
  = replicate 11 29%nat ++ [0; 0]%nat.
Proof.
  refine (proj1 (proj2 (display_layout Stats0 three_blanks_board _ _))).
  - apply three_blanks_board_ok.
  - apply three_blanks_board_ok.
Defined.
